(** * NaviHive client-side data layer: cache, smart search, errors, security

    A shallow embedding of [src/utils/CacheManager.ts] (classes
    [CacheManager] and [NavigationCacheManager], and the security helpers
    that follow them) and of [src/utils/performance.ts] (class
    [SmartSearchEngine], [ErrorHandler] and [retryAsync]), followed by the
    properties of the specification that concern them and by further
    properties of the same code.

    Conventions of the embedding.
    - [Date.now()] is an explicit argument [now : Z] (milliseconds) of every
      operation that reads the clock; a synchronous method reads it once.
    - A JavaScript [Map] is an association list in insertion order with
      unique keys; [Map.prototype.set] on a present key overwrites in place.
    - Strings are Rocq strings; [toLowerCase] and the whitespace class are
      the ASCII ones.
    - A thrown exception or rejected promise is the [Throw] completion.
    - The relevance score and the similarity, floating-point numbers in the
      sources, are exact rationals: the first is a multiple of 5/2, the
      second a quotient of two string lengths compared with 0.7. *)

From Stdlib Require Import ZArith QArith List String Ascii Bool Lia.
From Stdlib Require Import DecimalString Sorted Permutation.
From Stdlib Require DecimalZ DecimalFacts.
Import ListNotations.

Local Open Scope string_scope.
Local Open Scope list_scope.
Local Open Scope Z_scope.

(* ================================================================== *)
(** ** JavaScript primitives used by the sources *)
(* ================================================================== *)

Module Js.

(** Values of type [any] held by the cache. *)
Inductive JsVal : Type :=
| JNull
| JUndefined
| JBool (b : bool)
| JNum (n : Z)
| JStr (s : string)
| JArr (items : list Z).

(** [ToBoolean]: what [if (v)] tests. *)
Definition truthy (v : JsVal) : bool :=
  match v with
  | JNull | JUndefined => false
  | JBool b => b
  | JNum n => negb (n =? 0)
  | JStr s => negb (s =? EmptyString)%string
  | JArr _ => true
  end.

(** [if (s)] for a string [s]: the empty string is falsy. *)
Definition truthy_string (s : string) : bool := negb (s =? EmptyString)%string.

Inductive JsError : Type :=
| TypeError (msg : string)
| Rejected (reason : JsVal).

Inductive Completion (A : Type) : Type :=
| Normal (a : A)
| Throw (e : JsError).
Arguments Normal {A} a.
Arguments Throw {A} e.

Definition bind {A B} (c : Completion A) (k : A -> Completion B) : Completion B :=
  match c with
  | Normal a => k a
  | Throw e => Throw e
  end.

(** [for (const x of xs)] and [[...xs]] need an iterable: [null] throws. *)
Definition iterate {A} (xs : option (list A)) : Completion (list A) :=
  match xs with
  | Some l => Normal l
  | None => Throw (TypeError "object is not iterable")
  end.

(** [s.includes(sub)]. *)
Fixpoint includes (s sub : string) : bool :=
  prefix sub s ||
  match s with
  | EmptyString => false
  | String _ rest => includes rest sub
  end.

(** [s.startsWith(p)]. *)
Definition startsWith (s p : string) : bool := prefix p s.

Definition lower_ascii (c : ascii) : ascii :=
  let n := nat_of_ascii c in
  if ((65 <=? n) && (n <=? 90))%nat then ascii_of_nat (n + 32) else c.

(** [s.toLowerCase()]. *)
Fixpoint toLowerCase (s : string) : string :=
  match s with
  | EmptyString => EmptyString
  | String c rest => String (lower_ascii c) (toLowerCase rest)
  end.

(** The class [\s] and the characters removed by [trim]. *)
Definition is_space (c : ascii) : bool :=
  let n := nat_of_ascii c in
  ((9 <=? n) && (n <=? 13) || (n =? 32))%nat.

Fixpoint trimStart (s : string) : string :=
  match s with
  | EmptyString => EmptyString
  | String c rest => if is_space c then trimStart rest else s
  end.

(** Drops the trailing white space: a character is kept when it is not
    white space or when something is kept after it. *)
Fixpoint trimEnd (s : string) : string :=
  match s with
  | EmptyString => EmptyString
  | String c rest =>
      match trimEnd rest with
      | EmptyString => if is_space c then EmptyString else String c EmptyString
      | r => String c r
      end
  end.

(** [s.trim()]. *)
Definition trim (s : string) : string := trimEnd (trimStart s).

(** [s.split(/\s+/)]: the pieces between maximal runs of white space,
    the empty pieces at both ends included. *)
Fixpoint split_from (cur : string) (in_run : bool) (s : string) : list string :=
  match s with
  | EmptyString => [cur]
  | String c rest =>
      if is_space c
      then if in_run then split_from EmptyString true rest
           else cur :: split_from EmptyString true rest
      else split_from (cur ++ String c EmptyString)%string false rest
  end.

Definition split_ws (s : string) : list string := split_from EmptyString false s.

(** Template-literal interpolation of a number. *)
Definition number_toString (n : Z) : string := NilZero.string_of_int (Z.to_int n).

(** Template-literal interpolation of an optional string field. *)
Definition interpolate (o : option string) : string :=
  match o with
  | Some s => s
  | None => "undefined"
  end.

(** [o || ''] for an optional string field. *)
Definition or_empty (o : option string) : string :=
  match o with
  | Some s => s
  | None => EmptyString
  end.

(** [Array.prototype.sort(cmp)]: stable; [a] stays before [b] unless
    [cmp a b > 0]. Defined by insertion from the right. *)
Section Sort.
Context {A : Type} (cmp : A -> A -> Z).

Fixpoint insert (x : A) (l : list A) : list A :=
  match l with
  | [] => [x]
  | y :: l' => if cmp x y <=? 0 then x :: l else y :: insert x l'
  end.

Definition sort (l : list A) : list A := fold_right insert [] l.
End Sort.

End Js.
Import Js.

(* ================================================================== *)
(** ** [CacheManager]: the expiring key-value store *)
(* ================================================================== *)

Module CacheManager.

Record CacheEntry : Type := mkEntry {
  data : JsVal;
  timestamp : Z;
  ttl : Z
}.

(** [Map<string, CacheEntry<any>>] in insertion order. *)
Definition EntryMap : Type := list (string * CacheEntry).

Fixpoint map_get (key : string) (m : EntryMap) : option CacheEntry :=
  match m with
  | [] => None
  | (k, e) :: rest => if (k =? key)%string then Some e else map_get key rest
  end.

Fixpoint map_set (key : string) (e : CacheEntry) (m : EntryMap) : EntryMap :=
  match m with
  | [] => [(key, e)]
  | (k, e') :: rest =>
      if (k =? key)%string then (key, e) :: rest else (k, e') :: map_set key e rest
  end.

Definition map_delete (key : string) (m : EntryMap) : EntryMap :=
  filter (fun kv => negb (fst kv =? key)%string) m.

Definition map_keys (m : EntryMap) : list string := map fst m.

Definition map_size (m : EntryMap) : Z := Z.of_nat (List.length m).

Record t : Type := mk {
  memoryCache : EntryMap;
  maxSize : Z;
  defaultTTL : Z
}.

Definition with_map (c : t) (m : EntryMap) : t :=
  {| memoryCache := m; maxSize := maxSize c; defaultTTL := defaultTTL c |}.

(** [new CacheManager(maxSize = 1000, defaultTTL = 5 * 60 * 1000)]. *)
Definition new (maxSize defaultTTL : option Z) : t :=
  {| memoryCache := [];
     maxSize := match maxSize with Some n => n | None => 1000 end;
     defaultTTL := match defaultTTL with Some d => d | None => 5 * 60 * 1000 end |}.

(** [now - entry.timestamp > entry.ttl]. *)
Definition expired (now : Z) (e : CacheEntry) : bool :=
  now - timestamp e >? ttl e.

Definition cleanupExpired (now : Z) (c : t) : t :=
  with_map c (filter (fun kv => negb (expired now (snd kv))) (memoryCache c)).

(** The eviction step of [set]: when the map is full, delete the first
    key in insertion order, provided [if (firstKey)] lets it through. *)
Definition evict_if_full (c : t) : t :=
  if map_size (memoryCache c) >=? maxSize c
  then match map_keys (memoryCache c) with
       | firstKey :: _ =>
           if truthy_string firstKey
           then with_map c (map_delete firstKey (memoryCache c))
           else c
       | [] => c
       end
  else c.

Definition set (key : string) (d : JsVal) (ttl : option Z) (now : Z) (c : t) : t :=
  let c1 := cleanupExpired now c in
  let c2 := evict_if_full c1 in
  let entry := {| data := d;
                  timestamp := now;
                  ttl := match ttl with Some x => x | None => defaultTTL c end |} in
  with_map c2 (map_set key entry (memoryCache c2)).

(** [get] returns [entry.data], or [null] for an unknown or expired key;
    the expired entry is deleted. *)
Definition get (key : string) (now : Z) (c : t) : JsVal * t :=
  match map_get key (memoryCache c) with
  | None => (JNull, c)
  | Some entry =>
      if expired now entry
      then (JNull, with_map c (map_delete key (memoryCache c)))
      else (data entry, c)
  end.

Definition delete (key : string) (c : t) : t :=
  with_map c (map_delete key (memoryCache c)).

Definition clear (c : t) : t := with_map c [].

Definition keys (now : Z) (c : t) : list string * t :=
  let c1 := cleanupExpired now c in
  (map_keys (memoryCache c1), c1).

Definition size (c : t) : Z := map_size (memoryCache c).

(** The mutating operations of the store, for runs of operations. *)
Inductive op : Type :=
| OpSet (key : string) (d : JsVal) (ttl : option Z) (now : Z)
| OpDelete (key : string)
| OpClear.

Definition step (c : t) (o : op) : t :=
  match o with
  | OpSet key d ttl now => set key d ttl now c
  | OpDelete key => delete key c
  | OpClear => clear c
  end.

Definition run (ops : list op) (c : t) : t := fold_left step ops c.

(** [value !== null]. *)
Definition is_null (v : JsVal) : bool :=
  match v with
  | JNull => true
  | _ => false
  end.

(** [has(key)]: [this.get(key) !== null]; it reads through [get] and has
    its effect on the map. *)
Definition has (key : string) (now : Z) (c : t) : bool * t :=
  let '(v, c') := get key now c in
  (negb (is_null v), c').

(** [Map.prototype.delete] answers whether the key was there; this is the
    result of [delete(key)]. *)
Definition delete_result (key : string) (c : t) : bool :=
  match map_get key (memoryCache c) with
  | Some _ => true
  | None => false
  end.

(** [getStats()]: the size counts every entry of the map, expired or not;
    hits and misses are not tracked here. *)
Record CacheStats : Type := mkCacheStats {
  stats_size : Z;
  stats_hits : Z;
  stats_misses : Z
}.

Definition getStats (c : t) : CacheStats :=
  {| stats_size := map_size (memoryCache c); stats_hits := 0; stats_misses := 0 |}.

End CacheManager.

(* ================================================================== *)
(** ** [NavigationCacheManager]: the read-through coordinator *)
(* ================================================================== *)

Module NavigationCacheManager.

Record Stats : Type := mkStats {
  hits : Z;
  misses : Z;
  lastCleanup : Z
}.

Record t : Type := mk {
  cache : CacheManager.t;
  stats : Stats
}.

Definition new (now : Z) : t :=
  {| cache := CacheManager.new (Some 2000) (Some (10 * 60 * 1000));
     stats := {| hits := 0; misses := 0; lastCleanup := now |} |}.

Definition with_cache (s : t) (c : CacheManager.t) : t :=
  {| cache := c; stats := stats s |}.

Definition hit (s : t) : t :=
  {| cache := cache s;
     stats := {| hits := hits (stats s) + 1;
                 misses := misses (stats s);
                 lastCleanup := lastCleanup (stats s) |} |}.

Definition miss (s : t) : t :=
  {| cache := cache s;
     stats := {| hits := hits (stats s);
                 misses := misses (stats s) + 1;
                 lastCleanup := lastCleanup (stats s) |} |}.

(** The body shared, up to [cacheKey], by [getGroupsWithSites], [getSites]
    and [getConfigs]. [fetchFunction] is the outcome of awaiting the
    supplied function; [now] is the clock before the await and [now']
    the clock after it. *)
Definition readThrough (cacheKey : string) (fetchFunction : Completion JsVal)
    (forceRefresh : bool) (now now' : Z) (s : t) : Completion JsVal * t :=
  let '(cached, s0) :=
    if forceRefresh then (JNull, s)
    else let '(v, c) := CacheManager.get cacheKey now (cache s) in
         (v, with_cache s c) in
  if negb forceRefresh && truthy cached then (Normal cached, hit s0)
  else
    let s1 := miss s0 in
    match fetchFunction with
    | Normal d =>
        (Normal d, with_cache s1 (CacheManager.set cacheKey d None now' (cache s1)))
    | Throw error =>
        let '(cached', c) := CacheManager.get cacheKey now' (cache s1) in
        if truthy cached' then (Normal cached', with_cache s1 c)
        else (Throw error, with_cache s1 c)
    end.

Definition getGroupsWithSites fetchFunction forceRefresh now now' s :=
  readThrough "groupsWithSites" fetchFunction forceRefresh now now' s.

(** [groupId ? `sites_group_${groupId}` : 'all_sites']. *)
Definition sitesKey (groupId : option Z) : string :=
  match groupId with
  | Some g => if g =? 0 then "all_sites" else ("sites_group_" ++ number_toString g)%string
  | None => "all_sites"
  end.

Definition getSites fetchFunction (groupId : option Z) forceRefresh now now' s :=
  readThrough (sitesKey groupId) fetchFunction forceRefresh now now' s.

Definition getConfigs fetchFunction forceRefresh now now' s :=
  readThrough "configs" fetchFunction forceRefresh now now' s.

Inductive InvalidationType : Type := Groups | Sites | Configs | All.

(** The predicate of [keys.filter(...)] in [invalidate]. *)
Definition selects (type : InvalidationType) (key : string) : bool :=
  match type with
  | Groups => includes key "group"
  | Sites => includes key "site"
  | Configs => includes key "config"
  | All => false
  end.

Definition invalidate (type : InvalidationType) (now : Z) (s : t) : t :=
  match type with
  | All => with_cache s (CacheManager.clear (cache s))
  | _ =>
      let '(keys, c) := CacheManager.keys now (cache s) in
      let keysToDelete := filter (selects type) keys in
      with_cache s (fold_left (fun c key => CacheManager.delete key c) keysToDelete c)
  end.

(** [getStats()]: the size of the store with the counters of the
    coordinator; [hitRate] is a quotient of the two counters, kept exact. *)
Record NavigationStats : Type := mkNavigationStats {
  totalSize : Z;
  totalHits : Z;
  totalMisses : Z;
  hitRate : Q
}.

Definition getStats (s : t) : NavigationStats :=
  let cacheStats := CacheManager.getStats (cache s) in
  {| totalSize := CacheManager.stats_size cacheStats;
     totalHits := hits (stats s);
     totalMisses := misses (stats s);
     hitRate := if hits (stats s) + misses (stats s) >? 0
                then (inject_Z (hits (stats s))
                      / inject_Z (hits (stats s) + misses (stats s)))%Q
                else 0%Q |}.

(** [cleanup()]. *)
Definition cleanup (now : Z) (s : t) : t :=
  {| cache := CacheManager.cleanupExpired now (cache s);
     stats := {| hits := hits (stats s);
                 misses := misses (stats s);
                 lastCleanup := now |} |}.

End NavigationCacheManager.

(* ================================================================== *)
(** ** [SmartSearchEngine]: the three-pass search *)
(* ================================================================== *)

(** Modelled from the spec: the declarations of [Site] and [Group] live in
    [API/http], which is not among the sources; the records below carry the
    fields the engine reads, typed as in section 3 of the specification.
    An optional field that is absent ([undefined]) is [None].
    [created_at] holds [new Date(created_at || '').getTime()], with [None]
    for [NaN]. *)
Module Site.
Record t : Type := mk {
  id : Z;
  group_id : Z;
  name : string;
  url : string;
  description : option string;
  notes : option string;
  created_at : option Z
}.
End Site.

Module Group.
Record t : Type := mk {
  id : Z;
  name : string
}.
End Group.

Module SmartSearchEngine.

Inductive ItemType : Type := site | group.

Definition ItemType_eqb (a b : ItemType) : bool :=
  match a, b with
  | site, site | group, group => true
  | _, _ => false
  end.

(** [SearchResultItem], with the [semanticScore] that pass 3 attaches. *)
Record SearchResultItem : Type := mkResult {
  type : ItemType;
  id : Z;
  groupId : option Z;
  name : string;
  url : option string;
  description : option string;
  notes : option string;
  matchedFields : list string;
  semanticScore : option Z
}.

Record SearchHistoryItem : Type := mkHistory {
  query : string;
  timestamp : Z;
  resultsCount : Z;
  selectedId : option Z
}.

(** The engine: its history and the bound [maxHistoryItems]
    (the class fixes it to 100). *)
Record t : Type := mk {
  searchHistory : list SearchHistoryItem;
  maxHistoryItems : nat
}.

Definition new (history : list SearchHistoryItem) : t :=
  {| searchHistory := history; maxHistoryItems := 100 |}.

(** A value of type [Site | Group]; ['group_id' in item] tells them apart. *)
Inductive Item : Type :=
| ISite (s : Site.t)
| IGroup (g : Group.t).

Definition getItemTextForScoring (item : Item) : string :=
  match item with
  | ISite s =>
      toLowerCase (Site.name s ++ " " ++ Site.url s ++ " "
                   ++ or_empty (Site.description s) ++ " "
                   ++ or_empty (Site.notes s))%string
  | IGroup g => toLowerCase (Group.name g)
  end.

Definition matchesQuery (item : Item) (query : string) : bool :=
  includes (getItemTextForScoring item) query.

(** [field && field.toLowerCase().includes(query)]. *)
Definition field_matches (field : option string) (query : string) : bool :=
  match field with
  | Some s => truthy_string s && includes (toLowerCase s) query
  | None => false
  end.

Definition getMatchingFields (item : Item) (query : string) : list string :=
  match item with
  | ISite s =>
      (if includes (toLowerCase (Site.name s)) query then ["name"] else [])
      ++ (if field_matches (Some (Site.url s)) query then ["url"] else [])
      ++ (if field_matches (Site.description s) query then ["description"] else [])
      ++ (if field_matches (Site.notes s) query then ["notes"] else [])
  | IGroup g =>
      if includes (toLowerCase (Group.name g)) query then ["name"] else []
  end.

(** The result literal pushed for an item by passes 1 and 2. *)
Definition resultOf (item : Item) (fields : list string) (score : option Z)
  : SearchResultItem :=
  match item with
  | ISite s =>
      {| type := site; id := Site.id s; groupId := Some (Site.group_id s);
         name := Site.name s; url := Some (Site.url s);
         description := Site.description s; notes := Site.notes s;
         matchedFields := fields; semanticScore := score |}
  | IGroup g =>
      {| type := group; id := Group.id g; groupId := None;
         name := Group.name g; url := None;
         description := None; notes := None;
         matchedFields := fields; semanticScore := score |}
  end.

(** *** Pass 1: exact / substring *)

Definition basicMatch (query : string) (item : Item) : list SearchResultItem :=
  if matchesQuery item query
  then [resultOf item (getMatchingFields item query) None]
  else [].

Definition performBasicSearch_arrays (query : string)
    (groups : list Group.t) (sites : list Site.t) : list SearchResultItem :=
  flat_map (basicMatch query) (map ISite sites)
  ++ flat_map (basicMatch query) (map IGroup groups).

Definition performBasicSearch (query : string)
    (groups : option (list Group.t)) (sites : option (list Site.t))
  : Completion (list SearchResultItem) :=
  bind (iterate sites) (fun ss =>
  bind (iterate groups) (fun gs =>
  Normal (performBasicSearch_arrays query gs ss))).

(** *** Pass 2: weighted multi-term *)

Fixpoint fuzzy_loop (text pattern : string) : bool :=
  match pattern with
  | EmptyString => true
  | String p pattern' =>
      match text with
      | EmptyString => false
      | String c text' =>
          if Ascii.eqb c p then fuzzy_loop text' pattern'
          else fuzzy_loop text' pattern
      end
  end.

Definition fuzzyMatch (text pattern : string) : bool :=
  if (String.length pattern =? 0)%nat then true
  else if (String.length text <? String.length pattern)%nat then false
  else fuzzy_loop text pattern.

Definition queryTermsOf (query : string) : list string :=
  filter (fun term => (0 <? String.length term)%nat) (split_ws (toLowerCase query)).

Definition termScore (lowerText term : string) : Q :=
  if (lowerText =? term)%string then 100
  else if startsWith lowerText term then 50
  else if includes lowerText term then 20
  else if fuzzyMatch lowerText term then 5
  else 0.

Definition calculateRelevanceScore (item : Item) (queryTerms : list string) : Q :=
  let score :=
    fold_left (fun score term =>
                 score + termScore (toLowerCase (getItemTextForScoring item)) term)%Q
              queryTerms 0%Q in
  let matchedTerms :=
    List.length (filter (fun term =>
                           includes (toLowerCase (getItemTextForScoring item)) term)
                        queryTerms) in
  if (matchedTerms =? List.length queryTerms)%nat then (score * (3 # 2))%Q else score.

(** The sign of a comparator result that is a fraction. *)
Definition Qsign (q : Q) : Z := Z.sgn (Qnum q).

Definition performSmartSearch_arrays (query : string)
    (groups : list Group.t) (sites : list Site.t) : list SearchResultItem :=
  let queryTerms := queryTermsOf query in
  let scoredResults :=
    map (fun s => (ISite s, calculateRelevanceScore (ISite s) queryTerms)) sites
    ++ map (fun g => (IGroup g, calculateRelevanceScore (IGroup g) queryTerms)) groups in
  let highScoreResults :=
    firstn 20
      (sort (fun a b => Qsign (snd b - snd a))
            (filter (fun r => 0 <? Qsign (snd r)) scoredResults)) in
  map (fun r => resultOf (fst r) (getMatchingFields (fst r) query) None)
      highScoreResults.

Definition performSmartSearch (query : string)
    (groups : option (list Group.t)) (sites : option (list Site.t))
  : Completion (list SearchResultItem) :=
  bind (iterate sites) (fun ss =>
  bind (iterate groups) (fun gs =>
  Normal (performSmartSearch_arrays query gs ss))).

(** *** Pass 3: semantic / similarity *)

Fixpoint commonChars (s1 s2 : string) : nat :=
  match s1, s2 with
  | String a r1, String b r2 =>
      ((if Ascii.eqb a b then 1 else 0) + commonChars r1 r2)%nat
  | _, _ => 0%nat
  end.

Definition calculateSimilarity (str1 str2 : string) : Q :=
  let s1 := toLowerCase str1 in
  let s2 := toLowerCase str2 in
  if (s1 =? s2)%string then 1
  else if includes s1 s2 || includes s2 s1 then 8 # 10
  else (inject_Z (Z.of_nat (commonChars s1 s2))
        / inject_Z (Z.of_nat (Nat.max (String.length s1) (String.length s2))))%Q.

(** [calculateSimilarity(term, word) > 0.7]. *)
Definition similar (term word : string) : bool :=
  match (calculateSimilarity term word ?= 7 # 10)%Q with
  | Gt => true
  | _ => false
  end.

(** The score accumulated over the query terms for one combined text. *)
Definition semanticScoreOf (text : string) (queryTerms : list string) : Z :=
  fold_left (fun score term =>
               let score1 := if includes text term then score + 10 else score in
               fold_left (fun sc word => if similar term word then sc + 5 else sc)
                         (split_ws text) score1)
            queryTerms 0.

Definition siteText (s : Site.t) : string :=
  toLowerCase (Site.name s ++ " " ++ interpolate (Site.description s) ++ " "
               ++ interpolate (Site.notes s) ++ " " ++ Site.url s)%string.

Definition groupText (g : Group.t) : string := toLowerCase (Group.name g).

Definition itemText (item : Item) : string :=
  match item with
  | ISite s => siteText s
  | IGroup g => groupText g
  end.

Definition semanticMatch (queryTerms : list string) (item : Item)
  : list SearchResultItem :=
  let semanticScore := semanticScoreOf (itemText item) queryTerms in
  if semanticScore >? 0
  then [resultOf item ["semantic"] (Some semanticScore)]
  else [].

Definition performSemanticSearch_arrays (query : string)
    (groups : list Group.t) (sites : list Site.t) : list SearchResultItem :=
  let queryTerms := queryTermsOf query in
  flat_map (semanticMatch queryTerms) (map ISite sites)
  ++ flat_map (semanticMatch queryTerms) (map IGroup groups).

Definition performSemanticSearch (query : string)
    (groups : option (list Group.t)) (sites : option (list Site.t))
  : Completion (list SearchResultItem) :=
  bind (iterate sites) (fun ss =>
  bind (iterate groups) (fun gs =>
  Normal (performSemanticSearch_arrays query gs ss))).

(** *** Merge, sort, history *)

(** One iteration of the three loops of [mergeAndDeduplicate]: the state
    is [seenIds] and [results]. *)
Definition pushUnseen (st : list Z * list SearchResultItem) (item : SearchResultItem)
  : list Z * list SearchResultItem :=
  let '(seenIds, results) := st in
  if existsb (Z.eqb (id item)) seenIds then st
  else (id item :: seenIds, results ++ [item]).

(** Sites before groups, then more matched fields first. *)
Definition compareMerged (a b : SearchResultItem) : Z :=
  if negb (ItemType_eqb (type a) (type b))
  then match type a with site => -1 | group => 1 end
  else Z.of_nat (List.length (matchedFields b))
       - Z.of_nat (List.length (matchedFields a)).

Definition mergeAndDeduplicate (basic smart : list SearchResultItem)
    (semantic : option (list SearchResultItem)) : list SearchResultItem :=
  let st1 := fold_left pushUnseen basic ([], []) in
  let st2 := fold_left pushUnseen smart st1 in
  let st3 := match semantic with
             | Some sem => fold_left pushUnseen sem st2
             | None => st2
             end in
  sort compareMerged (snd st3).

(** [semanticScore || 0]. *)
Definition scoreOrZero (r : SearchResultItem) : Z :=
  match semanticScore r with
  | Some s => s
  | None => 0
  end.

Definition compareRelevance (a b : SearchResultItem) : Z :=
  let aScore := scoreOrZero a in
  let bScore := scoreOrZero b in
  if negb (aScore =? bScore) then bScore - aScore
  else compareMerged a b.

Definition sortByRelevance (results : list SearchResultItem) (query : string)
  : list SearchResultItem :=
  sort compareRelevance results.

(** A [NaN] comparator result counts as [+0]; with such a comparator the
    order that [sort] produces depends on the engine, and the model takes
    the one of the insertion sort. *)
Definition compareCreated (a b : Site.t) : Z :=
  match Site.created_at b, Site.created_at a with
  | Some tb, Some ta => tb - ta
  | _, _ => 0
  end.

Definition getPopularRecommendations (groups : option (list Group.t))
    (sites : option (list Site.t)) : Completion (list SearchResultItem) :=
  bind (iterate sites) (fun ss =>
  Normal (map (fun s => resultOf (ISite s) ["name"] None)
              (firstn 10 (sort compareCreated ss)))).

Definition recordSearch (query : string) (resultsCount : Z) (now : Z) (e : t) : t :=
  let unshifted :=
    {| query := query; timestamp := now; resultsCount := resultsCount;
       selectedId := None |} :: searchHistory e in
  {| searchHistory :=
       if (maxHistoryItems e <? List.length unshifted)%nat
       then firstn (maxHistoryItems e) unshifted
       else unshifted;
     maxHistoryItems := maxHistoryItems e |}.

(** [!query || !query.trim()]. *)
Definition blank (query : string) : bool :=
  negb (truthy_string query) || negb (truthy_string (trim query)).

(** The list [search] sorts and returns for array arguments and a query
    that is not blank. *)
Definition allResults (trimmedQuery : string)
    (groups : list Group.t) (sites : list Site.t) : list SearchResultItem :=
  mergeAndDeduplicate
    (performBasicSearch_arrays trimmedQuery groups sites)
    (performSmartSearch_arrays trimmedQuery groups sites)
    (Some (performSemanticSearch_arrays trimmedQuery groups sites)).

Definition search (query : string)
    (groups : option (list Group.t)) (sites : option (list Site.t))
    (now : Z) (e : t) : Completion (list SearchResultItem) * t :=
  if blank query then (getPopularRecommendations groups sites, e)
  else
    let trimmedQuery := toLowerCase (trim query) in
    let merged :=
      bind (performBasicSearch trimmedQuery groups sites) (fun basicResults =>
      bind (performSmartSearch trimmedQuery groups sites) (fun smartResults =>
      bind (performSemanticSearch trimmedQuery groups sites) (fun semanticResults =>
      Normal (mergeAndDeduplicate basicResults smartResults (Some semanticResults))))) in
    match merged with
    | Throw error => (Throw error, e)
    | Normal all =>
        (Normal (sortByRelevance all trimmedQuery),
         recordSearch query (Z.of_nat (List.length all)) now e)
    end.

(** *** Suggestions, selections, recommendations *)

Inductive SuggestionType : Type := popular | recent | related.

(** [SearchSuggestion]; the field [type] of the sources is [kind] here. *)
Record SearchSuggestion : Type := mkSuggestion {
  text : string;
  kind : SuggestionType;
  count : option Z
}.

(** The [Map<string, number>] of [getPopularQueries], in insertion order. *)
Fixpoint counts_get (key : string) (m : list (string * Z)) : option Z :=
  match m with
  | [] => None
  | (k, n) :: rest => if (k =? key)%string then Some n else counts_get key rest
  end.

Fixpoint counts_set (key : string) (n : Z) (m : list (string * Z))
  : list (string * Z) :=
  match m with
  | [] => [(key, n)]
  | (k, n') :: rest =>
      if (k =? key)%string then (key, n) :: rest
      else (k, n') :: counts_set key n rest
  end.

(** One iteration of the counting loop: [queryCounts.get(q) || 0], plus 1. *)
Definition countQuery (queryCounts : list (string * Z)) (item : SearchHistoryItem)
  : list (string * Z) :=
  let n := match counts_get (query item) queryCounts with
           | Some n => if n =? 0 then 0 else n
           | None => 0
           end in
  counts_set (query item) (n + 1) queryCounts.

Definition getPopularQueries (e : t) : list (string * Z) :=
  firstn 10
    (sort (fun a b => snd b - snd a)
          (fold_left countQuery (searchHistory e) [])).

(** [self.findIndex(p)], with [-1] for no element. *)
Fixpoint findIndex {A} (p : A -> bool) (l : list A) : Z :=
  match l with
  | [] => -1
  | x :: rest =>
      if p x then 0
      else let i := findIndex p rest in
           if i <? 0 then -1 else i + 1
  end.

(** [self.filter((x, index, self) => p x index self)]. *)
Definition filter_indexed {A} (p : A -> Z -> list A -> bool) (self : list A)
  : list A :=
  map fst
    (filter (fun xi => p (fst xi) (snd xi) self)
            (combine self (map Z.of_nat (seq 0 (List.length self))))).

Definition autocompleteOf (lowerQuery query name : string) : list SearchSuggestion :=
  if startsWith (toLowerCase name) lowerQuery && negb (name =? query)%string
  then [{| text := name; kind := related; count := None |}]
  else [].

Definition getAutocompleteSuggestions (query : string)
    (groups : list Group.t) (sites : list Site.t) : list SearchSuggestion :=
  let lowerQuery := toLowerCase query in
  let suggestions :=
    flat_map (fun s => autocompleteOf lowerQuery query (Site.name s)) sites
    ++ flat_map (fun g => autocompleteOf lowerQuery query (Group.name g)) groups in
  filter_indexed
    (fun suggestion index self =>
       findIndex (fun t => (text t =? text suggestion)%string) self =? index)
    suggestions.

Definition getSuggestions (query : string)
    (groups : list Group.t) (sites : list Site.t) (e : t) : list SearchSuggestion :=
  let fromHistory :=
    flat_map (fun tc =>
                if includes (toLowerCase (fst tc)) (toLowerCase query)
                   && negb (fst tc =? query)%string
                then [{| text := fst tc; kind := popular; count := Some (snd tc) |}]
                else [])
             (getPopularQueries e) in
  let suggestions :=
    fold_left (fun acc suggestion =>
                 if existsb (fun s => (text s =? text suggestion)%string) acc
                 then acc
                 else acc ++ [suggestion])
              (getAutocompleteSuggestions query groups sites)
              fromHistory in
  firstn 5 suggestions.

(** [recordSelection]: the first entry, in array order, with this query and
    stored less than five minutes ago receives [selectedId]. *)
Definition selectable (q : string) (now : Z) (item : SearchHistoryItem) : bool :=
  (query item =? q)%string && (timestamp item >? now - 300000).

Fixpoint selectFirst (q : string) (selected : Z) (now : Z)
    (history : list SearchHistoryItem) : list SearchHistoryItem :=
  match history with
  | [] => []
  | item :: rest =>
      if selectable q now item
      then {| query := query item; timestamp := timestamp item;
              resultsCount := resultsCount item; selectedId := Some selected |}
           :: rest
      else item :: selectFirst q selected now rest
  end.

Definition recordSelection (q : string) (selected : Z) (now : Z) (e : t) : t :=
  {| searchHistory := selectFirst q selected now (searchHistory e);
     maxHistoryItems := maxHistoryItems e |}.

(** [SmartRecommendation]; [recType], [recId] and [recName] are the fields
    [type], [id] and [name] of the sources. *)
Record SmartRecommendation : Type := mkRecommendation {
  recId : Z;
  recType : ItemType;
  recName : string;
  relevanceScore : Q;
  reason : string
}.

(** [xs.slice(0, end)]: a negative [end] counts from the end of the array. *)
Definition slice0 {A} (finish : Z) (xs : list A) : list A :=
  if finish <? 0
  then firstn (List.length xs - Z.to_nat (- finish)) xs
  else firstn (Z.to_nat finish) xs.

(** [getRecommendations(count = 5)]; [now i] and [random i] are the values
    of [Date.now()] and [Math.random()] in the [i]-th iteration of the
    loop. The sort is the in-place sort of the array held by the engine,
    which therefore changes. *)
Definition getRecommendations (count : option Z) (now : nat -> Z)
    (random : nat -> Q) (e : t) : list SmartRecommendation * t :=
  let sorted := sort (fun a b => timestamp b - timestamp a) (searchHistory e) in
  let recentSearches := firstn 10 sorted in
  let recommendations :=
    map (fun ix =>
           {| recId := now (fst ix); recType := site;
              recName := ("推荐项目: " ++ query (snd ix))%string;
              relevanceScore := (random (fst ix) * 100)%Q;
              reason := "基于您的搜索历史推荐" |})
        (combine (seq 0 (List.length recentSearches)) recentSearches) in
  (slice0 (match count with Some c => c | None => 5 end) recommendations,
   {| searchHistory := sorted; maxHistoryItems := maxHistoryItems e |}).

End SmartSearchEngine.


(* ================================================================== *)
(** ** [ErrorHandler], [AppError] and [retryAsync] *)
(* ================================================================== *)

(** The calls of [logger] are left out: the logger is an external
    collaborator and returns nothing to the code modelled here. *)
Module ErrorHandler.

(** What the handler reads of an [Error] that is not an [AppError]. *)
Record PlainError : Type := mkPlainError {
  errorName : string;
  errorMessage : string
}.

(** [AppError], without the engine-made [stackTrace]. *)
Record AppError : Type := mkAppError {
  name : string;
  message : string;
  cause : option PlainError;
  context : option (list (string * JsVal));
  showToUser : bool;
  timestamp : Z
}.

Record AppErrorOptions : Type := mkOptions {
  optCause : option PlainError;
  optContext : option (list (string * JsVal));
  optShowToUser : option bool
}.

Definition noOptions : AppErrorOptions :=
  {| optCause := None; optContext := None; optShowToUser := None |}.

(** [new AppError(message, options)] at the instant [now]. *)
Definition newAppError (message : string) (options : AppErrorOptions) (now : Z)
  : AppError :=
  {| name := "AppError";
     message := message;
     cause := optCause options;
     context := optContext options;
     showToUser := match optShowToUser options with
                   | Some b => b
                   | None => true
                   end;
     timestamp := now |}.

(** The four subclasses: [super(message, { ...options, showToUser: true })]
    and then [this.name = className]. *)
Definition newSubclassError (className message : string)
    (options : AppErrorOptions) (now : Z) : AppError :=
  let e := newAppError message
             {| optCause := optCause options;
                optContext := optContext options;
                optShowToUser := Some true |} now in
  {| name := className; message := ErrorHandler.message e; cause := cause e;
     context := context e; showToUser := showToUser e;
     timestamp := timestamp e |}.

Definition newValidationError := newSubclassError "ValidationError".
Definition newNetworkError := newSubclassError "NetworkError".
Definition newAuthError := newSubclassError "AuthError".
Definition newDataError := newSubclassError "DataError".

(** A value of type [unknown] caught by a [catch]. *)
Inductive Thrown : Type :=
| ThrownAppError (e : AppError)
| ThrownError (e : PlainError)
| ThrownValue (v : JsVal).

Definition handle (error : Thrown) (now : Z) : AppError :=
  match error with
  | ThrownAppError e => e
  | ThrownError e =>
      newAppError
        (if truthy_string (errorMessage e) then errorMessage e else "未知错误")
        {| optCause := Some e;
           optContext := Some [("originalError", JStr (errorMessage e))];
           optShowToUser := Some false |}
        now
  | ThrownValue (JStr s) =>
      newAppError s
        {| optCause := None; optContext := None; optShowToUser := Some true |} now
  | ThrownValue v =>
      newAppError "未知错误"
        {| optCause := None;
           optContext := Some [("originalError", v)];
           optShowToUser := Some false |}
        now
  end.

Definition formatUserMessage (error : AppError) : string :=
  if negb (showToUser error) then "发生了一个错误，请稍后重试"
  else if (name error =? "ValidationError")%string
       then ("输入验证失败: " ++ message error)%string
  else if (name error =? "NetworkError")%string
       then "网络连接失败，请检查网络后重试"
  else if (name error =? "AuthError")%string
       then "认证失败，请重新登录"
  else if (name error =? "DataError")%string
       then ("数据错误: " ++ message error)%string
  else if truthy_string (message error) then message error
       else "发生了一个错误".

Definition shouldShowToUser (error : Thrown) : bool :=
  match error with
  | ThrownAppError e => showToUser e
  | _ => false
  end.

Definition getUserMessage (error : Thrown) : string :=
  match error with
  | ThrownAppError e => formatUserMessage e
  | ThrownError e =>
      if truthy_string (errorMessage e) then errorMessage e else "发生了一个错误"
  | ThrownValue (JStr s) => s
  | ThrownValue _ => "发生了一个错误"
  end.

(** How a call ends. *)
Inductive Outcome (A : Type) : Type :=
| Returned (a : A)
| Raised (error : Thrown).
Arguments Returned {A} a.
Arguments Raised {A} error.

(** [handleAsyncError(fn, context)] applied to arguments: [call] is how
    [fn(...args)] ends. *)
Definition handleAsyncError {A} (call : Outcome A) (now : Z) : Outcome A :=
  match call with
  | Returned a => Returned a
  | Raised error => Raised (ThrownAppError (handle error now))
  end.

(** [(error as Error).message], evaluated for the log line of [retryAsync]:
    reading a property of [null] or [undefined] throws. *)
Definition readMessage (error : Thrown) : option PlainError :=
  match error with
  | ThrownValue JNull =>
      Some {| errorName := "TypeError";
              errorMessage := "Cannot read properties of null (reading 'message')" |}
  | ThrownValue JUndefined =>
      Some {| errorName := "TypeError";
              errorMessage :=
                "Cannot read properties of undefined (reading 'message')" |}
  | _ => None
  end.

(** A run of [retryAsync]: how it ends, how many times [fn] was called and
    the sum of the delays handed to [setTimeout]. *)
Record RetryRun (A : Type) : Type := mkRetryRun {
  outcome : Outcome A;
  calls : nat;
  waited : Z
}.
Arguments mkRetryRun {A}.
Arguments outcome {A}.
Arguments calls {A}.
Arguments waited {A}.

(** The loop [for (let i = 0; i < retries; i++)], [left] iterations from
    index [i] on; [fn i] is how the call of [fn] in iteration [i] ends. *)
Fixpoint retryLoop {A} (fn : nat -> Outcome A) (retries delay now : Z)
    (i left : nat) (lastError : Thrown) (waited : Z) : RetryRun A :=
  match left with
  | O =>
      {| outcome := Raised (ThrownAppError (handle lastError now));
         calls := i; waited := waited |}
  | S left' =>
      match fn i with
      | Returned a => {| outcome := Returned a; calls := S i; waited := waited |}
      | Raised error =>
          match readMessage error with
          | Some typeError =>
              {| outcome := Raised (ThrownError typeError);
                 calls := S i; waited := waited |}
          | None =>
              retryLoop fn retries delay now (S i) left' error
                (if Z.of_nat i <? retries - 1
                 then waited + delay * 2 ^ Z.of_nat i
                 else waited)
          end
      end
  end.

(** [retryAsync(fn, retries = 3, delay = 1000, context)]. *)
Definition retryAsync {A} (fn : nat -> Outcome A) (retries delay : option Z)
    (now : Z) : RetryRun A :=
  let retries := match retries with Some r => r | None => 3 end in
  let delay := match delay with Some d => d | None => 1000 end in
  retryLoop fn retries delay now 0 (Z.to_nat retries) (ThrownValue JUndefined) 0.

End ErrorHandler.


(* ================================================================== *)
(** ** The security helpers *)
(* ================================================================== *)

(** The validators and generators that follow the cache in
    [src/utils/CacheManager.ts]. The values written by
    [crypto.getRandomValues] are an argument: [random i] is the byte
    written at index [i] of the array. *)
Module Security.

(** The character classes of the patterns. *)
Definition in_range (lo hi : nat) (c : ascii) : bool :=
  ((lo <=? nat_of_ascii c) && (nat_of_ascii c <=? hi))%nat.

(** [[A-Z]], [[a-z]] and [\d]. *)
Definition is_upper : ascii -> bool := in_range 65 90.
Definition is_lower : ascii -> bool := in_range 97 122.
Definition is_digit : ascii -> bool := in_range 48 57.

(** The characters of the class of special characters; the fourteenth is
    the double quote, character 34. *)
Definition specials : string :=
  ("!@#$%^&*(),.?" ++ String (ascii_of_nat 34) ":{}|<>")%string.

Definition is_special (c : ascii) : bool :=
  existsb (Ascii.eqb c) (list_ascii_of_string specials).

(** [\w]. *)
Definition is_word (c : ascii) : bool :=
  is_upper c || is_lower c || is_digit c || Ascii.eqb c "_".

(** [[a-zA-Z0-9_-]]. *)
Definition is_username_char (c : ascii) : bool :=
  is_lower c || is_upper c || is_digit c || Ascii.eqb c "_" || Ascii.eqb c "-".

(** [/[class]/.test(s)]. *)
Definition test_class (class : ascii -> bool) (s : string) : bool :=
  existsb class (list_ascii_of_string s).

Record PasswordCheck : Type := mkPasswordCheck {
  isValid : bool;
  errors : list string
}.

Definition validatePasswordStrength (password : string) : PasswordCheck :=
  let errors :=
    (if (String.length password <? 8)%nat then ["密码长度至少8位"] else [])
    ++ (if negb (test_class is_upper password) then ["密码必须包含大写字母"] else [])
    ++ (if negb (test_class is_lower password) then ["密码必须包含小写字母"] else [])
    ++ (if negb (test_class is_digit password) then ["密码必须包含数字"] else [])
    ++ (if negb (test_class is_special password) then ["密码必须包含特殊字符"] else []) in
  {| isValid := (List.length errors =? 0)%nat; errors := errors |}.

(** [/^[a-zA-Z0-9_-]{3,20}$/.test(username)]. *)
Definition validateUsername (username : string) : bool :=
  (3 <=? String.length username)%nat && (String.length username <=? 20)%nat
  && forallb is_username_char (list_ascii_of_string username).

(** [/literal/i.test(content)] for a lower-case literal. *)
Definition test_ci (literal content : string) : bool :=
  includes (toLowerCase content) literal.

(** The rest of [s] after its longest prefix made of characters of a
    class. *)
Fixpoint skip (class : ascii -> bool) (s : string) : string :=
  match s with
  | EmptyString => EmptyString
  | String c rest => if class c then skip class rest else s
  end.

(** [on\w+\s*=], case-insensitive, matched at the start of [s]. The three
    classes [\w], [\s] and [=] are disjoint, so a match takes the longest
    run of [\w] and then the longest run of [\s]. *)
Definition on_handler_at (s : string) : bool :=
  match s with
  | String o (String n (String w rest)) =>
      Ascii.eqb (lower_ascii o) "o" && Ascii.eqb (lower_ascii n) "n"
      && is_word w
      && match skip is_space (skip is_word rest) with
         | String e _ => Ascii.eqb e "="
         | EmptyString => false
         end
  | _ => false
  end.

(** A pattern without anchor matches when it matches at some position. *)
Fixpoint test_anywhere (at_start : string -> bool) (s : string) : bool :=
  at_start s
  || match s with
     | EmptyString => false
     | String _ rest => test_anywhere at_start rest
     end.

Definition maliciousPatterns : list (string -> bool) :=
  [ test_ci "<script"; test_ci "javascript:"; test_ci "vbscript:";
    test_anywhere on_handler_at; test_ci "<iframe"; test_ci "<embed";
    test_ci "<object"; test_ci "<link" ].

Definition checkForMaliciousContent (content : string) : bool :=
  negb (existsb (fun pattern => pattern content) maliciousPatterns).

(** [new Uint8Array(n)] after [crypto.getRandomValues]. *)
Definition randomBytes (n : nat) (random : nat -> Byte.byte) : list Byte.byte :=
  map random (seq 0 n).

Definition hexDigits : string := "0123456789abcdef".

Definition hexDigit (d : nat) : ascii :=
  match get d hexDigits with
  | Some c => c
  | None => "0"%char
  end.

(** [byte.toString(16)] for an element of a [Uint8Array]: one digit below
    16, two digits from 16 on. *)
Definition toString16 (byte : Byte.byte) : string :=
  let n := Byte.to_nat byte in
  if (n <? 16)%nat then String (hexDigit n) EmptyString
  else String (hexDigit (n / 16)) (String (hexDigit (n mod 16)) EmptyString).

Fixpoint padding (n : nat) (pad : ascii) (s : string) : string :=
  match n with
  | O => s
  | S n' => String pad (padding n' pad s)
  end.

(** [s.padStart(target, pad)] for a pad of one character. *)
Definition padStart (target : nat) (pad : ascii) (s : string) : string :=
  padding (target - String.length s) pad s.

(** [parts.join('')]. *)
Definition join (parts : list string) : string := String.concat EmptyString parts.

Definition generateCsrfToken (random : nat -> Byte.byte) : string :=
  join (map (fun byte => padStart 2 "0" (toString16 byte)) (randomBytes 32 random)).

(** [token === expected]. *)
Definition validateCsrfToken (token expected : string) : bool :=
  (token =? expected)%string.

Definition chars : string :=
  "ABCDEFGHIJKLMNOPQRSTUVWXYZabcdefghijklmnopqrstuvwxyz0123456789".

(** [chars[i]] as [join] reads it: [undefined], out of range, joins as the
    empty string. *)
Definition charAt (i : nat) : string :=
  match get i chars with
  | Some c => String c EmptyString
  | None => EmptyString
  end.

(** [generateSecureRandomString(length)] for an integer [length]; [None]
    stands for the exception thrown by [new Uint8Array] for a negative
    length and by [crypto.getRandomValues] for more than 65536 bytes. *)
Definition generateSecureRandomString (length : Z) (random : nat -> Byte.byte)
  : option string :=
  if (length <? 0) || (65536 <? length) then None
  else Some (join (map (fun byte => charAt (Byte.to_nat byte mod String.length chars))
                       (randomBytes (Z.to_nat length) random))).

End Security.
(* ================================================================== *)
(** ** Statements of the specification that the sources are tested against *)
(* ================================================================== *)

Module Stated.

Import CacheManager NavigationCacheManager.

(** P3 as written: with an expired entry for [cacheKey] in the store and
    a failing fetch, the read-through returns the entry's value. *)
Definition stale_fallback (cacheKey : string) (err : JsError) (forceRefresh : bool)
    (now now' : Z) (s : NavigationCacheManager.t) : Prop :=
  forall e,
    map_get cacheKey (memoryCache (cache s)) = Some e ->
    expired now e = true ->
    fst (readThrough cacheKey (Throw err) forceRefresh now now' s) = Normal (data e).

(** The frame of [invalidate] as written: a key that the substring test
    does not select keeps its entry. *)
Definition invalidate_frame (type : InvalidationType) (now : Z)
    (s : NavigationCacheManager.t) : Prop :=
  forall key,
    selects type key = false ->
    map_get key (memoryCache (cache (invalidate type now s)))
    = map_get key (memoryCache (cache s)).

(** Runs of insertions at one instant, and the entries they create. *)
Definition nonempty_key (o : op) : Prop :=
  match o with
  | OpSet key _ _ _ => key <> EmptyString
  | _ => True
  end.

Definition inserts (now ttl : Z) (kvs : list (string * JsVal)) : list op :=
  map (fun kv => OpSet (fst kv) (snd kv) (Some ttl) now) kvs.

Definition entries (now ttl : Z) (kvs : list (string * JsVal)) : EntryMap :=
  map (fun kv => (fst kv, {| data := snd kv; timestamp := now; ttl := ttl |})) kvs.

(** The store respects its bound and holds no empty key. *)
Definition bounded (c : CacheManager.t) : Prop :=
  size c <= maxSize c /\ Forall (fun k => k <> EmptyString) (map_keys (memoryCache c)).

End Stated.

Module StatedSearch.

Import SmartSearchEngine.

(** [x] occurs at a smaller index than [y]. *)
Definition before {A} (x y : A) (l : list A) : Prop :=
  exists l1 l2 l3, l = l1 ++ x :: l2 ++ y :: l3.

(** The three loops of [mergeAndDeduplicate] as a recursive function:
    the items whose id was not seen yet, in order. *)
Fixpoint unseen (seenIds : list Z) (items : list SearchResultItem)
  : list SearchResultItem :=
  match items with
  | [] => []
  | item :: rest =>
      if existsb (Z.eqb (id item)) seenIds then unseen seenIds rest
      else item :: unseen (id item :: seenIds) rest
  end.

(** The entries that passes 1 and 2 push for a site or a group. *)
Definition siteResult (query : string) (s : Site.t) : SearchResultItem :=
  resultOf (ISite s) (getMatchingFields (ISite s) query) None.

Definition groupResult (query : string) (g : Group.t) : SearchResultItem :=
  resultOf (IGroup g) (getMatchingFields (IGroup g) query) None.

(** The merge rule as written: a record matched by pass 1 that pass 3
    scores keeps the fields of pass 1 and carries the score of pass 3. *)
Definition merged_carries_semantic_score (query : string)
    (groups : list Group.t) (sites : list Site.t) : Prop :=
  let trimmedQuery := toLowerCase (trim query) in
  forall b sem results now e,
    In b (performBasicSearch_arrays trimmedQuery groups sites) ->
    In sem (performSemanticSearch_arrays trimmedQuery groups sites) ->
    type sem = type b -> id sem = id b ->
    fst (search query (Some groups) (Some sites) now e) = Normal results ->
    exists r, In r results /\ type r = type b /\ id r = id b
              /\ matchedFields r = matchedFields b
              /\ semanticScore r = semanticScore sem.

(** P5 as written: the site named ["abc"] is not below the site named
    ["abcdef"]. *)
Definition exact_match_not_below (groups : list Group.t) (sites : list Site.t)
  : Prop :=
  forall a b results now e,
    In a sites -> In b sites -> Site.name a = "abc" -> Site.name b = "abcdef" ->
    fst (search "abc" (Some groups) (Some sites) now e) = Normal results ->
    before (siteResult "abc" a) (siteResult "abc" b) results.

(** The list that [search] returns for array arguments and a query,
    already trimmed and lower-cased, that is not blank. *)
Definition finalResults (query : string) (groups : list Group.t)
    (sites : list Site.t) : list SearchResultItem :=
  sortByRelevance (allResults query groups sites) query.

(** [null] read as the empty collection. *)
Definition orEmpty {A} (xs : option (list A)) : list A :=
  match xs with
  | Some l => l
  | None => []
  end.

(** The error policy as written: [search] returns the list it returns
    for the collections with [null] replaced by the empty one. *)
Definition null_is_empty (query : string)
    (groups : option (list Group.t)) (sites : option (list Site.t)) : Prop :=
  forall now e,
    exists results,
      fst (search query groups sites now e) = Normal results
      /\ fst (search query (Some (orEmpty groups)) (Some (orEmpty sites)) now e)
         = Normal results.

(** Comparators that order by a key: what [sort] needs to return a
    sorted list. *)
Record consistent {A} (cmp : A -> A -> Z) : Prop := {
  cmp_total : forall a b, cmp a b <= 0 \/ cmp b a <= 0;
  cmp_trans : forall a b c, cmp a b <= 0 -> cmp b c <= 0 -> cmp a c <= 0;
  cmp_strict : forall a b, cmp a b < 0 -> 0 < cmp b a
}.

End StatedSearch.

Module StatedMore.

Import SmartSearchEngine.

(** The suggestions of a list that repeat no text of [seen] nor of an
    earlier suggestion of the list. *)
Fixpoint firstByText (seen : list SearchSuggestion) (l : list SearchSuggestion)
  : list SearchSuggestion :=
  match l with
  | [] => []
  | x :: rest =>
      if existsb (fun t => (text t =? text x)%string) seen
      then firstByText (seen ++ [x]) rest
      else x :: firstByText (seen ++ [x]) rest
  end.

(** How many entries of the history carry the query [q]. *)
Definition occurrences (q : string) (history : list SearchHistoryItem) : Z :=
  Z.of_nat (count_occ string_dec (map query history) q).

(** The count held for [q] by the map of [getPopularQueries], 0 when the
    map has no entry for it. *)
Definition countOf (m : list (string * Z)) (q : string) : Z :=
  match counts_get q m with
  | Some n => n
  | None => 0
  end.

(** An entry of the history with its [selectedId] set. *)
Definition selectedAs (selected : Z) (item : SearchHistoryItem) : SearchHistoryItem :=
  {| query := query item; timestamp := timestamp item;
     resultsCount := resultsCount item; selectedId := Some selected |}.

(** A result stands for a record of the collections. *)
Definition fromCollections (groups : list Group.t) (sites : list Site.t)
    (r : SearchResultItem) : Prop :=
  (exists s, In s sites /\ type r = site /\ id r = Site.id s
             /\ name r = Site.name s /\ url r = Some (Site.url s))
  \/ (exists g, In g groups /\ type r = group /\ id r = Group.id g
                /\ name r = Group.name g /\ url r = None).

End StatedMore.

Module StatedErrors.

Import ErrorHandler.

(** The attempts [i], ..., [i + j - 1] of [fn] fail, attempt [m] with the
    error [errs m], and each error can be logged by [retryAsync]. *)
Definition fails_from {A} (fn : nat -> Outcome A) (errs : nat -> Thrown)
    (i j : nat) : Prop :=
  forall m, (m < j)%nat ->
    fn (i + m)%nat = Raised (errs (i + m)%nat)
    /\ readMessage (errs (i + m)%nat) = None.

End StatedErrors.

(* ================================================================== *)
(** ** Properties of the store *)
(* ================================================================== *)

Section EntryMapFacts.
Import CacheManager.

Lemma map_get_set_same key e m : map_get key (map_set key e m) = Some e.
Proof.
  induction m as [|[k e'] m IH]; simpl.
  - now rewrite String.eqb_refl.
  - destruct (k =? key)%string eqn:E; simpl.
    + now rewrite String.eqb_refl.
    + now rewrite E.
Qed.

Lemma map_get_delete_same key m : map_get key (map_delete key m) = None.
Proof.
  induction m as [|[k e] m IH]; simpl; auto.
  destruct (k =? key)%string eqn:E; simpl; auto.
  now rewrite E.
Qed.

Lemma map_get_filter_keep (keep : string * CacheEntry -> bool) key e m :
  map_get key m = Some e -> keep (key, e) = true ->
  map_get key (filter keep m) = Some e.
Proof.
  induction m as [|[k e'] m IH]; simpl; [discriminate|].
  destruct (k =? key)%string eqn:E.
  - apply String.eqb_eq in E; subst k.
    intros [= ->] Hk. rewrite Hk. simpl. now rewrite String.eqb_refl.
  - intros Hg Hk. destruct (keep (k, e')); simpl; auto.
    now rewrite E; auto.
Qed.

Lemma map_get_filter_drop (keep : string * CacheEntry -> bool) key m :
  (forall e, keep (key, e) = false) -> map_get key (filter keep m) = None.
Proof.
  intros Hdrop. induction m as [|[k e'] m IH]; simpl; auto.
  destruct (keep (k, e')) eqn:Hk; auto.
  simpl. destruct (k =? key)%string eqn:E; auto.
  apply String.eqb_eq in E; subst k. now rewrite Hdrop in Hk.
Qed.

Lemma map_get_filter_none (keep : string * CacheEntry -> bool) key m :
  map_get key m = None -> map_get key (filter keep m) = None.
Proof.
  induction m as [|[k e'] m IH]; simpl; auto.
  destruct (k =? key)%string eqn:E; [discriminate|].
  intros Hg. destruct (keep (k, e')); simpl; auto.
  now rewrite E; auto.
Qed.

Lemma map_get_In key e m : map_get key m = Some e -> In (key, e) m.
Proof.
  induction m as [|[k e'] m IH]; simpl; [discriminate|].
  destruct (k =? key)%string eqn:E; auto.
  apply String.eqb_eq in E; subst k. intros [= ->]. now left.
Qed.

Lemma map_get_not_in key m : ~ In key (map_keys m) -> map_get key m = None.
Proof.
  unfold map_keys. induction m as [|[k e] m IH]; simpl; auto.
  intros Hn. destruct (k =? key)%string eqn:E.
  - apply String.eqb_eq in E. tauto.
  - apply IH. tauto.
Qed.

Lemma map_set_new_key key e m :
  ~ In key (map_keys m) -> map_set key e m = m ++ [(key, e)].
Proof.
  unfold map_keys. induction m as [|[k e'] m IH]; simpl; auto.
  intros Hn. destruct (k =? key)%string eqn:E.
  - apply String.eqb_eq in E. tauto.
  - f_equal. apply IH. tauto.
Qed.

Lemma map_set_length key e m :
  (List.length (map_set key e m) <= S (List.length m))%nat.
Proof.
  induction m as [|[k e'] m IH]; simpl; auto.
  destruct (k =? key)%string; simpl; lia.
Qed.

Lemma map_set_keys key e m :
  forall k, In k (map_keys (map_set key e m)) -> k = key \/ In k (map_keys m).
Proof.
  unfold map_keys. induction m as [|[k0 e'] m IH]; simpl; intros k.
  - intros [<-|[]]. now left.
  - destruct (k0 =? key)%string eqn:E; simpl.
    + intros [<-|H]; auto.
    + intros [<-|H]; auto. destruct (IH _ H); auto.
Qed.

Lemma map_delete_length key m :
  (List.length (map_delete key m) <= List.length m)%nat.
Proof. apply filter_length_le. Qed.

Lemma map_delete_head_length key e m :
  (List.length (map_delete key ((key, e) :: m)) <= List.length m)%nat.
Proof.
  unfold map_delete. simpl. rewrite String.eqb_refl. simpl.
  apply filter_length_le.
Qed.

Lemma map_delete_absent key m :
  ~ In key (map_keys m) -> map_delete key m = m.
Proof.
  unfold map_keys. induction m as [|[k e] m IH]; simpl; auto.
  intros Hn. destruct (k =? key)%string eqn:E; simpl.
  - apply String.eqb_eq in E. tauto.
  - f_equal. apply IH. tauto.
Qed.

Lemma filter_keys_incl (keep : string * CacheEntry -> bool) m :
  forall k, In k (map_keys (filter keep m)) -> In k (map_keys m).
Proof.
  intros k. unfold map_keys. rewrite !in_map_iff.
  intros [kv [Hk Hin]]. exists kv. split; auto.
  now apply filter_In in Hin.
Qed.

End EntryMapFacts.

Section StoreFacts.
Import CacheManager.

Lemma expired_spec now e : expired now e = true <-> now - timestamp e > ttl e.
Proof. unfold expired. rewrite Z.gtb_gt. lia. Qed.

Lemma expired_later now now' e :
  expired now e = true -> now <= now' -> expired now' e = true.
Proof. rewrite !expired_spec. lia. Qed.

Lemma get_fresh key now c e :
  map_get key (memoryCache c) = Some e -> expired now e = false ->
  get key now c = (data e, c).
Proof. intros Hg He. unfold get. now rewrite Hg, He. Qed.

Lemma get_expired key now c e :
  map_get key (memoryCache c) = Some e -> expired now e = true ->
  get key now c = (JNull, delete key c).
Proof. intros Hg He. unfold get. now rewrite Hg, He. Qed.

Lemma get_absent key now c :
  map_get key (memoryCache c) = None -> get key now c = (JNull, c).
Proof. intros Hg. unfold get. now rewrite Hg. Qed.

Lemma get_after_set key d ttl now c :
  map_get key (memoryCache (set key d (Some ttl) now c))
  = Some {| data := d; timestamp := now; ttl := ttl |}.
Proof. unfold set. simpl. apply map_get_set_same. Qed.

End StoreFacts.

(** C6 (P1, freshness): for [ttl > 0], [set(k, v, ttl)] followed at the same
    instant by [get(k)] returns [v] and leaves the store as it is; once the
    clock has advanced so that [now' - storedAt > ttl], [get(k)] returns
    [null] and its only effect is the deletion of the entry of [k], which
    is then absent from the map. *)
Theorem set_get_fresh_then_expired :
  forall (k : string) (v : JsVal) (ttl now now' : Z) (c : CacheManager.t),
    0 < ttl ->
    now' - now > ttl ->
    let c1 := CacheManager.set k v (Some ttl) now c in
    CacheManager.get k now c1 = (v, c1)
    /\ CacheManager.get k now' c1 = (JNull, CacheManager.delete k c1)
    /\ CacheManager.map_get k
         (CacheManager.memoryCache (snd (CacheManager.get k now' c1))) = None.
Proof.
  intros k v ttl now now' c Httl Hadv c1.
  pose proof (get_after_set k v ttl now c) as Hg. fold c1 in Hg.
  assert (Hlater : CacheManager.get k now' c1 = (JNull, CacheManager.delete k c1)).
  { apply (get_expired _ _ _ _ Hg). apply expired_spec. simpl. lia. }
  split; [|split].
  - rewrite (get_fresh _ _ _ _ Hg); [reflexivity|].
    unfold CacheManager.expired. simpl. rewrite Z.gtb_ltb. apply Z.ltb_ge. lia.
  - exact Hlater.
  - rewrite Hlater. simpl. apply map_get_delete_same.
Qed.

Lemma set_get_fresh_then_expired_witness :
  let c1 := CacheManager.set "k" (JStr "v") (Some 1000) 5
              (CacheManager.new None None) in
  CacheManager.get "k" 5 c1 = (JStr "v", c1)
  /\ CacheManager.get "k" 1006 c1 = (JNull, CacheManager.delete "k" c1)
  /\ CacheManager.map_get "k"
       (CacheManager.memoryCache (snd (CacheManager.get "k" 1006 c1))) = None.
Proof.
  apply (set_get_fresh_then_expired "k" (JStr "v") 1000 5 1006
           (CacheManager.new None None)); lia.
Defined.

(* ------------------------------------------------------------------ *)
(** *** Capacity and eviction order *)

Section Capacity.
Import CacheManager Stated.

Lemma cleanupExpired_size now c : size (cleanupExpired now c) <= size c.
Proof.
  unfold size, map_size, cleanupExpired. simpl.
  apply Nat2Z.inj_le, filter_length_le.
Qed.

Lemma evict_if_full_room c :
  1 <= maxSize c ->
  Forall (fun k => k <> EmptyString) (map_keys (memoryCache c)) ->
  size c <= maxSize c ->
  size (evict_if_full c) <= maxSize c - 1.
Proof.
  intros Hcap Hkeys Hsize. unfold evict_if_full, size, map_size in *.
  destruct (Z.of_nat (List.length (memoryCache c)) >=? maxSize c) eqn:Hfull.
  - destruct (memoryCache c) as [|[k e] m] eqn:Hm.
    + simpl. rewrite Hm. simpl. lia.
    + unfold map_keys in *. cbn [map fst] in *.
      inversion Hkeys as [|? ? Hk _]; subst.
      unfold truthy_string. destruct (k =? EmptyString)%string eqn:E.
      * apply String.eqb_eq in E. contradiction.
      * cbn [negb with_map memoryCache maxSize].
        pose proof (map_delete_head_length k e m) as Hlen.
        rewrite length_cons in Hsize. lia.
  - rewrite Z.geb_leb in Hfull. apply Z.leb_gt in Hfull. lia.
Qed.

Lemma evict_if_full_keys c :
  forall k, In k (map_keys (memoryCache (evict_if_full c))) ->
            In k (map_keys (memoryCache c)).
Proof.
  intros k. unfold evict_if_full.
  destruct (map_size (memoryCache c) >=? maxSize c); auto.
  destruct (map_keys (memoryCache c)) as [|firstKey ?] eqn:Hk.
  - now rewrite Hk.
  - destruct (truthy_string firstKey).
    + simpl. intros H. apply filter_keys_incl in H. now rewrite Hk in H.
    + now rewrite Hk.
Qed.

Lemma evict_if_full_maxSize c : maxSize (evict_if_full c) = maxSize c.
Proof.
  unfold evict_if_full.
  destruct (map_size (memoryCache c) >=? maxSize c); auto.
  destruct (map_keys (memoryCache c)); auto.
  destruct (truthy_string s); auto.
Qed.

Lemma step_maxSize c o : maxSize (step c o) = maxSize c.
Proof.
  destruct o; simpl; auto. now rewrite evict_if_full_maxSize.
Qed.

Lemma set_bounded key d ttl now c :
  1 <= maxSize c -> key <> EmptyString -> bounded c -> bounded (set key d ttl now c).
Proof.
  intros Hcap Hkey [Hsize Hkeys].
  assert (Hkeys1 : Forall (fun k => k <> EmptyString)
                     (map_keys (memoryCache (cleanupExpired now c)))).
  { apply Forall_forall. intros k Hk. apply filter_keys_incl in Hk.
    rewrite Forall_forall in Hkeys. auto. }
  pose proof (cleanupExpired_size now c) as Hs1.
  pose proof (evict_if_full_room (cleanupExpired now c) Hcap Hkeys1) as Hroom.
  simpl in Hroom. specialize (Hroom ltac:(lia)).
  split.
  - unfold set, size, map_size in *. simpl.
    rewrite evict_if_full_maxSize. simpl.
    pose proof (map_set_length key
                  {| data := d; timestamp := now;
                     ttl := match ttl with Some x => x | None => defaultTTL c end |}
                  (memoryCache (evict_if_full (cleanupExpired now c)))).
    lia.
  - unfold set. simpl. apply Forall_forall. intros k Hk.
    apply map_set_keys in Hk. destruct Hk as [->|Hk]; auto.
    apply evict_if_full_keys in Hk.
    rewrite Forall_forall in Hkeys1. auto.
Qed.

Lemma step_bounded c o :
  1 <= maxSize c -> nonempty_key o -> bounded c -> bounded (step c o).
Proof.
  intros Hcap Hkey Hb. destruct o as [key d ttl now|key|]; simpl in *.
  - now apply set_bounded.
  - destruct Hb as [Hsize Hkeys]. split.
    + unfold delete, size, map_size in *. simpl.
      pose proof (map_delete_length key (memoryCache c)). lia.
    + apply Forall_forall. intros k Hk. simpl in Hk.
      apply filter_keys_incl in Hk. rewrite Forall_forall in Hkeys. auto.
  - split; [unfold size, map_size; simpl; lia | constructor].
Qed.

(** With a capacity of at least one and no empty key, every run of
    [set] / [delete] / [clear] keeps the store within its capacity. *)
Lemma run_bounded ops :
  forall c, 1 <= maxSize c -> Forall nonempty_key ops -> bounded c ->
            bounded (run ops c) /\ maxSize (run ops c) = maxSize c.
Proof.
  induction ops as [|o ops IH]; intros c Hcap Hops Hb; simpl; auto.
  inversion Hops as [|? ? Ho Hrest]; subst.
  destruct (IH (step c o)) as [Hb' Hm'].
  - now rewrite step_maxSize.
  - assumption.
  - now apply step_bounded.
  - split; auto. now rewrite Hm', step_maxSize.
Qed.

Lemma entries_all_fresh now ttl kvs :
  0 <= ttl ->
  filter (fun kv => negb (expired now (snd kv))) (entries now ttl kvs)
  = entries now ttl kvs.
Proof.
  intros Httl. unfold entries. induction kvs as [|kv kvs IH]; simpl; auto.
  unfold expired at 1. simpl.
  replace (now - now >? ttl) with false
    by (symmetry; rewrite Z.gtb_ltb; apply Z.ltb_ge; lia).
  simpl. now rewrite IH.
Qed.

Lemma cleanup_entries now ttl kvs c :
  0 <= ttl -> memoryCache c = entries now ttl kvs ->
  memoryCache (cleanupExpired now c) = entries now ttl kvs.
Proof.
  intros Httl Hm. unfold cleanupExpired. simpl. rewrite Hm.
  now apply entries_all_fresh.
Qed.

Lemma entries_keys now ttl kvs : map_keys (entries now ttl kvs) = map fst kvs.
Proof. unfold map_keys, entries. rewrite map_map. reflexivity. Qed.

Lemma entries_length now ttl kvs :
  List.length (entries now ttl kvs) = List.length kvs.
Proof. unfold entries. apply length_map. Qed.

(** While there is room nothing is evicted: the map lists the inserted
    keys in insertion order. *)
Lemma inserts_below_capacity now ttl cap dflt kvs :
  0 <= ttl -> NoDup (map fst kvs) -> Z.of_nat (List.length kvs) <= cap ->
  run (inserts now ttl kvs) (new (Some cap) dflt)
  = with_map (new (Some cap) dflt) (entries now ttl kvs).
Proof.
  intros Httl. induction kvs as [|kv kvs IH] using rev_ind; intros Hnd Hlen.
  - reflexivity.
  - rewrite map_app in Hnd. rewrite length_app in Hlen. simpl in *.
    assert (Hnd' : NoDup (map fst kvs)) by (eapply NoDup_app_remove_r; eauto).
    assert (Hnew : ~ In (fst kv) (map fst kvs)).
    { intros Hin. apply NoDup_remove_2 in Hnd. rewrite app_nil_r in Hnd. auto. }
    unfold inserts, run in *. rewrite map_app, fold_left_app.
    rewrite IH by (auto; lia). simpl.
    unfold set.
    set (c0 := with_map (new (Some cap) dflt) (entries now ttl kvs)).
    assert (Hc1 : cleanupExpired now c0 = c0).
    { unfold cleanupExpired, c0. simpl.
      now rewrite entries_all_fresh. }
    rewrite Hc1.
    assert (Hc2 : evict_if_full c0 = c0).
    { unfold evict_if_full, map_size. simpl. rewrite entries_length.
      replace (Z.of_nat (List.length kvs) >=? cap) with false; auto.
      symmetry. rewrite Z.geb_leb. apply Z.leb_gt. lia. }
    rewrite Hc2. unfold with_map. simpl. f_equal.
    rewrite map_set_new_key by (now rewrite entries_keys).
    unfold entries. rewrite map_app. reflexivity.
Qed.

(** P2: inserting [capacity + 1] distinct non-empty keys, none of which
    expires meanwhile, into a store of capacity at least one leaves the
    keys after the first, in insertion order. *)
Lemma inserts_over_capacity now ttl cap dflt kv0 kvs kv :
  0 <= ttl -> 1 <= cap ->
  NoDup (map fst (kv0 :: kvs ++ [kv])) ->
  fst kv0 <> EmptyString ->
  Z.of_nat (List.length (kv0 :: kvs)) = cap ->
  memoryCache (run (inserts now ttl (kv0 :: kvs ++ [kv])) (new (Some cap) dflt))
  = entries now ttl (kvs ++ [kv]).
Proof.
  intros Httl Hcap Hnd Hk0 Hlen.
  change (kv0 :: kvs ++ [kv]) with ((kv0 :: kvs) ++ [kv]) in *.
  rewrite map_app in Hnd.
  assert (Hnd' : NoDup (map fst (kv0 :: kvs))) by (eapply NoDup_app_remove_r; eauto).
  assert (Hnew : ~ In (fst kv) (map fst (kv0 :: kvs))).
  { intros Hin. apply NoDup_remove_2 in Hnd. rewrite app_nil_r in Hnd. auto. }
  unfold inserts, run. rewrite map_app, fold_left_app.
  fold (inserts now ttl (kv0 :: kvs)). fold (run (inserts now ttl (kv0 :: kvs))).
  rewrite inserts_below_capacity by (auto; lia).
  set (c0 := with_map (new (Some cap) dflt) (entries now ttl (kv0 :: kvs))).
  cbn [map fold_left step]. unfold set.
  assert (Hc1 : cleanupExpired now c0 = c0).
  { unfold cleanupExpired, c0. cbn [with_map memoryCache maxSize defaultTTL].
    now rewrite entries_all_fresh. }
  rewrite Hc1.
  assert (Hc2 : memoryCache (evict_if_full c0) = entries now ttl kvs).
  { unfold evict_if_full, map_size.
    replace (Z.of_nat (List.length (memoryCache c0)) >=? maxSize c0) with true.
    - simpl. unfold truthy_string.
      destruct (fst kv0 =? EmptyString)%string eqn:E;
        [apply String.eqb_eq in E; contradiction|].
      simpl. unfold map_delete at 1. simpl. rewrite String.eqb_refl. simpl.
      apply map_delete_absent. rewrite entries_keys.
      simpl in Hnd'. now inversion Hnd'.
    - symmetry. rewrite Z.geb_leb. apply Z.leb_le.
      unfold c0. simpl. rewrite entries_length. simpl in *. lia. }
  simpl. rewrite Hc2.
  rewrite map_set_new_key.
  - unfold entries. rewrite map_app. reflexivity.
  - rewrite entries_keys. intros Hin. apply Hnew. simpl. now right.
Qed.

(** Scenario A: capacity 2, insert [a], [b], [c]: exactly [b] and [c]
    remain, in that order. *)
Example scenario_A :
  map_keys (memoryCache
              (run (inserts 0 1000 [("a", JNum 1); ("b", JNum 2); ("c", JNum 3)])
                   (new (Some 2) None)))
  = ["b"; "c"].
Proof. reflexivity. Qed.

End Capacity.

(** C5 (P2, capacity): the guard [if (firstKey)] of [set] skips the eviction
    when the oldest key is the empty string. With capacity 1, inserting the
    empty key and then the key ["a"] (none expired) leaves both in the store:
    the size exceeds the capacity and the first-inserted key is still
    present, where the bound and the FIFO eviction ask for ["a"] alone. *)
Theorem empty_first_key_is_never_evicted :
  let c := CacheManager.run
             [CacheManager.OpSet EmptyString (JNum 1) (Some 1000) 0;
              CacheManager.OpSet "a" (JNum 2) (Some 1000) 0]
             (CacheManager.new (Some 1) None) in
  CacheManager.maxSize c = 1
  /\ CacheManager.size c = 2
  /\ CacheManager.map_keys (CacheManager.memoryCache c) = [EmptyString; "a"]
  /\ CacheManager.get EmptyString 0 c = (JNum 1, c).
Proof. repeat split. Qed.

(* ================================================================== *)
(** ** Properties of the coordinator *)
(* ================================================================== *)

Section ReadThrough.
Import CacheManager NavigationCacheManager.

Lemma getGroupsWithSites_unfold f force now now' s :
  getGroupsWithSites f force now now' s = readThrough "groupsWithSites" f force now now' s.
Proof. reflexivity. Qed.

Lemma getSites_unfold f groupId force now now' s :
  getSites f groupId force now now' s = readThrough (sitesKey groupId) f force now now' s.
Proof. reflexivity. Qed.

Lemma getConfigs_unfold f force now now' s :
  getConfigs f force now now' s = readThrough "configs" f force now now' s.
Proof. reflexivity. Qed.

(** After a failed fetch the fallback is one more [get]. *)
Lemma readThrough_forced_failure cacheKey err now now' s :
  readThrough cacheKey (Throw err) true now now' s
  = let '(v, c) := get cacheKey now' (cache s) in
    if truthy v then (Normal v, with_cache (miss s) c)
    else (Throw err, with_cache (miss s) c).
Proof. reflexivity. Qed.

(** With a failing fetch, a value comes back exactly when the store holds
    an unexpired entry with a truthy value: unexpired at the first read
    without [forceRefresh], at the fallback read with it. *)
Lemma failed_fetch_returns_iff cacheKey err forceRefresh now now' s v :
  fst (readThrough cacheKey (Throw err) forceRefresh now now' s) = Normal v
  <-> exists e,
        map_get cacheKey (memoryCache (cache s)) = Some e
        /\ data e = v /\ truthy v = true
        /\ expired (if forceRefresh then now' else now) e = false.
Proof.
  unfold readThrough. destruct forceRefresh; simpl.
  - unfold get.
    destruct (map_get cacheKey (memoryCache (cache s))) as [e|] eqn:Hg.
    + destruct (expired now' e) eqn:He; simpl.
      * split; [discriminate|]. intros [e0 [[= <-] [_ [_ H]]]]. congruence.
      * destruct (truthy (data e)) eqn:Ht; simpl.
        -- split.
           ++ intros [= <-]. exists e. auto.
           ++ intros [e0 [[= <-] [<- _]]]. reflexivity.
        -- split; [discriminate|]. intros [e0 [[= <-] [<- [H _]]]]. congruence.
    + simpl. split; [discriminate|]. intros [e0 [H _]]. discriminate.
  - unfold get at 1.
    destruct (map_get cacheKey (memoryCache (cache s))) as [e|] eqn:Hg.
    + destruct (expired now e) eqn:He; simpl.
      * unfold get. simpl. rewrite map_get_delete_same. simpl.
        split; [discriminate|]. intros [e0 [[= <-] [_ [_ H]]]]. congruence.
      * destruct (truthy (data e)) eqn:Ht; simpl.
        -- split.
           ++ intros [= <-]. exists e. auto.
           ++ intros [e0 [[= <-] [<- _]]]. reflexivity.
        -- unfold get. simpl. rewrite Hg.
           destruct (expired now' e); simpl; rewrite ?Ht; simpl;
             (split; [discriminate|]; intros [e0 [[= <-] [<- [H _]]]]; congruence).
    + simpl. unfold get. simpl. rewrite Hg. simpl.
      split; [discriminate|]. intros [e0 [H _]]. discriminate.
Qed.

Lemma failed_fetch_cache cacheKey err forceRefresh now now' s e :
  map_get cacheKey (memoryCache (cache s)) = Some e ->
  expired now e = true -> now <= now' ->
  readThrough cacheKey (Throw err) forceRefresh now now' s
  = (Throw err, with_cache (miss s) (delete cacheKey (cache s))).
Proof.
  intros Hg He Hclock. unfold readThrough. destruct forceRefresh; simpl.
  - rewrite (get_expired _ _ _ _ Hg (expired_later _ _ _ He Hclock)). reflexivity.
  - rewrite (get_expired _ _ _ _ Hg He). simpl.
    rewrite get_absent by (simpl; apply map_get_delete_same). reflexivity.
Qed.

End ReadThrough.

(** C1 (P3, stale fallback), as the sources have it: when the store holds an
    entry for the key whose TTL has expired and the fetch function throws,
    the read-through operation (the body shared by [getGroupsWithSites],
    [getSites] and [getConfigs]) deletes the expired entry and propagates
    the fetch error. On a failed fetch a cached value is returned exactly
    when the store holds an entry for the key that has not expired (at the
    first read, or at the fallback read under [forceRefresh]) and whose
    value is truthy. *)
Theorem expired_entry_propagates_fetch_error :
  forall (cacheKey : string) (s : NavigationCacheManager.t)
         (e : CacheManager.CacheEntry) (err : JsError) (forceRefresh : bool)
         (now now' : Z),
    CacheManager.map_get cacheKey
      (CacheManager.memoryCache (NavigationCacheManager.cache s)) = Some e ->
    CacheManager.expired now e = true ->
    now <= now' ->
    let r := NavigationCacheManager.readThrough cacheKey (Throw err) forceRefresh
               now now' s in
    fst r = Throw err
    /\ CacheManager.map_get cacheKey
         (CacheManager.memoryCache (NavigationCacheManager.cache (snd r))) = None
    /\ (forall s0 force t t' v,
          fst (NavigationCacheManager.readThrough cacheKey (Throw err) force t t' s0)
          = Normal v
          <-> exists e0,
                CacheManager.map_get cacheKey
                  (CacheManager.memoryCache (NavigationCacheManager.cache s0)) = Some e0
                /\ CacheManager.data e0 = v /\ truthy v = true
                /\ CacheManager.expired (if force then t' else t) e0 = false).
Proof.
  intros cacheKey s e err forceRefresh now now' Hg He Hclock r.
  unfold r. rewrite (failed_fetch_cache _ _ _ _ _ _ _ Hg He Hclock). simpl.
  split; [reflexivity|]. split.
  - apply map_get_delete_same.
  - intros s0 force t t' v. apply failed_fetch_returns_iff.
Qed.

Lemma expired_entry_propagates_fetch_error_witness :
  let s := snd (NavigationCacheManager.getConfigs (Normal (JStr "v1")) false 0 0
                  (NavigationCacheManager.new 0)) in
  let r := NavigationCacheManager.getConfigs (Throw (Rejected (JStr "offline")))
             false 700000 700000 s in
  fst r = Throw (Rejected (JStr "offline"))
  /\ CacheManager.map_get "configs"
       (CacheManager.memoryCache (NavigationCacheManager.cache (snd r))) = None.
Proof.
  intros s r.
  destruct (expired_entry_propagates_fetch_error "configs" s
              {| CacheManager.data := JStr "v1"; CacheManager.timestamp := 0;
                 CacheManager.ttl := 600000 |}
              (Rejected (JStr "offline")) false 700000 700000
              eq_refl eq_refl ltac:(lia)) as [H1 [H2 _]].
  split; [exact H1 | exact H2].
Defined.

(** C1, counterexample to the statement as written: a first [getConfigs]
    fetches ["v1"] at time 0 and caches it with the TTL of ten minutes; at
    time 700000 the entry has expired and the fetch fails; [getConfigs]
    does not return ["v1"]. *)
Lemma stale_fallback_fails :
  ~ Stated.stale_fallback "configs" (Rejected (JStr "offline")) false 700000 700000
      (snd (NavigationCacheManager.getConfigs (Normal (JStr "v1")) false 0 0
              (NavigationCacheManager.new 0))).
Proof.
  intros H. specialize (H _ eq_refl eq_refl). discriminate H.
Qed.

Section Invalidate.
Import CacheManager NavigationCacheManager.

Lemma filter_filter {A} (f g : A -> bool) l :
  filter f (filter g l) = filter (fun x => g x && f x) l.
Proof.
  induction l as [|x l IH]; simpl; auto.
  destruct (g x); simpl; rewrite IH; reflexivity.
Qed.

Lemma fold_delete_cache ks :
  forall c,
    memoryCache (fold_left (fun c key => delete key c) ks c)
    = filter (fun kv => negb (existsb (String.eqb (fst kv)) ks)) (memoryCache c).
Proof.
  induction ks as [|k ks IH]; intros c; simpl.
  - now rewrite filter_true.
  - rewrite IH. simpl. unfold map_delete. rewrite filter_filter.
    apply filter_ext. intros [k' e]. simpl.
    now rewrite negb_orb.
Qed.

Lemma selected_among_keys (sel : string -> bool) (m : EntryMap) kv :
  In kv m ->
  existsb (String.eqb (fst kv)) (filter sel (map_keys m)) = sel (fst kv).
Proof.
  intros Hin. destruct (sel (fst kv)) eqn:Hs.
  - apply existsb_exists. exists (fst kv). split.
    + apply filter_In. split; auto. unfold map_keys. now apply in_map.
    + apply String.eqb_refl.
  - apply not_true_is_false. intros H. apply existsb_exists in H.
    destruct H as [k [Hk Heq]]. apply String.eqb_eq in Heq. subst k.
    apply filter_In in Hk. destruct Hk. congruence.
Qed.

(** What [invalidate] leaves in the map: the entries that are neither
    expired nor selected, in their order. *)
Lemma invalidate_cache type now s :
  type <> All ->
  memoryCache (cache (invalidate type now s))
  = filter (fun kv => negb (expired now (snd kv)) && negb (selects type (fst kv)))
           (memoryCache (cache s)).
Proof.
  intros Hty.
  assert (H : memoryCache (cache (invalidate type now s))
              = memoryCache
                  (fold_left (fun c key => delete key c)
                     (filter (selects type)
                             (map_keys (memoryCache (cleanupExpired now (cache s)))))
                     (cleanupExpired now (cache s)))).
  { destruct type; try reflexivity. contradiction. }
  rewrite H, fold_delete_cache. simpl. rewrite <- filter_filter.
  apply filter_ext_in. intros kv Hin.
  now rewrite selected_among_keys.
Qed.

End Invalidate.

(** C10 (scope of [invalidate]), as the sources have it: for a type other
    than ["all"], [invalidate] leaves exactly the entries that are unexpired
    and whose key does not contain the type's substring (["group"],
    ["site"], ["config"], case-sensitive), in their order. So every key
    containing the substring is gone, every unexpired key without it keeps
    its entry, every per-group key ["sites_group_<id>"] is selected by
    ["groups"], and ["groupsWithSites"] is selected by ["groups"] but not
    by ["sites"]. *)
Theorem invalidate_by_substring :
  forall (type : NavigationCacheManager.InvalidationType) (now : Z)
         (s : NavigationCacheManager.t),
    type <> NavigationCacheManager.All ->
    let after := CacheManager.memoryCache
                   (NavigationCacheManager.cache
                      (NavigationCacheManager.invalidate type now s)) in
    let before := CacheManager.memoryCache (NavigationCacheManager.cache s) in
    after = filter (fun kv => negb (CacheManager.expired now (snd kv))
                              && negb (NavigationCacheManager.selects type (fst kv)))
                   before
    /\ (forall key, NavigationCacheManager.selects type key = true ->
                    CacheManager.map_get key after = None)
    /\ (forall key e, NavigationCacheManager.selects type key = false ->
                      CacheManager.map_get key before = Some e ->
                      CacheManager.expired now e = false ->
                      CacheManager.map_get key after = Some e)
    /\ (forall id : string,
          NavigationCacheManager.selects NavigationCacheManager.Groups
            ("sites_group_" ++ id)%string = true)
    /\ NavigationCacheManager.selects NavigationCacheManager.Groups "groupsWithSites"
       = true
    /\ NavigationCacheManager.selects NavigationCacheManager.Sites "groupsWithSites"
       = false.
Proof.
  intros type now s Hty after before.
  assert (Hafter : after = filter (fun kv => negb (CacheManager.expired now (snd kv))
                              && negb (NavigationCacheManager.selects type (fst kv)))
                             before)
    by (now apply invalidate_cache).
  split; [exact Hafter|]. split; [|split; [|split; [|split]]].
  - intros key Hsel. rewrite Hafter. apply map_get_filter_drop.
    intros e. simpl. rewrite Hsel. apply andb_false_r.
  - intros key e Hsel Hg He. rewrite Hafter. apply map_get_filter_keep; auto.
    simpl. now rewrite Hsel, He.
  - intros id. reflexivity.
  - reflexivity.
  - reflexivity.
Qed.

Lemma invalidate_by_substring_witness :
  let s0 := NavigationCacheManager.new 0 in
  let s1 := snd (NavigationCacheManager.getGroupsWithSites (Normal (JArr [1; 2]))
                   false 0 0 s0) in
  let s2 := snd (NavigationCacheManager.getSites (Normal (JArr [3])) (Some 7)
                   false 0 0 s1) in
  let s := snd (NavigationCacheManager.getSites (Normal (JArr [3; 4])) None
                  false 0 0 s2) in
  CacheManager.map_keys (CacheManager.memoryCache (NavigationCacheManager.cache s))
  = ["groupsWithSites"; "sites_group_7"; "all_sites"]
  /\ CacheManager.map_keys
       (CacheManager.memoryCache
          (NavigationCacheManager.cache
             (NavigationCacheManager.invalidate NavigationCacheManager.Sites 5 s)))
     = ["groupsWithSites"]
  /\ CacheManager.map_keys
       (CacheManager.memoryCache
          (NavigationCacheManager.cache
             (NavigationCacheManager.invalidate NavigationCacheManager.Groups 5 s)))
     = ["all_sites"].
Proof.
  intros s0 s1 s2 s. split; [reflexivity|split].
  - destruct (invalidate_by_substring NavigationCacheManager.Sites 5 s
                ltac:(discriminate)) as [H _].
    rewrite H. reflexivity.
  - destruct (invalidate_by_substring NavigationCacheManager.Groups 5 s
                ltac:(discriminate)) as [H _].
    rewrite H. reflexivity.
Defined.

(** C10, counterexample to the frame as written: ["configs"], cached at
    time 0 by [getConfigs], does not contain ["site"], yet at time 700000
    its expired entry is removed by [invalidate("sites")], through the
    sweep of [keys()]. *)
Lemma invalidate_frame_fails :
  ~ Stated.invalidate_frame NavigationCacheManager.Sites 700000
      (snd (NavigationCacheManager.getConfigs (Normal (JStr "v1")) false 0 0
              (NavigationCacheManager.new 0))).
Proof.
  intros H. specialize (H "configs" eq_refl). discriminate H.
Qed.

(* ================================================================== *)
(** ** Properties of [Array.prototype.sort] as modelled *)
(* ================================================================== *)

Section BeforeFacts.
Import StatedSearch.
Context {A : Type}.

Lemma before_cons (a x y : A) l : before x y l -> before x y (a :: l).
Proof.
  intros [l1 [l2 [l3 ->]]]. exists (a :: l1), l2, l3. reflexivity.
Qed.

Lemma before_head (x y : A) l : In y l -> before x y (x :: l).
Proof.
  intros Hin. apply in_split in Hin. destruct Hin as [l2 [l3 ->]].
  exists [], l2, l3. reflexivity.
Qed.

Lemma before_inv (a x y : A) l :
  before x y (a :: l) -> (a = x /\ In y l) \/ before x y l.
Proof.
  intros [l1 [l2 [l3 H]]]. destruct l1 as [|b l1]; simpl in H.
  - injection H as -> ->. left. split; auto.
    apply in_or_app. right. now left.
  - injection H as -> ->. right. exists l1, l2, l3. reflexivity.
Qed.

Lemma before_app_l (x y : A) l l' : before x y l -> before x y (l' ++ l).
Proof.
  intros H. induction l' as [|a l' IH]; simpl; auto. now apply before_cons.
Qed.

Lemma before_In (x y : A) l : before x y l -> In x l /\ In y l.
Proof.
  intros [l1 [l2 [l3 ->]]]. split.
  - apply in_or_app. right. now left.
  - apply in_or_app. right. right. apply in_or_app. right. now left.
Qed.

Lemma In_In_before (x y : A) l :
  x <> y -> In x l -> In y l -> before x y l \/ before y x l.
Proof.
  intros Hne. induction l as [|a l IH]; simpl; [tauto|].
  intros [->|Hx] [->|Hy].
  - contradiction.
  - left. now apply before_head.
  - right. now apply before_head.
  - destruct (IH Hx Hy); [left|right]; now apply before_cons.
Qed.

End BeforeFacts.

Section SortFacts.
Import StatedSearch.
Context {A : Type} (cmp : A -> A -> Z).

Lemma insert_perm x l : Permutation (x :: l) (insert cmp x l).
Proof.
  induction l as [|y l IH]; simpl; auto.
  destruct (cmp x y <=? 0); auto.
  rewrite perm_swap. now apply perm_skip.
Qed.

Lemma sort_perm l : Permutation l (sort cmp l).
Proof.
  induction l as [|x l IH]; simpl; auto.
  rewrite <- insert_perm. now apply perm_skip.
Qed.

Lemma sort_In x l : In x (sort cmp l) <-> In x l.
Proof.
  split; apply Permutation_in; [symmetry|]; apply sort_perm.
Qed.

Lemma sort_length l : List.length (sort cmp l) = List.length l.
Proof. symmetry. apply Permutation_length, sort_perm. Qed.

Lemma insert_In x y l : In y (insert cmp x l) <-> y = x \/ In y l.
Proof.
  split.
  - intros H. apply (Permutation_in _ (Permutation_sym (insert_perm x l))) in H.
    destruct H; auto.
  - intros H. apply (Permutation_in _ (insert_perm x l)).
    destruct H; [left|right]; auto.
Qed.

(** Insertion keeps the relative order of the elements already there. *)
Lemma before_insert_other x y z l :
  before x y l -> before x y (insert cmp z l).
Proof.
  induction l as [|a l IH]; simpl; intros H.
  - destruct H as [l1 [l2 [l3 H]]]. destruct l1; discriminate.
  - destruct (cmp z a <=? 0).
    + now apply before_cons.
    + apply before_inv in H. destruct H as [[-> Hy]|H].
      * apply before_head. apply insert_In. now right.
      * apply before_cons. now apply IH.
Qed.

(** The inserted element stops in front of anything it does not
    compare greater than. *)
Lemma before_insert_new x y l :
  In y l -> cmp x y <= 0 -> before x y (insert cmp x l).
Proof.
  intros Hin Hle. induction l as [|a l IH]; simpl; [contradiction|].
  destruct (cmp x a <=? 0) eqn:E.
  - now apply before_head.
  - destruct Hin as [->|Hin].
    + apply Z.leb_gt in E. lia.
    + apply before_cons. now apply IH.
Qed.

(** Stability. *)
Lemma sort_stable x y l :
  before x y l -> cmp x y <= 0 -> before x y (sort cmp l).
Proof.
  intros H Hle. induction l as [|a l IH]; simpl.
  - destruct H as [l1 [l2 [l3 H]]]. destruct l1; discriminate.
  - apply before_inv in H. destruct H as [[-> Hy]|H].
    + apply before_insert_new; auto. now apply sort_In.
    + apply before_insert_other. now apply IH.
Qed.

Section Consistent.
Hypothesis Hcmp : consistent cmp.

Lemma insert_sorted x l :
  StronglySorted (fun a b => cmp a b <= 0) l ->
  StronglySorted (fun a b => cmp a b <= 0) (insert cmp x l).
Proof.
  induction 1 as [|a l Hs IH Hall]; simpl.
  - repeat constructor.
  - destruct (cmp x a <=? 0) eqn:E.
    + apply Z.leb_le in E. constructor.
      * now constructor.
      * constructor; auto.
        rewrite Forall_forall in *. intros b Hb. cbv beta.
        apply (cmp_trans cmp Hcmp x a b); [exact E | now apply Hall].
    + apply Z.leb_gt in E. constructor; auto.
      rewrite Forall_forall in *. intros b Hb. cbv beta.
      apply insert_In in Hb. destruct Hb as [->|Hb]; [|now apply Hall].
      destruct (cmp_total cmp Hcmp a x); [assumption | lia].
Qed.

Lemma sort_sorted l : StronglySorted (fun a b => cmp a b <= 0) (sort cmp l).
Proof.
  induction l as [|x l IH]; simpl; [constructor|].
  now apply insert_sorted.
Qed.

Lemma sorted_before x y l :
  StronglySorted (fun a b => cmp a b <= 0) l -> before x y l -> cmp x y <= 0.
Proof.
  intros Hs [l1 [l2 [l3 ->]]].
  induction l1 as [|a l1 IH]; simpl in Hs.
  - inversion Hs as [|? ? _ Hall]; subst.
    rewrite Forall_forall in Hall. apply Hall.
    apply in_or_app. right. now left.
  - inversion Hs; subst. auto.
Qed.

(** An element that compares strictly smaller ends in front, wherever
    it was. *)
Lemma sort_strict x y l :
  In x l -> In y l -> cmp x y < 0 -> before x y (sort cmp l).
Proof.
  intros Hx Hy Hlt.
  pose proof (cmp_strict cmp Hcmp x y Hlt) as Hgt.
  assert (Hne : x <> y) by (intros ->; lia).
  destruct (In_In_before x y (sort cmp l) Hne) as [H|H]; auto;
    try now apply sort_In.
  apply (sorted_before _ _ _ (sort_sorted l)) in H. lia.
Qed.

End Consistent.

End SortFacts.

(* ================================================================== *)
(** ** The comparators and the merge *)
(* ================================================================== *)

Section MergeFacts.
Import SmartSearchEngine StatedSearch.

Lemma compareMerged_consistent : consistent compareMerged.
Proof.
  split; unfold compareMerged.
  - intros a b. destruct (type a), (type b); simpl; lia.
  - intros a b c. destruct (type a), (type b), (type c); simpl; lia.
  - intros a b. destruct (type a), (type b); simpl; lia.
Qed.

Lemma compareRelevance_consistent : consistent compareRelevance.
Proof.
  split; unfold compareRelevance, compareMerged.
  - intros a b.
    destruct (Z.eqb_spec (scoreOrZero a) (scoreOrZero b)),
             (Z.eqb_spec (scoreOrZero b) (scoreOrZero a));
      destruct (type a), (type b); simpl; lia.
  - intros a b c.
    destruct (Z.eqb_spec (scoreOrZero a) (scoreOrZero b)),
             (Z.eqb_spec (scoreOrZero b) (scoreOrZero c)),
             (Z.eqb_spec (scoreOrZero a) (scoreOrZero c));
      destruct (type a), (type b), (type c); simpl; lia.
  - intros a b.
    destruct (Z.eqb_spec (scoreOrZero a) (scoreOrZero b)),
             (Z.eqb_spec (scoreOrZero b) (scoreOrZero a));
      destruct (type a), (type b); simpl; lia.
Qed.

Lemma compareRelevance_score a b :
  compareRelevance a b <= 0 -> scoreOrZero b <= scoreOrZero a.
Proof.
  unfold compareRelevance.
  destruct (Z.eqb_spec (scoreOrZero a) (scoreOrZero b)); simpl; lia.
Qed.

Lemma seen_spec i seen : existsb (Z.eqb i) seen = true <-> In i seen.
Proof.
  rewrite existsb_exists. split.
  - intros [j [Hj Heq]]. apply Z.eqb_eq in Heq. now subst.
  - intros H. exists i. split; auto. apply Z.eqb_refl.
Qed.

Lemma unseen_spec i seen : existsb (Z.eqb i) seen = false <-> ~ In i seen.
Proof.
  rewrite <- seen_spec. destruct (existsb (Z.eqb i) seen); intuition congruence.
Qed.

Lemma fold_pushUnseen items :
  forall seen results,
    fold_left pushUnseen items (seen, results)
    = (rev (map id (unseen seen items)) ++ seen, results ++ unseen seen items).
Proof.
  induction items as [|item items IH]; intros seen results; simpl.
  - now rewrite app_nil_r.
  - destruct (existsb (Z.eqb (id item)) seen) eqn:E.
    + apply IH.
    + rewrite IH. simpl. now rewrite <- !app_assoc.
Qed.

Lemma unseen_app l1 :
  forall seen l2,
    unseen seen (l1 ++ l2)
    = unseen seen l1 ++ unseen (rev (map id (unseen seen l1)) ++ seen) l2.
Proof.
  induction l1 as [|item l1 IH]; intros seen l2; simpl; auto.
  destruct (existsb (Z.eqb (id item)) seen) eqn:E.
  - apply IH.
  - simpl. rewrite IH. now rewrite <- !app_assoc.
Qed.

(** The merge is the sort of the first occurrences, by id, in the
    concatenation of the three passes. *)
Lemma mergeAndDeduplicate_spec basic smart semantic :
  mergeAndDeduplicate basic smart (Some semantic)
  = sort compareMerged (unseen [] (basic ++ smart ++ semantic)).
Proof.
  unfold mergeAndDeduplicate. rewrite !fold_pushUnseen. simpl.
  rewrite !unseen_app. rewrite !app_nil_r. now rewrite app_assoc.
Qed.

(** An item that survives is the first one with its id. *)
Lemma unseen_first r l :
  forall seen,
    In r (unseen seen l) ->
    exists l1 l2, l = l1 ++ r :: l2
                  /\ (forall y, In y l1 -> id y <> id r)
                  /\ ~ In (id r) seen.
Proof.
  induction l as [|item l IH]; intros seen; simpl; [contradiction|].
  destruct (existsb (Z.eqb (id item)) seen) eqn:E.
  - intros H. destruct (IH _ H) as [l1 [l2 [-> [Hl1 Hs]]]].
    exists (item :: l1), l2. repeat split; auto.
    intros y [<-|Hy]; auto.
    apply seen_spec in E. congruence.
  - intros [->|H].
    + exists [], l. repeat split; auto. now apply unseen_spec.
    + destruct (IH _ H) as [l1 [l2 [-> [Hl1 Hs]]]].
      exists (item :: l1), l2. simpl in Hs.
      split; [reflexivity|split].
      * intros y [<-|Hy]; auto.
      * tauto.
Qed.

Lemma unseen_keeps r l2 l1 :
  forall seen,
    (forall y, In y l1 -> id y <> id r) -> ~ In (id r) seen ->
    In r (unseen seen (l1 ++ r :: l2)).
Proof.
  induction l1 as [|item l1 IH]; intros seen Hl1 Hs; simpl.
  - apply unseen_spec in Hs. rewrite Hs. now left.
  - destruct (existsb (Z.eqb (id item)) seen).
    + apply IH; auto. intros y Hy. apply Hl1. now right.
    + right. apply IH.
      * intros y Hy. apply Hl1. now right.
      * simpl. intros [H|H]; auto. apply (Hl1 item); auto. now left.
Qed.

Lemma unseen_before x y l2 l3 l1 :
  forall seen,
    (forall z, In z l1 -> id z <> id x) -> ~ In (id x) seen ->
    (forall z, In z (l1 ++ x :: l2) -> id z <> id y) -> ~ In (id y) seen ->
    before x y (unseen seen (l1 ++ x :: l2 ++ y :: l3)).
Proof.
  induction l1 as [|item l1 IH]; intros seen Hx Hsx Hy Hsy; simpl.
  - apply unseen_spec in Hsx. rewrite Hsx. apply before_head.
    apply unseen_keeps.
    + intros z Hz. apply Hy. simpl. now right.
    + simpl. intros [H|H]; auto. apply (Hy x); auto. simpl. now left.
  - assert (Hx' : forall z, In z l1 -> id z <> id x)
      by (intros z Hz; apply Hx; now right).
    assert (Hy' : forall z, In z (l1 ++ x :: l2) -> id z <> id y)
      by (intros z Hz; apply Hy; simpl; now right).
    destruct (existsb (Z.eqb (id item)) seen).
    + now apply IH.
    + apply before_cons. apply IH; auto.
      * simpl. intros [H|H]; auto. apply (Hx item); auto. now left.
      * simpl. intros [H|H]; auto. apply (Hy item); auto. simpl. now left.
Qed.

End MergeFacts.

(* ================================================================== *)
(** ** Properties of [search] *)
(* ================================================================== *)

Section SearchFacts.
Import SmartSearchEngine StatedSearch.

Lemma search_arrays query groups sites now e :
  blank query = false ->
  search query (Some groups) (Some sites) now e
  = (Normal (sortByRelevance (allResults (toLowerCase (trim query)) groups sites)
                             (toLowerCase (trim query))),
     recordSearch query
       (Z.of_nat (List.length (allResults (toLowerCase (trim query)) groups sites)))
       now e).
Proof. intros Hb. unfold search. rewrite Hb. reflexivity. Qed.

Lemma search_blank query groups sites now e :
  blank query = true ->
  search query groups sites now e = (getPopularRecommendations groups sites, e).
Proof. intros Hb. unfold search. now rewrite Hb. Qed.

Lemma search_null_sites query groups now e :
  search query groups None now e
  = (Throw (TypeError "object is not iterable"), e).
Proof. unfold search. destruct (blank query); reflexivity. Qed.

Lemma search_null_groups query sites now e :
  blank query = false ->
  search query None sites now e
  = (Throw (TypeError "object is not iterable"), e).
Proof.
  intros Hb. unfold search. rewrite Hb. destruct sites; reflexivity.
Qed.

Lemma recordSearch_history query resultsCount now e :
  searchHistory (recordSearch query resultsCount now e)
  = firstn (maxHistoryItems e)
      ({| query := query; timestamp := now; resultsCount := resultsCount;
          selectedId := None |} :: searchHistory e).
Proof.
  unfold recordSearch. cbn [searchHistory].
  destruct (Nat.ltb_spec (maxHistoryItems e)
              (List.length ({| query := query; timestamp := now;
                               resultsCount := resultsCount;
                               selectedId := None |} :: searchHistory e))).
  - reflexivity.
  - symmetry. now apply firstn_all2.
Qed.

End SearchFacts.

(** C7 (history bound, Scenario C): recording a search leaves the [n] most
    recent entries, [n] being [maxHistoryItems] (100 in the class), so the
    history never exceeds the bound and the oldest entries go first; every
    [search] with array arguments either leaves the history alone (blank
    query) or records exactly one entry this way; with capacity 2,
    recording ["a"], ["b"], ["c"] in order leaves the entries of ["b"] and
    ["c"] and nothing else. *)
Theorem history_is_bounded :
  forall (query : string) (resultsCount now : Z) (e : SmartSearchEngine.t),
    let e' := SmartSearchEngine.recordSearch query resultsCount now e in
    (List.length (SmartSearchEngine.searchHistory e')
     <= SmartSearchEngine.maxHistoryItems e)%nat
    /\ SmartSearchEngine.maxHistoryItems e' = SmartSearchEngine.maxHistoryItems e
    /\ SmartSearchEngine.searchHistory e'
       = firstn (SmartSearchEngine.maxHistoryItems e)
           ({| SmartSearchEngine.query := query;
               SmartSearchEngine.timestamp := now;
               SmartSearchEngine.resultsCount := resultsCount;
               SmartSearchEngine.selectedId := None |}
            :: SmartSearchEngine.searchHistory e)
    /\ (forall h, SmartSearchEngine.maxHistoryItems (SmartSearchEngine.new h) = 100%nat)
    /\ (forall groups sites,
          snd (SmartSearchEngine.search query (Some groups) (Some sites) now e)
          = if SmartSearchEngine.blank query then e
            else SmartSearchEngine.recordSearch query
                   (Z.of_nat (List.length
                                (SmartSearchEngine.allResults
                                   (toLowerCase (trim query)) groups sites)))
                   now e)
    /\ (forall ca cb cc ta tb tc,
          map SmartSearchEngine.query
            (SmartSearchEngine.searchHistory
               (SmartSearchEngine.recordSearch "c" cc tc
                  (SmartSearchEngine.recordSearch "b" cb tb
                     (SmartSearchEngine.recordSearch "a" ca ta
                        {| SmartSearchEngine.searchHistory := [];
                           SmartSearchEngine.maxHistoryItems := 2 |}))))
          = ["c"; "b"]).
Proof.
  intros query resultsCount now e e'. unfold e'.
  repeat split.
  - rewrite recordSearch_history. apply firstn_le_length.
  - apply recordSearch_history.
  - intros groups sites. destruct (SmartSearchEngine.blank query) eqn:Hb.
    + now rewrite search_blank.
    + now rewrite search_arrays.
Qed.

(** C8 (error policy), as the sources have it: with array arguments,
    empty or not, [search] returns a list for every query; a [null] sites
    argument makes it throw a [TypeError] for every query, and a [null]
    groups argument makes it throw unless the query is blank, in which case
    the groups are not read. The history is unchanged when it throws. *)
Theorem search_total_on_arrays_only :
  forall (query : string) (now : Z) (e : SmartSearchEngine.t),
    (forall groups sites,
        exists results,
          fst (SmartSearchEngine.search query (Some groups) (Some sites) now e)
          = Normal results)
    /\ (forall groups,
          SmartSearchEngine.search query groups None now e
          = (Throw (TypeError "object is not iterable"), e))
    /\ (forall sites,
          SmartSearchEngine.search query None (Some sites) now e
          = if SmartSearchEngine.blank query
            then SmartSearchEngine.search query (Some []) (Some sites) now e
            else (Throw (TypeError "object is not iterable"), e)).
Proof.
  intros query now e. repeat split.
  - intros groups sites. destruct (SmartSearchEngine.blank query) eqn:Hb.
    + rewrite search_blank by assumption. eexists. reflexivity.
    + rewrite search_arrays by assumption. eexists. reflexivity.
  - intros groups. apply search_null_sites.
  - intros sites. destruct (SmartSearchEngine.blank query) eqn:Hb.
    + now rewrite !search_blank.
    + now apply search_null_groups.
Qed.

(** C8, counterexample to the statement as written: [search("git", null,
    [])] throws instead of returning the (empty) result of the empty
    collections. *)
Lemma null_is_empty_fails :
  ~ StatedSearch.null_is_empty "git" None (Some []).
Proof.
  intros H. destruct (H 0 (SmartSearchEngine.new [])) as [results [H1 _]].
  discriminate H1.
Qed.

(* ------------------------------------------------------------------ *)
(** *** The text of the semantic pass *)

Section SemanticFacts.
Import SmartSearchEngine StatedSearch.

Lemma append_assoc (a b c : string) : ((a ++ b) ++ c = a ++ (b ++ c))%string.
Proof. induction a as [|x a IH]; simpl; congruence. Qed.

Lemma toLowerCase_app a b :
  toLowerCase (a ++ b) = (toLowerCase a ++ toLowerCase b)%string.
Proof. induction a as [|x a IH]; simpl; congruence. Qed.

Lemma includes_app_r s t sub :
  includes t sub = true -> includes (s ++ t) sub = true.
Proof.
  intros H. induction s as [|x s IH]; simpl; auto.
  rewrite IH. apply orb_true_r.
Qed.

(** Whatever precedes and follows, [" undefined "] leaves the word
    ["undefined"] among the pieces of the split. *)
Lemma split_from_undefined a b :
  forall cur in_run,
    In "undefined" (split_from cur in_run (a ++ " undefined " ++ b)).
Proof.
  induction a as [|c a IH]; intros cur in_run.
  - destruct in_run; simpl; auto.
  - simpl. destruct (is_space c); [destruct in_run|]; simpl; auto.
Qed.

Lemma siteText_undefined s :
  Site.description s = None \/ Site.notes s = None ->
  exists a b, siteText s = (a ++ " undefined " ++ b)%string.
Proof.
  unfold siteText. intros [H|H]; rewrite H; simpl interpolate.
  - exists (toLowerCase (Site.name s)),
           (toLowerCase (interpolate (Site.notes s) ++ " " ++ Site.url s)).
    rewrite toLowerCase_app. reflexivity.
  - exists (toLowerCase (Site.name s ++ " " ++ interpolate (Site.description s))),
           (toLowerCase (Site.url s)).
    rewrite !toLowerCase_app. simpl. rewrite !append_assoc. reflexivity.
Qed.

Lemma fuzzy_bonus_ge term words :
  forall score,
    score <= fold_left (fun sc word => if similar term word then sc + 5 else sc)
                       words score.
Proof.
  induction words as [|w words IH]; intros score; simpl; [lia|].
  destruct (similar term w).
  - specialize (IH (score + 5)). lia.
  - apply IH.
Qed.

Lemma semanticScoreOf_includes text term :
  includes text term = true -> 10 <= semanticScoreOf text [term].
Proof.
  intros H. unfold semanticScoreOf. simpl. rewrite H.
  apply fuzzy_bonus_ge.
Qed.

Lemma semanticMatch_positive terms item :
  0 < semanticScoreOf (itemText item) terms ->
  semanticMatch terms item
  = [resultOf item ["semantic"] (Some (semanticScoreOf (itemText item) terms))].
Proof.
  intros H. unfold semanticMatch.
  replace (semanticScoreOf (itemText item) terms >? 0) with true; auto.
  symmetry. apply Z.gtb_lt. lia.
Qed.

End SemanticFacts.

(** C9 (absent fields in the semantic pass): for every site whose
    description or notes is absent, the combined text of the semantic pass
    contains [" undefined "], so ["undefined"] is one of its words and a
    substring of it; for the query ["undefined"] the pass then gives the
    site a score of at least 10 and lists it, whatever the collections that
    contain it. For the site GitHub (no description, no notes) no real
    field contains the query, pass 1 does not match, and [search] returns
    the site with [semanticScore] 20. *)
Theorem absent_field_reads_undefined :
  forall s : Site.t,
    Site.description s = None \/ Site.notes s = None ->
    In "undefined" (split_ws (SmartSearchEngine.siteText s))
    /\ includes (SmartSearchEngine.siteText s) "undefined" = true
    /\ (forall groups sites,
          In s sites ->
          exists score,
            10 <= score
            /\ In (SmartSearchEngine.resultOf (SmartSearchEngine.ISite s)
                     ["semantic"] (Some score))
                  (SmartSearchEngine.performSemanticSearch_arrays "undefined"
                     groups sites))
    /\ (let gh := {| Site.id := 1; Site.group_id := 1; Site.name := "GitHub";
                     Site.url := "https://github.com"; Site.description := None;
                     Site.notes := None; Site.created_at := None |} in
        SmartSearchEngine.matchesQuery (SmartSearchEngine.ISite gh) "undefined"
        = false
        /\ SmartSearchEngine.getMatchingFields (SmartSearchEngine.ISite gh)
             "undefined" = []
        /\ forall now e,
             fst (SmartSearchEngine.search "undefined" (Some []) (Some [gh]) now e)
             = Normal [SmartSearchEngine.resultOf (SmartSearchEngine.ISite gh)
                         ["semantic"] (Some 20)]).
Proof.
  intros s Habsent.
  destruct (siteText_undefined s Habsent) as [a [b Htext]].
  assert (Hinc : includes (SmartSearchEngine.siteText s) "undefined" = true).
  { rewrite Htext. apply includes_app_r. reflexivity. }
  split; [|split; [exact Hinc|split]].
  - rewrite Htext. apply split_from_undefined.
  - intros groups sites Hin.
    exists (SmartSearchEngine.semanticScoreOf (SmartSearchEngine.siteText s)
              ["undefined"]).
    pose proof (semanticScoreOf_includes _ _ Hinc) as Hscore.
    split; [exact Hscore|].
    unfold SmartSearchEngine.performSemanticSearch_arrays.
    apply in_or_app. left. apply in_flat_map.
    exists (SmartSearchEngine.ISite s). split; [now apply in_map|].
    change (SmartSearchEngine.queryTermsOf "undefined") with ["undefined"].
    rewrite semanticMatch_positive by (simpl; lia).
    now left.
  - repeat split.
Qed.

Lemma absent_field_reads_undefined_witness :
  let gh := {| Site.id := 1; Site.group_id := 1; Site.name := "GitHub";
               Site.url := "https://github.com"; Site.description := None;
               Site.notes := None; Site.created_at := None |} in
  In "undefined" (split_ws (SmartSearchEngine.siteText gh))
  /\ includes (SmartSearchEngine.siteText gh) "undefined" = true.
Proof.
  intros gh.
  destruct (absent_field_reads_undefined gh (or_introl eq_refl)) as [H1 [H2 _]].
  split; [exact H1 | exact H2].
Defined.

(* ------------------------------------------------------------------ *)
(** *** What the merge keeps, and where the final sort puts it *)

Section RankingFacts.
Import SmartSearchEngine StatedSearch.

Lemma before_asym {A} (x y : A) l :
  NoDup l -> before x y l -> before y x l -> False.
Proof.
  induction l as [|a l IH]; intros Hnd Hxy Hyx.
  - destruct Hxy as [l1 [l2 [l3 H]]]. destruct l1; discriminate.
  - inversion Hnd as [|? ? Ha Hl]; subst.
    apply before_inv in Hxy. apply before_inv in Hyx.
    destruct Hxy as [[-> Hy]|Hxy], Hyx as [[E Hx]|Hyx]; subst; auto.
    + apply before_In in Hyx. tauto.
    + apply before_In in Hxy. tauto.
Qed.

Lemma same_id_same_item (l : list SearchResultItem) x y :
  NoDup (map id l) -> In x l -> In y l -> id x = id y -> x = y.
Proof.
  induction l as [|a l IH]; simpl; [contradiction|].
  intros Hnd Hx Hy Hid. inversion Hnd as [|? ? Ha Hl]; subst.
  destruct Hx as [->|Hx], Hy as [->|Hy]; auto.
  - exfalso. apply Ha. rewrite Hid. now apply in_map.
  - exfalso. apply Ha. rewrite <- Hid. now apply in_map.
Qed.

Lemma unseen_NoDup l : forall seen, NoDup (map id (unseen seen l)).
Proof.
  induction l as [|item l IH]; intros seen; simpl; [constructor|].
  destruct (existsb (Z.eqb (id item)) seen); auto.
  simpl. constructor; auto.
  intros Hin. apply in_map_iff in Hin. destruct Hin as [r [Hid Hr]].
  apply unseen_first in Hr. destruct Hr as [_ [_ [_ [_ Hs]]]].
  apply Hs. rewrite Hid. now left.
Qed.

Lemma unseen_covers b l :
  forall seen,
    In b l -> ~ In (id b) seen ->
    exists r, In r (unseen seen l) /\ id r = id b.
Proof.
  induction l as [|item l IH]; intros seen; simpl; [contradiction|].
  intros Hb Hs. destruct (existsb (Z.eqb (id item)) seen) eqn:E.
  - destruct Hb as [->|Hb]; auto.
    apply seen_spec in E. contradiction.
  - destruct Hb as [->|Hb].
    + exists b. split; auto. now left.
    + destruct (Z.eq_dec (id item) (id b)) as [Heq|Hne].
      * exists item. split; auto. now left.
      * destruct (IH (id item :: seen) Hb) as [r [Hr Hid]].
        -- simpl. tauto.
        -- exists r. split; auto. now right.
Qed.

Lemma basicMatch_result query item r :
  In r (basicMatch query item) ->
  r = resultOf item (getMatchingFields item query) None.
Proof.
  unfold basicMatch. destruct (matchesQuery item query); simpl; [|contradiction].
  intros [<-|[]]. reflexivity.
Qed.

Lemma basic_no_score query groups sites r :
  In r (performBasicSearch_arrays query groups sites) -> semanticScore r = None.
Proof.
  unfold performBasicSearch_arrays. intros H.
  apply in_app_or in H.
  destruct H as [H|H]; apply in_flat_map in H; destruct H as [item [_ H]];
    apply basicMatch_result in H; subst r; destruct item; reflexivity.
Qed.

Lemma basic_sites_ids query sites r :
  In r (flat_map (basicMatch query) (map ISite sites)) ->
  In (id r) (map Site.id sites).
Proof.
  intros H. apply in_flat_map in H. destruct H as [item [Hitem H]].
  apply in_map_iff in Hitem. destruct Hitem as [s [<- Hs]].
  apply basicMatch_result in H. subst r. simpl. now apply in_map.
Qed.

Lemma basicMatch_site query s :
  matchesQuery (ISite s) query = true ->
  basicMatch query (ISite s) = [siteResult query s].
Proof. intros H. unfold basicMatch. now rewrite H. Qed.

(** The returned list: two stable sorts over the first occurrences, by
    id, in the three passes. *)
Lemma finalResults_spec query groups sites :
  finalResults query groups sites
  = sort compareRelevance
      (sort compareMerged
         (unseen []
            (performBasicSearch_arrays query groups sites
             ++ performSmartSearch_arrays query groups sites
             ++ performSemanticSearch_arrays query groups sites))).
Proof.
  unfold finalResults, sortByRelevance, allResults.
  now rewrite mergeAndDeduplicate_spec.
Qed.

Lemma finalResults_In query groups sites r :
  In r (finalResults query groups sites)
  <-> In r (unseen []
              (performBasicSearch_arrays query groups sites
               ++ performSmartSearch_arrays query groups sites
               ++ performSemanticSearch_arrays query groups sites)).
Proof. rewrite finalResults_spec, !sort_In. reflexivity. Qed.

Lemma finalResults_NoDup query groups sites :
  NoDup (map id (finalResults query groups sites)).
Proof.
  rewrite finalResults_spec.
  match goal with
  | |- context [unseen [] ?all] => pose proof (unseen_NoDup all []) as H
  end.
  eapply Permutation_NoDup; [|exact H].
  apply Permutation_map.
  eapply Permutation_trans; apply sort_perm.
Qed.

Lemma finalResults_sorted query groups sites x y :
  before x y (finalResults query groups sites) ->
  scoreOrZero y <= scoreOrZero x.
Proof.
  rewrite finalResults_spec. intros H.
  apply compareRelevance_score.
  eapply sorted_before; eauto using compareRelevance_consistent, sort_sorted.
Qed.

Lemma compareMerged_sites (x y : SearchResultItem) :
  type x = site -> type y = site ->
  compareMerged x y
  = Z.of_nat (List.length (matchedFields y)) - Z.of_nat (List.length (matchedFields x)).
Proof. intros Hx Hy. unfold compareMerged. now rewrite Hx, Hy. Qed.

Lemma compareRelevance_unscored (x y : SearchResultItem) :
  semanticScore x = None -> semanticScore y = None ->
  compareRelevance x y = compareMerged x y.
Proof.
  intros Hx Hy. unfold compareRelevance, scoreOrZero. now rewrite Hx, Hy.
Qed.

Lemma NoDup_ids_split (sites1 sites2 : list Site.t) s :
  NoDup (map Site.id (sites1 ++ s :: sites2)) ->
  ~ In (Site.id s) (map Site.id sites1).
Proof.
  rewrite map_app. simpl. intros H Hin.
  apply NoDup_remove_2 in H. apply H. apply in_or_app. now left.
Qed.

(** Two sites that pass 1 matches, in a collection without repeated site
    ids: the one with more matched fields comes first and, at equal
    counts, the one that comes first in the collection. *)
Lemma matched_sites_order query groups sites x y :
  NoDup (map Site.id sites) ->
  In x sites -> In y sites ->
  matchesQuery (ISite x) query = true ->
  matchesQuery (ISite y) query = true ->
  (List.length (getMatchingFields (ISite y) query)
   < List.length (getMatchingFields (ISite x) query))%nat
  \/ ((List.length (getMatchingFields (ISite y) query)
       <= List.length (getMatchingFields (ISite x) query))%nat
      /\ before x y sites) ->
  before (siteResult query x) (siteResult query y)
         (finalResults query groups sites).
Proof.
  intros Hnd Hx Hy Hmx Hmy Hcond.
  rewrite finalResults_spec.
  set (smart := performSmartSearch_arrays query groups sites).
  set (sem := performSemanticSearch_arrays query groups sites).
  set (F := flat_map (basicMatch query)).
  assert (Hkeep : forall s, In s sites -> matchesQuery (ISite s) query = true ->
            In (siteResult query s)
               (unseen [] (performBasicSearch_arrays query groups sites
                           ++ smart ++ sem))).
  { intros s Hs Hm. apply in_split in Hs. destruct Hs as [s1 [s2 Hsplit]].
    unfold performBasicSearch_arrays. rewrite Hsplit, map_app, flat_map_app.
    simpl. rewrite (basicMatch_site _ _ Hm). simpl.
    rewrite <- !app_assoc. simpl.
    apply unseen_keeps; [|simpl; tauto].
    intros r Hr. apply basic_sites_ids in Hr.
    rewrite Hsplit in Hnd. apply NoDup_ids_split in Hnd.
    simpl. congruence. }
  assert (Hcm : compareMerged (siteResult query x) (siteResult query y)
                = Z.of_nat (List.length (getMatchingFields (ISite y) query))
                  - Z.of_nat (List.length (getMatchingFields (ISite x) query))).
  { rewrite compareMerged_sites; reflexivity. }
  assert (Hcr : compareRelevance (siteResult query x) (siteResult query y)
                = Z.of_nat (List.length (getMatchingFields (ISite y) query))
                  - Z.of_nat (List.length (getMatchingFields (ISite x) query))).
  { rewrite compareRelevance_unscored; auto. }
  destruct Hcond as [Hlt|[Hle Hbefore]].
  - apply sort_strict.
    + apply compareRelevance_consistent.
    + apply sort_In. now apply Hkeep.
    + apply sort_In. now apply Hkeep.
    + rewrite Hcr. lia.
  - apply sort_stable; [|rewrite Hcr; lia].
    apply sort_stable; [|rewrite Hcm; lia].
    destruct Hbefore as [s1 [s2 [s3 Hsplit]]].
    unfold performBasicSearch_arrays.
    rewrite Hsplit, map_app, flat_map_app. simpl.
    rewrite (basicMatch_site _ _ Hmx). simpl.
    rewrite map_app, flat_map_app. simpl.
    rewrite (basicMatch_site _ _ Hmy). simpl.
    rewrite <- !app_assoc. simpl. rewrite <- !app_assoc. simpl.
    apply unseen_before; try (simpl; tauto).
    + intros r Hr. apply basic_sites_ids in Hr.
      rewrite Hsplit in Hnd. apply NoDup_ids_split in Hnd.
      simpl. congruence.
    + intros r Hr.
      assert (Hin : In (id r) (map Site.id (s1 ++ x :: s2))).
      { rewrite map_app. apply in_app_or in Hr. apply in_or_app.
        destruct Hr as [Hr|[<-|Hr]].
        - left. now apply basic_sites_ids in Hr.
        - right. now left.
        - right. right. now apply basic_sites_ids in Hr. }
      rewrite Hsplit in Hnd.
      change (s1 ++ x :: s2 ++ y :: s3) with (s1 ++ (x :: s2) ++ y :: s3) in Hnd.
      rewrite app_assoc in Hnd. apply NoDup_ids_split in Hnd.
      simpl. congruence.
Qed.

End RankingFacts.

Section ScoreFacts.
Import SmartSearchEngine StatedSearch.

Lemma smart_no_score query groups sites r :
  In r (performSmartSearch_arrays query groups sites) -> semanticScore r = None.
Proof.
  unfold performSmartSearch_arrays. intros H.
  apply in_map_iff in H. destruct H as [[item score] [<- _]].
  destruct item; reflexivity.
Qed.

(** An entry that carries a score in the returned list comes from pass 3
    and shares its id with no entry of passes 1 and 2. *)
Lemma scored_entry_is_semantic_only query groups sites r :
  In r (finalResults query groups sites) ->
  semanticScore r <> None ->
  In r (performSemanticSearch_arrays query groups sites)
  /\ forall b, In b (performBasicSearch_arrays query groups sites
                     ++ performSmartSearch_arrays query groups sites) ->
               id b <> id r.
Proof.
  intros Hr Hscore. apply finalResults_In in Hr.
  apply unseen_first in Hr. destruct Hr as [l1 [l2 [Heq [Hfirst _]]]].
  rewrite app_assoc in Heq.
  assert (Hunscored : forall b,
             In b (performBasicSearch_arrays query groups sites
                   ++ performSmartSearch_arrays query groups sites) ->
             semanticScore b = None).
  { intros b Hb. apply in_app_or in Hb.
    destruct Hb; eauto using basic_no_score, smart_no_score. }
  apply app_eq_app in Heq. destruct Heq as [l [[H1 H2]|[H1 H2]]].
  - destruct l as [|x l]; simpl in H2.
    + rewrite app_nil_r in H1. rewrite H1. split.
      * rewrite <- H2. now left.
      * intros b Hb. auto.
    + injection H2 as <- _. exfalso. apply Hscore, Hunscored.
      rewrite H1. apply in_or_app. right. now left.
  - split.
    + rewrite H2. apply in_or_app. right. now left.
    + intros b Hb. apply Hfirst. rewrite H1. apply in_or_app. now left.
Qed.

End ScoreFacts.

(** C2 (merge identity): the seen-set of [mergeAndDeduplicate] holds ids
    alone, so the returned list never has two entries with the same id,
    whatever their kinds. A group and a site that share the id 1 and both
    match ["abc"] are found by pass 1, and [search] returns the site alone:
    the group, a different record, is dropped as a duplicate. *)
Theorem same_id_group_is_dropped :
  (forall query groups sites,
      NoDup (map SmartSearchEngine.id (StatedSearch.finalResults query groups sites)))
  /\ (let g := {| Group.id := 1; Group.name := "abc" |} in
      let s := {| Site.id := 1; Site.group_id := 5; Site.name := "abc";
                  Site.url := "https://abc.example"; Site.description := None;
                  Site.notes := None; Site.created_at := None |} in
      SmartSearchEngine.matchesQuery (SmartSearchEngine.IGroup g) "abc" = true
      /\ SmartSearchEngine.matchesQuery (SmartSearchEngine.ISite s) "abc" = true
      /\ SmartSearchEngine.performBasicSearch_arrays "abc" [g] [s]
         = [StatedSearch.siteResult "abc" s; StatedSearch.groupResult "abc" g]
      /\ fst (SmartSearchEngine.search "abc" (Some [g]) (Some [s]) 0
                (SmartSearchEngine.new []))
         = Normal [StatedSearch.siteResult "abc" s]).
Proof.
  split.
  - apply finalResults_NoDup.
  - repeat split.
Qed.

(** C3 (merge and final sort), as the sources have it: for every query that
    is not blank, a record matched by pass 1, with no earlier entry of
    pass 1 under the same id, is represented in the returned list by
    exactly one entry of its kind and id; that entry has the matched fields
    of pass 1 and no [semanticScore], whatever pass 3 computes for the
    record. An entry carries a [semanticScore] only if it comes from pass 3
    and neither pass 1 nor pass 2 has an entry for the same record, kind
    and id. The returned list is ordered by descending [semanticScore], an
    absent score counting as 0. *)
Theorem first_pass_entry_wins :
  forall (query : string) (groups : list Group.t) (sites : list Site.t)
         (now : Z) (e : SmartSearchEngine.t),
    SmartSearchEngine.blank query = false ->
    let q := toLowerCase (trim query) in
    exists results,
      fst (SmartSearchEngine.search query (Some groups) (Some sites) now e)
      = Normal results
      /\ (forall b earlier later,
            SmartSearchEngine.performBasicSearch_arrays q groups sites
            = earlier ++ b :: later ->
            (forall b', In b' earlier ->
                        SmartSearchEngine.id b' <> SmartSearchEngine.id b) ->
            exists r,
              In r results
              /\ SmartSearchEngine.type r = SmartSearchEngine.type b
              /\ SmartSearchEngine.id r = SmartSearchEngine.id b
              /\ SmartSearchEngine.matchedFields r = SmartSearchEngine.matchedFields b
              /\ SmartSearchEngine.semanticScore r = None
              /\ forall r', In r' results ->
                            SmartSearchEngine.type r' = SmartSearchEngine.type b ->
                            SmartSearchEngine.id r' = SmartSearchEngine.id b ->
                            r' = r)
      /\ (forall r,
            In r results ->
            SmartSearchEngine.semanticScore r <> None ->
            In r (SmartSearchEngine.performSemanticSearch_arrays q groups sites)
            /\ forall b,
                 In b (SmartSearchEngine.performBasicSearch_arrays q groups sites
                       ++ SmartSearchEngine.performSmartSearch_arrays q groups sites) ->
                 ~ (SmartSearchEngine.type b = SmartSearchEngine.type r
                    /\ SmartSearchEngine.id b = SmartSearchEngine.id r))
      /\ (forall x y,
            StatedSearch.before x y results ->
            SmartSearchEngine.scoreOrZero y <= SmartSearchEngine.scoreOrZero x).
Proof.
  intros query groups sites now e Hb q.
  exists (StatedSearch.finalResults q groups sites).
  split; [now rewrite search_arrays|]. split; [|split].
  - intros b earlier later Hsplit Hfirst.
    assert (Hin : In b (StatedSearch.finalResults q groups sites)).
    { apply finalResults_In. rewrite Hsplit, <- app_assoc.
      change ((b :: later)
              ++ SmartSearchEngine.performSmartSearch_arrays q groups sites
              ++ SmartSearchEngine.performSemanticSearch_arrays q groups sites)
        with (b :: later
              ++ SmartSearchEngine.performSmartSearch_arrays q groups sites
              ++ SmartSearchEngine.performSemanticSearch_arrays q groups sites).
      apply unseen_keeps; [exact Hfirst | simpl; tauto]. }
    exists b. repeat split; auto.
    + apply (basic_no_score q groups sites).
      rewrite Hsplit. apply in_or_app. right. now left.
    + intros r' Hr' _ Hid'.
      apply (same_id_same_item _ _ _ (finalResults_NoDup q groups sites)); auto.
  - intros r Hr Hscore.
    destruct (scored_entry_is_semantic_only q groups sites r Hr Hscore)
      as [Hsem Hids].
    split; [exact Hsem|]. intros b Hin [_ Hid]. now apply (Hids b Hin).
  - apply finalResults_sorted.
Qed.

Lemma first_pass_entry_wins_witness :
  exists results,
    fst (SmartSearchEngine.search "abc"
           (Some [{| Group.id := 2; Group.name := "abc" |}])
           (Some [{| Site.id := 1; Site.group_id := 2; Site.name := "abc";
                     Site.url := "u"; Site.description := None;
                     Site.notes := None; Site.created_at := None |}])
           0 (SmartSearchEngine.new []))
    = Normal results
    /\ (exists r,
          In r results
          /\ SmartSearchEngine.type r = SmartSearchEngine.group
          /\ SmartSearchEngine.id r = 2
          /\ SmartSearchEngine.matchedFields r = ["name"]
          /\ SmartSearchEngine.semanticScore r = None)
    /\ forall x y,
         StatedSearch.before x y results ->
         SmartSearchEngine.scoreOrZero y <= SmartSearchEngine.scoreOrZero x.
Proof.
  set (g := {| Group.id := 2; Group.name := "abc" |}).
  set (s := {| Site.id := 1; Site.group_id := 2; Site.name := "abc";
               Site.url := "u"; Site.description := None;
               Site.notes := None; Site.created_at := None |}).
  destruct (first_pass_entry_wins "abc" [g] [s] 0 (SmartSearchEngine.new []) eq_refl)
    as [results [H1 [H2 [_ H3]]]].
  exists results. split; [exact H1|]. split; [|exact H3].
  destruct (H2 (StatedSearch.groupResult "abc" g)
               [StatedSearch.siteResult "abc" s] [] eq_refl)
    as [r [Hr [Ht [Hi [Hf [Hs _]]]]]].
  - intros b' [<-|[]]. simpl. discriminate.
  - exists r. repeat split; assumption.
Defined.

(** C3, counterexample to the statement as written: the site ["abc"] is
    matched by pass 1 for the query ["abc"] and pass 3 gives it the score
    15, yet no entry of the returned list carries that score. *)
Lemma merged_carries_semantic_score_fails :
  ~ StatedSearch.merged_carries_semantic_score "abc" []
      [{| Site.id := 1; Site.group_id := 1; Site.name := "abc";
          Site.url := "u"; Site.description := None;
          Site.notes := None; Site.created_at := None |}].
Proof.
  intros H.
  set (s := {| Site.id := 1; Site.group_id := 1; Site.name := "abc";
               Site.url := "u"; Site.description := None;
               Site.notes := None; Site.created_at := None |}) in *.
  destruct (H (StatedSearch.siteResult "abc" s)
              (SmartSearchEngine.resultOf (SmartSearchEngine.ISite s)
                 ["semantic"] (Some 15))
              [StatedSearch.siteResult "abc" s] 0 (SmartSearchEngine.new [])
              (or_introl eq_refl) (or_introl eq_refl) eq_refl eq_refl eq_refl)
    as [r [[<-|[]] [_ [_ [_ Hscore]]]]].
  discriminate Hscore.
Qed.

(** C4 (P5, ranking), as the sources have it: for the query ["abc"] and a
    collection without repeated site ids that contains a site named ["abc"]
    and a site named ["abcdef"], both are returned, and the first is above
    the second exactly when it has more matched fields or when it has as
    many and comes first in the collection. *)
Theorem exact_match_rank :
  forall (groups : list Group.t) (sites : list Site.t) (a b : Site.t)
         (now : Z) (e : SmartSearchEngine.t),
    NoDup (map Site.id sites) ->
    In a sites -> In b sites ->
    Site.name a = "abc" -> Site.name b = "abcdef" ->
    let fa := SmartSearchEngine.getMatchingFields (SmartSearchEngine.ISite a) "abc" in
    let fb := SmartSearchEngine.getMatchingFields (SmartSearchEngine.ISite b) "abc" in
    exists results,
      fst (SmartSearchEngine.search "abc" (Some groups) (Some sites) now e)
      = Normal results
      /\ In (StatedSearch.siteResult "abc" a) results
      /\ In (StatedSearch.siteResult "abc" b) results
      /\ (StatedSearch.before (StatedSearch.siteResult "abc" a)
            (StatedSearch.siteResult "abc" b) results
          <-> ((List.length fb < List.length fa)%nat
               \/ ((List.length fb <= List.length fa)%nat
                   /\ StatedSearch.before a b sites))).
Proof.
  intros groups sites a b now e Hnd Ha Hb Hna Hnb fa fb.
  assert (Hma : SmartSearchEngine.matchesQuery (SmartSearchEngine.ISite a) "abc" = true).
  { unfold SmartSearchEngine.matchesQuery, SmartSearchEngine.getItemTextForScoring.
    rewrite Hna. reflexivity. }
  assert (Hmb : SmartSearchEngine.matchesQuery (SmartSearchEngine.ISite b) "abc" = true).
  { unfold SmartSearchEngine.matchesQuery, SmartSearchEngine.getItemTextForScoring.
    rewrite Hnb. reflexivity. }
  assert (Hab : forall x y,
             In x sites -> In y sites ->
             SmartSearchEngine.matchesQuery (SmartSearchEngine.ISite x) "abc" = true ->
             SmartSearchEngine.matchesQuery (SmartSearchEngine.ISite y) "abc" = true ->
             _ -> StatedSearch.before (StatedSearch.siteResult "abc" x)
                    (StatedSearch.siteResult "abc" y)
                    (StatedSearch.finalResults "abc" groups sites))
    by (intros x y; apply matched_sites_order; assumption).
  assert (Hne : a <> b) by (intros ->; rewrite Hna in Hnb; discriminate).
  exists (StatedSearch.finalResults "abc" groups sites).
  split; [reflexivity|].
  assert (Horder : (List.length fb < List.length fa)%nat
                   \/ ((List.length fb <= List.length fa)%nat
                       /\ StatedSearch.before a b sites)
                   \/ (List.length fa < List.length fb)%nat
                   \/ ((List.length fa <= List.length fb)%nat
                       /\ StatedSearch.before b a sites)).
  { destruct (In_In_before a b sites Hne Ha Hb);
      destruct (Nat.lt_trichotomy (List.length fa) (List.length fb)) as [?|[?|?]];
      intuition lia. }
  assert (Hboth : In (StatedSearch.siteResult "abc" a)
                     (StatedSearch.finalResults "abc" groups sites)
                  /\ In (StatedSearch.siteResult "abc" b)
                        (StatedSearch.finalResults "abc" groups sites)).
  { destruct Horder as [H|[H|H]].
    - apply (before_In _ _ _ (Hab a b Ha Hb Hma Hmb (or_introl H))).
    - apply (before_In _ _ _ (Hab a b Ha Hb Hma Hmb (or_intror H))).
    - apply and_comm. apply (before_In _ _ _ (Hab b a Hb Ha Hmb Hma H)). }
  split; [apply Hboth|]. split; [apply Hboth|].
  split.
  - intros Hbefore.
    destruct Horder as [H|[H|H]]; auto.
    exfalso. eapply before_asym; [| exact Hbefore | exact (Hab b a Hb Ha Hmb Hma H)].
    eapply NoDup_map_inv. apply finalResults_NoDup.
  - intros H. now apply Hab.
Qed.

Lemma exact_match_rank_witness :
  exists results,
    fst (SmartSearchEngine.search "abc" (Some [])
           (Some [{| Site.id := 1; Site.group_id := 1; Site.name := "abc";
                     Site.url := "u"; Site.description := None;
                     Site.notes := None; Site.created_at := None |};
                  {| Site.id := 2; Site.group_id := 1; Site.name := "abcdef";
                     Site.url := "u"; Site.description := None;
                     Site.notes := None; Site.created_at := None |}])
           0 (SmartSearchEngine.new []))
    = Normal results
    /\ In (StatedSearch.siteResult "abc"
             {| Site.id := 1; Site.group_id := 1; Site.name := "abc";
                Site.url := "u"; Site.description := None;
                Site.notes := None; Site.created_at := None |}) results.
Proof.
  destruct (exact_match_rank []
              [{| Site.id := 1; Site.group_id := 1; Site.name := "abc";
                  Site.url := "u"; Site.description := None;
                  Site.notes := None; Site.created_at := None |};
               {| Site.id := 2; Site.group_id := 1; Site.name := "abcdef";
                  Site.url := "u"; Site.description := None;
                  Site.notes := None; Site.created_at := None |}]
              {| Site.id := 1; Site.group_id := 1; Site.name := "abc";
                 Site.url := "u"; Site.description := None;
                 Site.notes := None; Site.created_at := None |}
              {| Site.id := 2; Site.group_id := 1; Site.name := "abcdef";
                 Site.url := "u"; Site.description := None;
                 Site.notes := None; Site.created_at := None |}
              0 (SmartSearchEngine.new []))
    as [results [H1 [H2 _]]].
  - repeat constructor; simpl; intuition discriminate.
  - now left.
  - right. now left.
  - reflexivity.
  - reflexivity.
  - exists results. split; [exact H1 | exact H2].
Defined.

(** C4, counterexample to the statement as written: with the site
    ["abcdef"] first in the array and the same matched fields, [search]
    returns it above the site ["abc"]. *)
Lemma exact_match_not_below_fails :
  ~ StatedSearch.exact_match_not_below []
      [{| Site.id := 1; Site.group_id := 1; Site.name := "abcdef";
          Site.url := "u"; Site.description := None;
          Site.notes := None; Site.created_at := None |};
       {| Site.id := 2; Site.group_id := 1; Site.name := "abc";
          Site.url := "u"; Site.description := None;
          Site.notes := None; Site.created_at := None |}].
Proof.
  intros H.
  set (sb := {| Site.id := 1; Site.group_id := 1; Site.name := "abcdef";
                Site.url := "u"; Site.description := None;
                Site.notes := None; Site.created_at := None |}) in *.
  set (sa := {| Site.id := 2; Site.group_id := 1; Site.name := "abc";
                Site.url := "u"; Site.description := None;
                Site.notes := None; Site.created_at := None |}) in *.
  destruct (H sa sb
              [StatedSearch.siteResult "abc" sb; StatedSearch.siteResult "abc" sa]
              0 (SmartSearchEngine.new [])
              (or_intror (or_introl eq_refl)) (or_introl eq_refl)
              eq_refl eq_refl eq_refl)
    as [l1 [l2 [l3 Heq]]].
  destruct l1 as [|x l1]; simpl in Heq.
  - discriminate Heq.
  - apply (f_equal (@List.length _)) in Heq. simpl in Heq.
    rewrite !length_app in Heq. simpl in Heq.
    rewrite !length_app in Heq. simpl in Heq. lia.
Qed.

(* ================================================================== *)
(** ** Further properties of the store *)
(* ================================================================== *)

Section StoreMore.
Import CacheManager Stated.

Lemma map_get_set_other k key e m :
  k <> key -> map_get k (map_set key e m) = map_get k m.
Proof.
  intros Hne. induction m as [|[k' e'] m IH]; simpl.
  - destruct (String.eqb_spec key k); congruence.
  - destruct (String.eqb_spec k' key) as [->|Hk]; simpl.
    + destruct (String.eqb_spec key k); congruence.
    + now rewrite IH.
Qed.

Lemma map_get_delete_other k key m :
  k <> key -> map_get k (map_delete key m) = map_get k m.
Proof.
  intros Hne. induction m as [|[k' e'] m IH]; simpl; auto.
  destruct (String.eqb_spec k' key) as [->|Hk]; simpl.
  - destruct (String.eqb_spec key k); congruence.
  - now rewrite IH.
Qed.

Lemma map_get_unique k e m :
  NoDup (map_keys m) -> In (k, e) m -> map_get k m = Some e.
Proof.
  unfold map_keys. induction m as [|[k' e'] m IH]; simpl; [contradiction|].
  intros Hnd Hin. inversion Hnd as [|? ? Hk Hm]; subst.
  destruct Hin as [[= -> ->]|Hin].
  - now rewrite String.eqb_refl.
  - destruct (String.eqb_spec k' k) as [->|Hne]; auto.
    exfalso. apply Hk. apply in_map_iff. now exists (k, e).
Qed.

Lemma map_set_length_present key e e' m :
  map_get key m = Some e -> List.length (map_set key e' m) = List.length m.
Proof.
  induction m as [|[k x] m IH]; simpl; [discriminate|].
  destruct (k =? key)%string; simpl; auto.
Qed.

Lemma map_set_keys_NoDup key e m :
  NoDup (map_keys m) -> NoDup (map_keys (map_set key e m)).
Proof.
  unfold map_keys. induction m as [|[k x] m IH]; simpl; intros Hnd.
  - repeat constructor. simpl. tauto.
  - inversion Hnd as [|? ? Hk Hm]; subst.
    destruct (String.eqb_spec k key) as [->|Hne]; simpl.
    + now constructor.
    + constructor; auto.
      intros Hin. apply (map_set_keys key e m) in Hin.
      destruct Hin as [->|Hin]; auto.
Qed.

Lemma filter_keys_NoDup (keep : string * CacheEntry -> bool) m :
  NoDup (map_keys m) -> NoDup (map_keys (filter keep m)).
Proof.
  unfold map_keys. induction m as [|[k x] m IH]; simpl; intros Hnd; auto.
  inversion Hnd as [|? ? Hk Hm]; subst.
  destruct (keep (k, x)); simpl; auto.
  constructor; auto.
  intros Hin. apply Hk. now apply (filter_keys_incl keep m).
Qed.

Lemma evict_if_full_cases c :
  memoryCache (evict_if_full c) = memoryCache c
  \/ exists k, memoryCache (evict_if_full c) = map_delete k (memoryCache c).
Proof.
  unfold evict_if_full.
  destruct (map_size (memoryCache c) >=? maxSize c); [|now left].
  destruct (map_keys (memoryCache c)) as [|firstKey others]; [now left|].
  destruct (truthy_string firstKey); [|now left].
  right. now exists firstKey.
Qed.

Lemma evict_if_full_head c :
  memoryCache (evict_if_full c) = memoryCache c
  \/ (maxSize c <= size c
      /\ exists k0 e0 rest,
           memoryCache c = (k0, e0) :: rest
           /\ memoryCache (evict_if_full c) = map_delete k0 (memoryCache c)).
Proof.
  unfold evict_if_full, size.
  destruct (map_size (memoryCache c) >=? maxSize c) eqn:Hfull; [|now left].
  rewrite Z.geb_leb in Hfull. apply Z.leb_le in Hfull.
  destruct (memoryCache c) as [|[k0 e0] rest] eqn:Hm; simpl.
  - left. exact Hm.
  - destruct (truthy_string k0); simpl.
    + right. split; [exact Hfull|]. exists k0, e0, rest. split; reflexivity.
    + left. exact Hm.
Qed.

(** The keys of the map stay distinct, as in a [Map]. *)
Lemma step_keys_NoDup c o :
  NoDup (map_keys (memoryCache c)) -> NoDup (map_keys (memoryCache (step c o))).
Proof.
  intros Hnd. destruct o as [key d ttl now|key|]; simpl.
  - apply map_set_keys_NoDup.
    assert (H1 : NoDup (map_keys (memoryCache (cleanupExpired now c))))
      by (now apply filter_keys_NoDup).
    destruct (evict_if_full_cases (cleanupExpired now c)) as [H|[k H]];
      rewrite H; auto.
    now apply filter_keys_NoDup.
  - now apply filter_keys_NoDup.
  - constructor.
Qed.

Lemma run_keys_NoDup ops :
  forall c, NoDup (map_keys (memoryCache c)) ->
            NoDup (map_keys (memoryCache (run ops c))).
Proof.
  induction ops as [|o ops IH]; intros c Hnd; simpl; auto.
  apply IH. now apply step_keys_NoDup.
Qed.

Lemma cleanup_when_fresh now c :
  forallb (fun kv => negb (expired now (snd kv))) (memoryCache c) = true ->
  cleanupExpired now c = with_map c (memoryCache c).
Proof.
  intros H. unfold cleanupExpired. now rewrite forallb_filter_id.
Qed.

Lemma entries_get now ttl kvs k v :
  NoDup (map fst kvs) -> In (k, v) kvs ->
  map_get k (entries now ttl kvs)
  = Some {| data := v; timestamp := now; ttl := ttl |}.
Proof.
  intros Hnd Hin. apply map_get_unique.
  - now rewrite entries_keys.
  - unfold entries. apply in_map_iff. now exists (k, v).
Qed.

End StoreMore.

(** X1 (capacity): a store created with a capacity of at least one never
    holds more entries than its capacity, after any run of [set], [delete]
    and [clear] whose keys are not the empty string. *)
Theorem store_stays_within_capacity :
  forall (ops : list CacheManager.op) (cap : Z) (dflt : option Z),
    1 <= cap ->
    Forall Stated.nonempty_key ops ->
    CacheManager.size (CacheManager.run ops (CacheManager.new (Some cap) dflt)) <= cap.
Proof.
  intros ops cap dflt Hcap Hops.
  destruct (run_bounded ops (CacheManager.new (Some cap) dflt)) as [[H _] Hmax];
    auto.
  - split; [simpl; unfold CacheManager.size, CacheManager.map_size; simpl; lia
           | constructor].
  - simpl in Hmax. now rewrite Hmax in H.
Qed.

Lemma store_stays_within_capacity_witness :
  CacheManager.size
    (CacheManager.run
       [CacheManager.OpSet "a" (JNum 1) None 0;
        CacheManager.OpSet "b" (JNum 2) (Some 5) 1;
        CacheManager.OpSet "c" (JNum 3) None 2;
        CacheManager.OpDelete "a";
        CacheManager.OpSet "d" (JNum 4) None 3;
        CacheManager.OpSet "b" (JNum 5) None 9]
       (CacheManager.new (Some 2) None)) <= 2.
Proof.
  apply store_stays_within_capacity.
  - lia.
  - repeat constructor; discriminate.
Defined.

(** X2 (eviction order): inserting, at one instant and with a TTL that is
    not negative, [capacity + 1] distinct keys into a new store of capacity
    at least one evicts the first inserted key, if it is not the empty
    string, and nothing else: the map lists the other keys in insertion
    order, the store is full, the first key reads as absent and every other
    key reads back its value. *)
Theorem first_inserted_key_is_evicted :
  forall (now ttl cap : Z) (dflt : option Z)
         (kv0 : string * JsVal) (kvs : list (string * JsVal)) (kv : string * JsVal),
    0 <= ttl -> 1 <= cap ->
    NoDup (map fst (kv0 :: kvs ++ [kv])) ->
    fst kv0 <> EmptyString ->
    Z.of_nat (List.length (kv0 :: kvs)) = cap ->
    let c := CacheManager.run (Stated.inserts now ttl (kv0 :: kvs ++ [kv]))
               (CacheManager.new (Some cap) dflt) in
    CacheManager.map_keys (CacheManager.memoryCache c) = map fst (kvs ++ [kv])
    /\ CacheManager.size c = cap
    /\ CacheManager.get (fst kv0) now c = (JNull, c)
    /\ forall k v, In (k, v) (kvs ++ [kv]) -> CacheManager.get k now c = (v, c).
Proof.
  intros now ttl cap dflt kv0 kvs kv Httl Hcap Hnd Hk0 Hlen c.
  assert (Hmem : CacheManager.memoryCache c = Stated.entries now ttl (kvs ++ [kv]))
    by (now apply inserts_over_capacity).
  assert (Hnd' : NoDup (map fst (kvs ++ [kv]))) by (now inversion Hnd).
  split; [|split; [|split]].
  - now rewrite Hmem, entries_keys.
  - unfold CacheManager.size, CacheManager.map_size.
    rewrite Hmem, entries_length, length_app. simpl in *. lia.
  - apply get_absent. rewrite Hmem. apply map_get_not_in.
    rewrite entries_keys. now inversion Hnd.
  - intros k v Hin.
    rewrite (get_fresh k now c {| CacheManager.data := v;
                                  CacheManager.timestamp := now;
                                  CacheManager.ttl := ttl |}).
    + reflexivity.
    + rewrite Hmem. now apply entries_get.
    + unfold CacheManager.expired. simpl.
      rewrite Z.gtb_ltb. apply Z.ltb_ge. lia.
Qed.

Lemma first_inserted_key_is_evicted_witness :
  let c := CacheManager.run
             (Stated.inserts 0 1000 [("a", JNum 1); ("b", JNum 2); ("c", JNum 3)])
             (CacheManager.new (Some 2) None) in
  CacheManager.map_keys (CacheManager.memoryCache c) = ["b"; "c"]
  /\ CacheManager.get "a" 0 c = (JNull, c).
Proof.
  intros c.
  destruct (first_inserted_key_is_evicted 0 1000 2 None ("a", JNum 1)
              [("b", JNum 2)] ("c", JNum 3)) as [H1 [_ [H3 _]]].
  - lia.
  - lia.
  - repeat constructor; simpl; intuition discriminate.
  - discriminate.
  - reflexivity.
  - split; [exact H1 | exact H3].
Defined.

(** X3 (overwriting in a full store): when the store is full and none of
    its entries has expired, [set] on a key that is already present, other
    than the oldest one, stores the new entry and still evicts the oldest
    key, unless the oldest key is the empty string: the store ends with one
    entry less although the write needed no room. When the oldest key is
    the empty string nothing is evicted: that key keeps its entry and the
    size does not change. *)
Theorem overwrite_in_full_store_evicts_oldest :
  forall (c : CacheManager.t) (key : string) (d : JsVal) (ttl : option Z) (now : Z)
         (k0 : string) (e0 : CacheManager.CacheEntry)
         (rest : CacheManager.EntryMap) (e : CacheManager.CacheEntry),
    CacheManager.memoryCache c = (k0, e0) :: rest ->
    NoDup (CacheManager.map_keys (CacheManager.memoryCache c)) ->
    forallb (fun kv => negb (CacheManager.expired now (snd kv)))
            (CacheManager.memoryCache c) = true ->
    CacheManager.maxSize c <= CacheManager.size c ->
    k0 <> key ->
    CacheManager.map_get key rest = Some e ->
    let c' := CacheManager.set key d ttl now c in
    CacheManager.map_get key (CacheManager.memoryCache c')
    = Some {| CacheManager.data := d; CacheManager.timestamp := now;
              CacheManager.ttl := match ttl with
                                  | Some x => x
                                  | None => CacheManager.defaultTTL c
                                  end |}
    /\ (k0 <> EmptyString ->
        CacheManager.map_get k0 (CacheManager.memoryCache c') = None
        /\ CacheManager.size c' = CacheManager.size c - 1)
    /\ (k0 = EmptyString ->
        CacheManager.map_get k0 (CacheManager.memoryCache c') = Some e0
        /\ CacheManager.size c' = CacheManager.size c).
Proof.
  intros c key d ttl now k0 e0 rest e Hmem Hnd Hfresh Hfull Hne Hkey c'.
  set (entry := {| CacheManager.data := d; CacheManager.timestamp := now;
                   CacheManager.ttl := match ttl with
                                       | Some x => x
                                       | None => CacheManager.defaultTTL c
                                       end |}).
  assert (Hrest : ~ In k0 (CacheManager.map_keys rest)).
  { rewrite Hmem in Hnd. unfold CacheManager.map_keys in *. simpl in Hnd.
    now inversion Hnd. }
  assert (Hc' : CacheManager.memoryCache c'
                = CacheManager.map_set key entry
                    (if truthy_string k0 then rest else (k0, e0) :: rest)).
  { unfold c', CacheManager.set. rewrite (cleanup_when_fresh now c Hfresh).
    unfold CacheManager.evict_if_full. cbn [CacheManager.with_map
      CacheManager.memoryCache CacheManager.maxSize CacheManager.defaultTTL].
    replace (CacheManager.map_size (CacheManager.memoryCache c)
             >=? CacheManager.maxSize c) with true
      by (symmetry; rewrite Z.geb_leb; apply Z.leb_le; exact Hfull).
    rewrite Hmem. cbn [CacheManager.map_keys map fst].
    destruct (truthy_string k0).
    - cbn [CacheManager.with_map CacheManager.memoryCache].
      unfold CacheManager.map_delete at 1. cbn [filter fst].
      rewrite String.eqb_refl. cbn [negb].
      fold (CacheManager.map_delete k0 rest).
      now rewrite (map_delete_absent k0 rest Hrest).
    - reflexivity. }
  split; [rewrite Hc'; apply map_get_set_same|]. split.
  - intros Hk0.
    assert (Ht : truthy_string k0 = true).
    { unfold truthy_string. now destruct (String.eqb_spec k0 EmptyString). }
    rewrite Ht in Hc'. split.
    + rewrite Hc', map_get_set_other by exact Hne. now apply map_get_not_in.
    + unfold CacheManager.size, CacheManager.map_size.
      rewrite Hc', (map_set_length_present key e _ rest Hkey), Hmem.
      rewrite length_cons. lia.
  - intros Hk0.
    assert (Ht : truthy_string k0 = false).
    { unfold truthy_string. rewrite Hk0. reflexivity. }
    assert (Hfull_get : CacheManager.map_get key ((k0, e0) :: rest) = Some e).
    { cbn [CacheManager.map_get].
      destruct (String.eqb_spec k0 key); [contradiction|exact Hkey]. }
    rewrite Ht in Hc'. split.
    + rewrite Hc', map_get_set_other by exact Hne.
      cbn [CacheManager.map_get]. now rewrite String.eqb_refl.
    + unfold CacheManager.size, CacheManager.map_size.
      now rewrite Hc', (map_set_length_present key e _ _ Hfull_get), Hmem.
Qed.

Lemma overwrite_in_full_store_evicts_oldest_witness :
  let c := CacheManager.run
             (Stated.inserts 0 1000 [("a", JNum 1); ("b", JNum 2)])
             (CacheManager.new (Some 2) None) in
  let c' := CacheManager.set "b" (JNum 9) None 5 c in
  CacheManager.map_get "a" (CacheManager.memoryCache c') = None
  /\ CacheManager.size c' = CacheManager.size c - 1
  /\ CacheManager.map_get "b" (CacheManager.memoryCache c')
     = Some {| CacheManager.data := JNum 9; CacheManager.timestamp := 5;
               CacheManager.ttl := 300000 |}.
Proof.
  intros c.
  destruct (overwrite_in_full_store_evicts_oldest c "b" (JNum 9) None 5 "a"
              {| CacheManager.data := JNum 1; CacheManager.timestamp := 0;
                 CacheManager.ttl := 1000 |}
              [("b", {| CacheManager.data := JNum 2; CacheManager.timestamp := 0;
                        CacheManager.ttl := 1000 |})]
              {| CacheManager.data := JNum 2; CacheManager.timestamp := 0;
                 CacheManager.ttl := 1000 |})
    as [Hnew [Hevict _]].
  - reflexivity.
  - repeat constructor; simpl; intuition discriminate.
  - reflexivity.
  - vm_compute. discriminate.
  - discriminate.
  - reflexivity.
  - destruct Hevict as [Hgone Hsize]; [discriminate|].
    split; [exact Hgone|]. split; [exact Hsize|exact Hnew].
Defined.

(** X4 ([keys] and [get] agree): in a map with distinct keys, [keys()]
    lists a key exactly when the map holds an entry for it that has not
    expired, which is when [get] answers from the map; the listed keys are
    distinct, and a second [keys()] at the same instant changes nothing. *)
Theorem keys_lists_the_unexpired_entries :
  forall (c : CacheManager.t) (now : Z),
    NoDup (CacheManager.map_keys (CacheManager.memoryCache c)) ->
    (forall k,
        In k (fst (CacheManager.keys now c))
        <-> exists e, CacheManager.map_get k (CacheManager.memoryCache c) = Some e
                      /\ CacheManager.expired now e = false)
    /\ NoDup (fst (CacheManager.keys now c))
    /\ CacheManager.keys now (snd (CacheManager.keys now c)) = CacheManager.keys now c.
Proof.
  intros c now Hnd. split; [|split].
  - intros k. unfold CacheManager.keys, CacheManager.cleanupExpired,
      CacheManager.map_keys. simpl. rewrite in_map_iff. split.
    + intros [[k' e] [Hk Hin]]. simpl in Hk. subst k'.
      apply filter_In in Hin. destruct Hin as [Hin He]. simpl in He.
      exists e. split.
      * now apply map_get_unique.
      * now apply negb_true_iff in He.
    + intros [e [Hg He]]. exists (k, e). split; auto.
      apply filter_In. split.
      * now apply map_get_In.
      * simpl. now rewrite He.
  - unfold CacheManager.keys. simpl. now apply filter_keys_NoDup.
  - unfold CacheManager.keys, CacheManager.cleanupExpired. simpl.
    rewrite filter_filter.
    assert (H : forall l : CacheManager.EntryMap,
               filter (fun x => negb (CacheManager.expired now (snd x))
                                && negb (CacheManager.expired now (snd x))) l
               = filter (fun kv => negb (CacheManager.expired now (snd kv))) l).
    { intros l. apply filter_ext. intros a. apply andb_diag. }
    now rewrite H.
Qed.

Lemma keys_lists_the_unexpired_entries_witness :
  let c := CacheManager.run
             [CacheManager.OpSet "a" (JNum 1) (Some 10) 0;
              CacheManager.OpSet "b" (JNum 2) (Some 1000) 0]
             (CacheManager.new None None) in
  NoDup (fst (CacheManager.keys 50 c))
  /\ CacheManager.keys 50 (snd (CacheManager.keys 50 c)) = CacheManager.keys 50 c.
Proof.
  intros c.
  destruct (keys_lists_the_unexpired_entries c 50) as [_ H].
  - repeat constructor; simpl; intuition discriminate.
  - exact H.
Defined.

(** X5 (a stored [null]): after [set(key, null, ttl)] with a TTL that is
    not negative, the entry is in the map and [keys()] lists the key, but
    [has(key)] answers false and [get(key)] answers [null], as for a key
    that was never stored. *)
Theorem stored_null_reads_as_absent :
  forall (key : string) (ttl now : Z) (c : CacheManager.t),
    0 <= ttl ->
    let c' := CacheManager.set key JNull (Some ttl) now c in
    CacheManager.has key now c' = (false, c')
    /\ CacheManager.get key now c' = (JNull, c')
    /\ In key (fst (CacheManager.keys now c'))
    /\ CacheManager.delete_result key c' = true.
Proof.
  intros key ttl now c Httl c'.
  pose proof (get_after_set key JNull ttl now c) as Hg. fold c' in Hg.
  assert (He : CacheManager.expired now
                 {| CacheManager.data := JNull; CacheManager.timestamp := now;
                    CacheManager.ttl := ttl |} = false).
  { unfold CacheManager.expired. simpl. rewrite Z.gtb_ltb. apply Z.ltb_ge. lia. }
  assert (Hget : CacheManager.get key now c' = (JNull, c'))
    by (now rewrite (get_fresh _ _ _ _ Hg He)).
  split; [|split; [|split]].
  - unfold CacheManager.has. now rewrite Hget.
  - exact Hget.
  - unfold CacheManager.keys, CacheManager.cleanupExpired,
      CacheManager.map_keys. simpl. apply in_map_iff.
    exists (key, {| CacheManager.data := JNull; CacheManager.timestamp := now;
                    CacheManager.ttl := ttl |}).
    split; auto. apply filter_In. split.
    + now apply map_get_In.
    + simpl. now rewrite He.
  - unfold CacheManager.delete_result. now rewrite Hg.
Qed.

Lemma stored_null_reads_as_absent_witness :
  let c' := CacheManager.set "k" JNull (Some 1000) 0 (CacheManager.new None None) in
  CacheManager.has "k" 0 c' = (false, c')
  /\ In "k" (fst (CacheManager.keys 0 c')).
Proof.
  intros c'.
  destruct (stored_null_reads_as_absent "k" 1000 0 (CacheManager.new None None))
    as [H1 [_ [H3 _]]].
  - lia.
  - split; [exact H1 | exact H3].
Defined.

(** X6 (what [set] leaves alone): [set(key, ...)] keeps the entry of every
    other key that has not expired, except possibly the oldest unexpired
    key, the only candidate for eviction; with room left in the store it
    keeps that one too. *)
Theorem set_keeps_the_other_entries :
  forall (c : CacheManager.t) (key k : string) (d : JsVal) (ttl : option Z)
         (now : Z) (e : CacheManager.CacheEntry),
    k <> key ->
    CacheManager.map_get k (CacheManager.memoryCache c) = Some e ->
    CacheManager.expired now e = false ->
    (CacheManager.size (CacheManager.cleanupExpired now c) < CacheManager.maxSize c
     \/ forall e0 rest,
          CacheManager.memoryCache (CacheManager.cleanupExpired now c)
          <> (k, e0) :: rest) ->
    CacheManager.map_get k
      (CacheManager.memoryCache (CacheManager.set key d ttl now c)) = Some e
    /\ CacheManager.get k now (CacheManager.set key d ttl now c)
       = (CacheManager.data e, CacheManager.set key d ttl now c).
Proof.
  intros c key k d ttl now e Hne Hg He Hroom.
  assert (H1 : CacheManager.map_get k
                 (CacheManager.memoryCache (CacheManager.cleanupExpired now c))
               = Some e).
  { unfold CacheManager.cleanupExpired. simpl.
    apply map_get_filter_keep; auto. simpl. now rewrite He. }
  assert (H2 : CacheManager.map_get k
                 (CacheManager.memoryCache
                    (CacheManager.evict_if_full (CacheManager.cleanupExpired now c)))
               = Some e).
  { destruct (evict_if_full_head (CacheManager.cleanupExpired now c))
      as [H|[Hfull [k0 [e0 [rest [Hm H]]]]]]; rewrite H; [exact H1|].
    destruct Hroom as [Hroom|Hroom].
    - change (CacheManager.maxSize (CacheManager.cleanupExpired now c))
        with (CacheManager.maxSize c) in Hfull.
      lia.
    - rewrite map_get_delete_other; [exact H1|].
      intros ->. now apply (Hroom e0 rest). }
  assert (H3 : CacheManager.map_get k
                 (CacheManager.memoryCache (CacheManager.set key d ttl now c))
               = Some e).
  { unfold CacheManager.set. simpl. now rewrite map_get_set_other. }
  split; [exact H3|]. now apply get_fresh.
Qed.

Lemma set_keeps_the_other_entries_witness :
  let c := CacheManager.run
             (Stated.inserts 0 1000 [("a", JNum 1); ("b", JNum 2)])
             (CacheManager.new (Some 2) None) in
  CacheManager.get "b" 5 (CacheManager.set "c" (JNum 3) None 5 c)
  = (JNum 2, CacheManager.set "c" (JNum 3) None 5 c).
Proof.
  intros c.
  apply (set_keeps_the_other_entries c "c" "b" (JNum 3) None 5
           {| CacheManager.data := JNum 2; CacheManager.timestamp := 0;
              CacheManager.ttl := 1000 |}).
  - discriminate.
  - reflexivity.
  - reflexivity.
  - right. intros e0 rest. vm_compute. discriminate.
Defined.

(* ================================================================== *)
(** ** Further properties of the coordinator *)
(* ================================================================== *)

Section ReadThroughMore.
Import CacheManager NavigationCacheManager.

Lemma readThrough_hit cacheKey fetch now now' s e :
  map_get cacheKey (memoryCache (cache s)) = Some e ->
  expired now e = false ->
  truthy (data e) = true ->
  readThrough cacheKey fetch false now now' s = (Normal (data e), hit s).
Proof.
  intros Hg He Ht. unfold readThrough.
  rewrite (get_fresh _ _ _ _ Hg He). simpl. now rewrite Ht.
Qed.

Lemma readThrough_absent cacheKey fetch forceRefresh now now' s :
  map_get cacheKey (memoryCache (cache s)) = None ->
  fst (readThrough cacheKey fetch forceRefresh now now' s) = fetch.
Proof.
  intros Hg. unfold readThrough. destruct forceRefresh; simpl.
  - destruct fetch as [d|err]; simpl; auto.
    rewrite (get_absent _ _ _ Hg). reflexivity.
  - rewrite (get_absent _ _ _ Hg). simpl.
    destruct fetch as [d|err]; simpl; auto.
    rewrite (get_absent _ _ _ Hg). reflexivity.
Qed.


(** The counters after a read: one of them has grown by one. *)
Lemma readThrough_counts cacheKey fetch forceRefresh now now' s :
  let s' := snd (readThrough cacheKey fetch forceRefresh now now' s) in
  (hits (stats s') = hits (stats s) + 1 /\ misses (stats s') = misses (stats s))
  \/ (hits (stats s') = hits (stats s) /\ misses (stats s') = misses (stats s) + 1).
Proof.
  unfold readThrough. destruct forceRefresh; simpl.
  - right. destruct fetch as [d|err]; simpl; auto.
    destruct (get cacheKey now' (cache s)) as [v c]. now destruct (truthy v).
  - destruct (get cacheKey now (cache s)) as [v c]. simpl.
    destruct (truthy v); simpl; [now left|right].
    destruct fetch as [d|err]; simpl; auto.
    destruct (get cacheKey now' c) as [v' c']. now destruct (truthy v').
Qed.

Lemma invalidate_stats type now s : stats (invalidate type now s) = stats s.
Proof. now destruct type. Qed.

Lemma with_map_same (c : CacheManager.t) : with_map c (memoryCache c) = c.
Proof. now destruct c. Qed.

Lemma fold_delete_state ks :
  forall c,
    fold_left (fun c key => delete key c) ks c
    = with_map c (filter (fun kv => negb (existsb (String.eqb (fst kv)) ks))
                         (memoryCache c)).
Proof.
  intros c.
  assert (H : forall c', fold_left (fun c key => delete key c) ks c'
                         = with_map c' (memoryCache
                                          (fold_left (fun c key => delete key c) ks c'))).
  { induction ks as [|k ks IH]; intros c'; simpl.
    - now rewrite with_map_same.
    - rewrite IH at 1. reflexivity. }
  rewrite H. now rewrite fold_delete_cache.
Qed.

(** The state after [invalidate]: the same store and counters, with the
    map filtered. *)
Lemma invalidate_state type now s :
  type <> All ->
  invalidate type now s
  = with_cache s
      (with_map (cache s)
         (filter (fun kv => negb (expired now (snd kv))
                            && negb (selects type (fst kv)))
                 (memoryCache (cache s)))).
Proof.
  intros Hty.
  pose proof (invalidate_cache type now s Hty) as Hm.
  assert (H : invalidate type now s
              = with_cache s (with_map (cache s)
                                (memoryCache (cache (invalidate type now s))))).
  { destruct type; try contradiction; unfold invalidate;
      cbn [keys fst snd]; rewrite fold_delete_state; reflexivity. }
  rewrite H. now rewrite Hm.
Qed.

Lemma invalidate_twice type now s :
  type <> All ->
  invalidate type now (invalidate type now s) = invalidate type now s.
Proof.
  intros Hty.
  rewrite (invalidate_state type now (invalidate type now s) Hty).
  rewrite (invalidate_state type now s Hty).
  unfold with_cache, with_map. simpl. rewrite filter_filter.
  do 2 f_equal. apply filter_ext. intros a. apply andb_diag.
Qed.

End ReadThroughMore.



(** X8 (falsy values): when the value stored for the key is falsy
    ([null], [undefined], [false], [0] or the empty string), the
    coordinator never serves it: a read counts a miss, returns what the
    fetch returns and reports the error of a failing fetch, expired entry
    or not. *)
Theorem falsy_values_are_never_served :
  forall (cacheKey : string) (e : CacheManager.CacheEntry)
         (fetch : Completion JsVal) (forceRefresh : bool) (now now' : Z)
         (s : NavigationCacheManager.t),
    CacheManager.map_get cacheKey
      (CacheManager.memoryCache (NavigationCacheManager.cache s)) = Some e ->
    truthy (CacheManager.data e) = false ->
    let r := NavigationCacheManager.readThrough cacheKey fetch forceRefresh
               now now' s in
    fst r = fetch
    /\ NavigationCacheManager.misses (NavigationCacheManager.stats (snd r))
       = NavigationCacheManager.misses (NavigationCacheManager.stats s) + 1
    /\ NavigationCacheManager.hits (NavigationCacheManager.stats (snd r))
       = NavigationCacheManager.hits (NavigationCacheManager.stats s).
Proof.
  intros cacheKey e fetch forceRefresh now now' s Hg Hf r. unfold r.
  assert (Hfallback : forall t c,
             CacheManager.map_get cacheKey (CacheManager.memoryCache c) = Some e ->
             truthy (fst (CacheManager.get cacheKey t c)) = false).
  { intros t c Hc. destruct (CacheManager.expired t e) eqn:He.
    - now rewrite (get_expired _ _ _ _ Hc He).
    - now rewrite (get_fresh _ _ _ _ Hc He). }
  unfold NavigationCacheManager.readThrough. destruct forceRefresh; simpl.
  - destruct fetch as [d|err]; simpl; auto.
    specialize (Hfallback now' (NavigationCacheManager.cache s) Hg).
    destruct (CacheManager.get cacheKey now' (NavigationCacheManager.cache s))
      as [v c]. simpl in Hfallback. rewrite Hfallback. simpl. auto.
  - destruct (CacheManager.expired now e) eqn:He.
    + rewrite (get_expired _ _ _ _ Hg He). simpl.
      destruct fetch as [d|err]; simpl; auto.
      rewrite get_absent by (simpl; apply map_get_delete_same). simpl. auto.
    + rewrite (get_fresh _ _ _ _ Hg He). simpl. rewrite Hf. simpl.
      destruct fetch as [d|err]; simpl; auto.
      specialize (Hfallback now' (NavigationCacheManager.cache s) Hg).
      destruct (CacheManager.get cacheKey now' (NavigationCacheManager.cache s))
        as [v c]. simpl in Hfallback. rewrite Hfallback. simpl. auto.
Qed.

Lemma falsy_values_are_never_served_witness :
  let s := snd (NavigationCacheManager.getConfigs (Normal (JStr EmptyString))
                  false 0 0 (NavigationCacheManager.new 0)) in
  fst (NavigationCacheManager.getConfigs (Throw (Rejected (JStr "offline")))
         false 5 5 s)
  = Throw (Rejected (JStr "offline")).
Proof.
  intros s.
  destruct (falsy_values_are_never_served "configs"
              {| CacheManager.data := JStr EmptyString; CacheManager.timestamp := 0;
                 CacheManager.ttl := 600000 |}
              (Throw (Rejected (JStr "offline"))) false 5 5 s eq_refl eq_refl)
    as [H _].
  exact H.
Defined.

(** X9 (counters): every read-through call adds exactly one to either the
    hits or the misses and never lowers the other; [invalidate] leaves the
    counters alone; with counters that are not negative, as they are from
    the constructor on, the hit rate reported afterwards lies between 0
    and 1. *)
Theorem every_read_counts_once :
  forall (cacheKey : string) (fetch : Completion JsVal) (forceRefresh : bool)
         (now now' : Z) (s : NavigationCacheManager.t),
    0 <= NavigationCacheManager.hits (NavigationCacheManager.stats s) ->
    0 <= NavigationCacheManager.misses (NavigationCacheManager.stats s) ->
    let s' := snd (NavigationCacheManager.readThrough cacheKey fetch forceRefresh
                     now now' s) in
    let st := NavigationCacheManager.stats s in
    let st' := NavigationCacheManager.stats s' in
    NavigationCacheManager.hits st' + NavigationCacheManager.misses st'
    = NavigationCacheManager.hits st + NavigationCacheManager.misses st + 1
    /\ NavigationCacheManager.hits st <= NavigationCacheManager.hits st'
    /\ NavigationCacheManager.misses st <= NavigationCacheManager.misses st'
    /\ (forall type t,
          NavigationCacheManager.stats (NavigationCacheManager.invalidate type t s')
          = st')
    /\ (0 <= NavigationCacheManager.hitRate (NavigationCacheManager.getStats s'))%Q
    /\ (NavigationCacheManager.hitRate (NavigationCacheManager.getStats s') <= 1)%Q.
Proof.
  intros cacheKey fetch forceRefresh now now' s Hh Hm s' st st'.
  pose proof (readThrough_counts cacheKey fetch forceRefresh now now' s) as Hc.
  cbv zeta in Hc.
  change (NavigationCacheManager.stats
            (snd (NavigationCacheManager.readThrough cacheKey fetch forceRefresh
                    now now' s))) with st' in Hc.
  change (NavigationCacheManager.stats s) with st in Hc, Hh, Hm.
  split; [lia|]. split; [lia|]. split; [lia|].
  split; [intros type t; apply invalidate_stats|].
  unfold NavigationCacheManager.getStats, NavigationCacheManager.hitRate.
  fold st'.
  set (h := NavigationCacheManager.hits st') in *.
  set (m := NavigationCacheManager.misses st') in *.
  assert (Hpos : h + m > 0) by lia.
  replace (h + m >? 0) with true by (symmetry; apply Z.gtb_lt; lia).
  assert (HT : (0 < inject_Z (h + m))%Q).
  { change 0%Q with (inject_Z 0). rewrite <- Zlt_Qlt. lia. }
  split.
  - apply Qle_shift_div_l; auto. rewrite Qmult_0_l.
    change 0%Q with (inject_Z 0). rewrite <- Zle_Qle. lia.
  - apply Qle_shift_div_r; auto. rewrite Qmult_1_l.
    rewrite <- Zle_Qle. lia.
Qed.

Lemma every_read_counts_once_witness :
  let s := NavigationCacheManager.new 0 in
  let s' := snd (NavigationCacheManager.getConfigs (Normal (JArr [1])) false 1 2 s) in
  NavigationCacheManager.hits (NavigationCacheManager.stats s')
  + NavigationCacheManager.misses (NavigationCacheManager.stats s') = 1.
Proof.
  intros s s'.
  destruct (every_read_counts_once "configs" (Normal (JArr [1])) false 1 2 s)
    as [H _].
  - simpl. lia.
  - simpl. lia.
  - exact H.
Defined.

(** X10 ([invalidate] composes): invalidating twice at the same instant is
    the same as invalidating once, for the four types; after
    [invalidate("all")] the map is empty and the next read of any key
    returns what the fetch function returns, its error included. *)
Theorem invalidate_is_idempotent :
  forall (type : NavigationCacheManager.InvalidationType) (now : Z)
         (s : NavigationCacheManager.t),
    NavigationCacheManager.invalidate type now
      (NavigationCacheManager.invalidate type now s)
    = NavigationCacheManager.invalidate type now s
    /\ CacheManager.memoryCache
         (NavigationCacheManager.cache
            (NavigationCacheManager.invalidate NavigationCacheManager.All now s))
       = []
    /\ forall cacheKey fetch forceRefresh t t',
         fst (NavigationCacheManager.readThrough cacheKey fetch forceRefresh t t'
                (NavigationCacheManager.invalidate NavigationCacheManager.All now s))
         = fetch.
Proof.
  intros type now s. split; [|split].
  - destruct type; try (apply invalidate_twice; discriminate).
    reflexivity.
  - reflexivity.
  - intros cacheKey fetch forceRefresh t t'. now apply readThrough_absent.
Qed.

(** X11 (scope of a site write): [invalidate("sites")], which the client
    calls after creating, updating, deleting or reordering a site, leaves
    the entry of ["groupsWithSites"]: if that entry is unexpired and truthy
    at a later read, [getGroupsWithSites] still returns it and counts a
    hit, without using the fetch function. *)
Theorem site_write_keeps_groupsWithSites :
  forall (s : NavigationCacheManager.t) (e : CacheManager.CacheEntry)
         (fetch : Completion JsVal) (t0 t t' : Z),
    CacheManager.map_get "groupsWithSites"
      (CacheManager.memoryCache (NavigationCacheManager.cache s)) = Some e ->
    CacheManager.expired t e = false ->
    t0 <= t ->
    truthy (CacheManager.data e) = true ->
    let s' := NavigationCacheManager.invalidate NavigationCacheManager.Sites t0 s in
    NavigationCacheManager.getGroupsWithSites fetch false t t' s'
    = (Normal (CacheManager.data e), NavigationCacheManager.hit s').
Proof.
  intros s e fetch t0 t t' Hg He Hle Ht s'.
  apply (readThrough_hit "groupsWithSites" fetch t t' s' e); auto.
  unfold s'. rewrite invalidate_cache by discriminate.
  apply map_get_filter_keep; auto.
  simpl. replace (CacheManager.expired t0 e) with false; [reflexivity|].
  symmetry. apply not_true_is_false. intros Hexp.
  apply (expired_later t0 t e Hexp) in Hle. congruence.
Qed.

Lemma site_write_keeps_groupsWithSites_witness :
  let s := snd (NavigationCacheManager.getGroupsWithSites (Normal (JArr [1; 2]))
                  false 0 0 (NavigationCacheManager.new 0)) in
  let s' := NavigationCacheManager.invalidate NavigationCacheManager.Sites 10 s in
  NavigationCacheManager.getGroupsWithSites (Normal (JArr [1; 2; 3])) false 20 30 s'
  = (Normal (JArr [1; 2]), NavigationCacheManager.hit s').
Proof.
  intros s.
  apply (site_write_keeps_groupsWithSites s
           {| CacheManager.data := JArr [1; 2]; CacheManager.timestamp := 0;
              CacheManager.ttl := 600000 |}
           (Normal (JArr [1; 2; 3])) 10 20 30).
  - reflexivity.
  - reflexivity.
  - lia.
  - reflexivity.
Defined.

(** X12 (scope of a group write): [invalidate("groups")], which the client
    calls after a group write, removes ["groupsWithSites"] and every
    per-group site key: the next [getGroupsWithSites] and the next
    [getSites] of any group id other than 0 return what their fetch
    function returns, while an unexpired ["all_sites"] or ["configs"]
    entry stays in the map. *)
Theorem group_write_drops_per_group_sites :
  forall (s : NavigationCacheManager.t) (groupId : Z),
    groupId <> 0 ->
    forall (fetch : Completion JsVal) (forceRefresh : bool) (t0 t t' : Z),
      let s' := NavigationCacheManager.invalidate NavigationCacheManager.Groups t0 s in
      fst (NavigationCacheManager.getGroupsWithSites fetch forceRefresh t t' s')
      = fetch
      /\ fst (NavigationCacheManager.getSites fetch (Some groupId) forceRefresh t t' s')
         = fetch
      /\ forall key e,
           key = "all_sites" \/ key = "configs" ->
           CacheManager.map_get key
             (CacheManager.memoryCache (NavigationCacheManager.cache s)) = Some e ->
           CacheManager.expired t0 e = false ->
           CacheManager.map_get key
             (CacheManager.memoryCache (NavigationCacheManager.cache s')) = Some e.
Proof.
  intros s groupId Hid fetch forceRefresh t0 t t' s'.
  assert (Hgone : forall key,
             NavigationCacheManager.selects NavigationCacheManager.Groups key = true ->
             CacheManager.map_get key
               (CacheManager.memoryCache (NavigationCacheManager.cache s')) = None).
  { intros key Hsel. unfold s'. rewrite invalidate_cache by discriminate.
    apply map_get_filter_drop. intros e. cbn [fst snd].
    rewrite Hsel. apply andb_false_r. }
  split; [|split].
  - apply readThrough_absent. now apply Hgone.
  - apply readThrough_absent. apply Hgone.
    unfold NavigationCacheManager.sitesKey.
    destruct (Z.eqb_spec groupId 0); [contradiction|reflexivity].
  - intros key e Hkey Hg He. unfold s'. rewrite invalidate_cache by discriminate.
    apply map_get_filter_keep; auto. simpl. rewrite He.
    destruct Hkey as [-> | ->]; reflexivity.
Qed.

Lemma group_write_drops_per_group_sites_witness :
  let s := snd (NavigationCacheManager.getSites (Normal (JArr [3])) (Some 7)
                  false 0 0 (NavigationCacheManager.new 0)) in
  let s' := NavigationCacheManager.invalidate NavigationCacheManager.Groups 10 s in
  fst (NavigationCacheManager.getSites (Throw (Rejected (JStr "offline"))) (Some 7)
         false 20 30 s')
  = Throw (Rejected (JStr "offline")).
Proof.
  intros s.
  destruct (group_write_drops_per_group_sites s 7 ltac:(discriminate)
              (Throw (Rejected (JStr "offline"))) false 10 20 30) as [_ [H _]].
  exact H.
Defined.

Section CacheKeys.
Import NavigationCacheManager.

Lemma to_int_not_nil (z : Z) :
  Z.to_int z <> Decimal.Pos Decimal.Nil /\ Z.to_int z <> Decimal.Neg Decimal.Nil.
Proof.
  assert (H : Z.to_int z = Decimal.norm (Z.to_int z))
    by (rewrite <- DecimalZ.to_of, DecimalZ.of_to; reflexivity).
  rewrite H. destruct (Z.to_int z) as [u|u]; simpl.
  - split; [|discriminate].
    intros [= Hu]. now apply (DecimalFacts.unorm_nonnil u).
  - destruct (Decimal.nzhead u); split; discriminate.
Qed.

Lemma number_toString_inj (a b : Z) :
  number_toString a = number_toString b -> a = b.
Proof.
  unfold number_toString. intros H.
  apply DecimalZ.to_int_inj.
  destruct (to_int_not_nil a) as [Ha1 Ha2].
  destruct (to_int_not_nil b) as [Hb1 Hb2].
  pose proof (NilZero.isi (Z.to_int a) Ha1 Ha2) as Hia.
  pose proof (NilZero.isi (Z.to_int b) Hb1 Hb2) as Hib.
  rewrite H in Hia. congruence.
Qed.

End CacheKeys.

(** X13 (cache keys): the keys of two different groups never coincide, and
    the key of a group is none of the three fixed keys, so reads of
    different collections never share an entry; the group id 0 is the one
    exception: it is read as "no group" and shares the key ["all_sites"]. *)
Theorem group_keys_do_not_collide :
  forall a b : Z,
    a <> 0 -> b <> 0 ->
    (NavigationCacheManager.sitesKey (Some a) = NavigationCacheManager.sitesKey (Some b)
     -> a = b)
    /\ NavigationCacheManager.sitesKey (Some a) <> "all_sites"
    /\ NavigationCacheManager.sitesKey (Some a) <> "groupsWithSites"
    /\ NavigationCacheManager.sitesKey (Some a) <> "configs"
    /\ NavigationCacheManager.sitesKey (Some 0) = NavigationCacheManager.sitesKey None.
Proof.
  intros a b Ha Hb. unfold NavigationCacheManager.sitesKey.
  destruct (Z.eqb_spec a 0); [contradiction|].
  destruct (Z.eqb_spec b 0); [contradiction|].
  repeat split; try discriminate.
  intros H. simpl in H. injection H as H. now apply number_toString_inj.
Qed.

Lemma group_keys_do_not_collide_witness :
  NavigationCacheManager.sitesKey (Some 7) <> "all_sites"
  /\ NavigationCacheManager.sitesKey (Some 0) = NavigationCacheManager.sitesKey None.
Proof.
  destruct (group_keys_do_not_collide 7 12 ltac:(discriminate) ltac:(discriminate))
    as [_ [H1 [_ [_ H2]]]].
  split; [exact H1 | exact H2].
Defined.

(* ================================================================== *)
(** ** Further properties of the search engine *)
(* ================================================================== *)

Section HistoryMore.
Import SmartSearchEngine StatedSearch StatedMore.

Lemma selectFirst_none q selected now h :
  existsb (selectable q now) h = false -> selectFirst q selected now h = h.
Proof.
  induction h as [|item h IH]; simpl; auto.
  destruct (selectable q now item); simpl; [discriminate|].
  intros H. now rewrite IH.
Qed.

Lemma selectFirst_split q selected now h1 :
  forall item h2,
    existsb (selectable q now) h1 = false ->
    selectable q now item = true ->
    selectFirst q selected now (h1 ++ item :: h2)
    = h1 ++ selectedAs selected item :: h2.
Proof.
  induction h1 as [|x h1 IH]; intros item h2 Hnone Hsel; simpl.
  - now rewrite Hsel.
  - simpl in Hnone. apply orb_false_iff in Hnone. destruct Hnone as [Hx Hnone].
    rewrite Hx. now rewrite IH.
Qed.

Lemma search_history query groups sites now e :
  blank query = false ->
  searchHistory (snd (search query (Some groups) (Some sites) now e))
  = firstn (maxHistoryItems e)
      ({| query := query; timestamp := now;
          resultsCount :=
            Z.of_nat (List.length (finalResults (toLowerCase (trim query))
                                                groups sites));
          selectedId := None |} :: searchHistory e).
Proof.
  intros Hb. rewrite search_arrays by exact Hb. cbn [snd].
  rewrite recordSearch_history.
  unfold finalResults, sortByRelevance. now rewrite sort_length.
Qed.

End HistoryMore.

(** X14 ([recordSelection]): the selection goes to the first entry of the
    history, in array order, that has the query and is less than five
    minutes old: that entry receives [selectedId] and nothing else changes,
    neither in it nor in the entries before and after it; when no entry
    qualifies, the engine is unchanged. *)
Theorem selection_marks_first_recent_entry :
  forall (q : string) (selected now : Z) (e : SmartSearchEngine.t)
         (h1 : list SmartSearchEngine.SearchHistoryItem)
         (item : SmartSearchEngine.SearchHistoryItem)
         (h2 : list SmartSearchEngine.SearchHistoryItem),
    SmartSearchEngine.searchHistory e = h1 ++ item :: h2 ->
    existsb (SmartSearchEngine.selectable q now) h1 = false ->
    SmartSearchEngine.query item = q ->
    now - 300000 < SmartSearchEngine.timestamp item ->
    SmartSearchEngine.recordSelection q selected now e
    = {| SmartSearchEngine.searchHistory :=
           h1 ++ StatedMore.selectedAs selected item :: h2;
         SmartSearchEngine.maxHistoryItems := SmartSearchEngine.maxHistoryItems e |}
    /\ forall e0 : SmartSearchEngine.t,
         existsb (SmartSearchEngine.selectable q now)
                 (SmartSearchEngine.searchHistory e0) = false ->
         SmartSearchEngine.recordSelection q selected now e0 = e0.
Proof.
  intros q selected now e h1 item h2 Hh Hnone Hq Ht. split.
  - unfold SmartSearchEngine.recordSelection. rewrite Hh.
    rewrite selectFirst_split; auto.
    unfold SmartSearchEngine.selectable. rewrite Hq, String.eqb_refl. simpl.
    apply Z.gtb_lt. lia.
  - intros e0 H0. unfold SmartSearchEngine.recordSelection.
    rewrite selectFirst_none by exact H0. now destruct e0.
Qed.

Lemma selection_marks_first_recent_entry_witness :
  let old := {| SmartSearchEngine.query := "git"; SmartSearchEngine.timestamp := 10;
                SmartSearchEngine.resultsCount := 2;
                SmartSearchEngine.selectedId := None |} in
  let other := {| SmartSearchEngine.query := "mail"; SmartSearchEngine.timestamp := 900000;
                  SmartSearchEngine.resultsCount := 1;
                  SmartSearchEngine.selectedId := None |} in
  let fresh := {| SmartSearchEngine.query := "git"; SmartSearchEngine.timestamp := 800000;
                  SmartSearchEngine.resultsCount := 3;
                  SmartSearchEngine.selectedId := None |} in
  SmartSearchEngine.recordSelection "git" 42 1000000
    (SmartSearchEngine.new [other; fresh; old])
  = {| SmartSearchEngine.searchHistory :=
         [other; StatedMore.selectedAs 42 fresh; old];
       SmartSearchEngine.maxHistoryItems := 100 |}.
Proof.
  intros old other fresh.
  destruct (selection_marks_first_recent_entry "git" 42 1000000
              (SmartSearchEngine.new [other; fresh; old]) [other] fresh [old])
    as [H _].
  - reflexivity.
  - reflexivity.
  - reflexivity.
  - simpl. lia.
  - exact H.
Defined.

(** X15 (what a search records): a search with a query that is not blank,
    on an engine that keeps at least one history entry, puts at the head of
    the history an entry with the query as typed (neither trimmed nor
    lower-cased), the instant of the search, the number of results it
    returns and no selection; a [recordSelection] for the same query within
    the next five minutes marks exactly that entry. *)
Theorem search_records_query_and_count :
  forall (query : string) (groups : list Group.t) (sites : list Site.t)
         (now : Z) (e : SmartSearchEngine.t),
    SmartSearchEngine.blank query = false ->
    (1 <= SmartSearchEngine.maxHistoryItems e)%nat ->
    exists results rest,
      let e' := snd (SmartSearchEngine.search query (Some groups) (Some sites) now e) in
      let entry := {| SmartSearchEngine.query := query;
                      SmartSearchEngine.timestamp := now;
                      SmartSearchEngine.resultsCount := Z.of_nat (List.length results);
                      SmartSearchEngine.selectedId := None |} in
      fst (SmartSearchEngine.search query (Some groups) (Some sites) now e)
      = Normal results
      /\ SmartSearchEngine.searchHistory e' = entry :: rest
      /\ rest = firstn (SmartSearchEngine.maxHistoryItems e - 1)
                  (SmartSearchEngine.searchHistory e)
      /\ forall selected t,
           t - 300000 < now ->
           SmartSearchEngine.searchHistory
             (SmartSearchEngine.recordSelection query selected t e')
           = StatedMore.selectedAs selected entry :: rest.
Proof.
  intros query groups sites now e Hb Hmax.
  exists (StatedSearch.finalResults (toLowerCase (trim query)) groups sites).
  exists (firstn (SmartSearchEngine.maxHistoryItems e - 1)
            (SmartSearchEngine.searchHistory e)).
  cbv zeta.
  assert (Hh : SmartSearchEngine.searchHistory
                 (snd (SmartSearchEngine.search query (Some groups) (Some sites) now e))
               = {| SmartSearchEngine.query := query;
                    SmartSearchEngine.timestamp := now;
                    SmartSearchEngine.resultsCount :=
                      Z.of_nat (List.length
                                  (StatedSearch.finalResults
                                     (toLowerCase (trim query)) groups sites));
                    SmartSearchEngine.selectedId := None |}
                 :: firstn (SmartSearchEngine.maxHistoryItems e - 1)
                      (SmartSearchEngine.searchHistory e)).
  { rewrite search_history by exact Hb.
    destruct (SmartSearchEngine.maxHistoryItems e) as [|n]; [lia|].
    simpl. now rewrite Nat.sub_0_r. }
  split; [now rewrite search_arrays|]. split; [exact Hh|]. split; [reflexivity|].
  intros selected t Ht.
  unfold SmartSearchEngine.recordSelection. cbn [SmartSearchEngine.searchHistory].
  rewrite Hh. simpl.
  unfold SmartSearchEngine.selectable. cbn [SmartSearchEngine.query
    SmartSearchEngine.timestamp].
  rewrite String.eqb_refl.
  replace (now >? t - 300000) with true by (symmetry; apply Z.gtb_lt; lia).
  reflexivity.
Qed.

Lemma search_records_query_and_count_witness :
  exists results rest,
    fst (SmartSearchEngine.search " Git " (Some [])
           (Some [{| Site.id := 1; Site.group_id := 1; Site.name := "GitHub";
                     Site.url := "https://github.com"; Site.description := None;
                     Site.notes := None; Site.created_at := None |}])
           7 (SmartSearchEngine.new []))
    = Normal results
    /\ SmartSearchEngine.searchHistory
         (snd (SmartSearchEngine.search " Git " (Some [])
                 (Some [{| Site.id := 1; Site.group_id := 1; Site.name := "GitHub";
                           Site.url := "https://github.com";
                           Site.description := None;
                           Site.notes := None; Site.created_at := None |}])
                 7 (SmartSearchEngine.new [])))
       = {| SmartSearchEngine.query := " Git "; SmartSearchEngine.timestamp := 7;
            SmartSearchEngine.resultsCount := Z.of_nat (List.length results);
            SmartSearchEngine.selectedId := None |} :: rest.
Proof.
  destruct (search_records_query_and_count " Git " []
              [{| Site.id := 1; Site.group_id := 1; Site.name := "GitHub";
                  Site.url := "https://github.com"; Site.description := None;
                  Site.notes := None; Site.created_at := None |}]
              7 (SmartSearchEngine.new []))
    as [results [rest [H1 [H2 _]]]].
  - reflexivity.
  - simpl. lia.
  - exists results, rest. split; [exact H1 | exact H2].
Defined.

Section FirstnFacts.
Context {A : Type}.

Lemma In_firstn (x : A) n l : In x (firstn n l) -> In x l.
Proof.
  intros H. rewrite <- (firstn_skipn n l). apply in_or_app. now left.
Qed.

Lemma firstn_length_le_list n (l : list A) : (List.length (firstn n l) <= List.length l)%nat.
Proof. rewrite length_firstn. apply Nat.le_min_r. Qed.

Lemma NoDup_firstn n (l : list A) : NoDup l -> NoDup (firstn n l).
Proof.
  intros H. rewrite <- (firstn_skipn n l) in H.
  now apply NoDup_app_remove_r in H.
Qed.

End FirstnFacts.

Section CollectionsMore.
Import SmartSearchEngine StatedSearch StatedMore.

Lemma resultOf_site s fields score sites groups :
  In s sites -> fromCollections groups sites (resultOf (ISite s) fields score).
Proof. intros H. left. exists s. repeat split; auto. Qed.

Lemma resultOf_group g fields score sites groups :
  In g groups -> fromCollections groups sites (resultOf (IGroup g) fields score).
Proof. intros H. right. exists g. repeat split; auto. Qed.

Lemma resultOf_item item fields score groups sites :
  In item (map ISite sites ++ map IGroup groups) ->
  fromCollections groups sites (resultOf item fields score).
Proof.
  intros H. apply in_app_or in H.
  destruct H as [H|H]; apply in_map_iff in H; destruct H as [x [<- Hx]].
  - now apply resultOf_site.
  - now apply resultOf_group.
Qed.

Lemma basic_fromCollections query groups sites r :
  In r (performBasicSearch_arrays query groups sites) ->
  fromCollections groups sites r.
Proof.
  unfold performBasicSearch_arrays. rewrite <- flat_map_app.
  intros H. apply in_flat_map in H. destruct H as [item [Hitem H]].
  apply basicMatch_result in H. subst r. now apply resultOf_item.
Qed.

Lemma semantic_fromCollections query groups sites r :
  In r (performSemanticSearch_arrays query groups sites) ->
  fromCollections groups sites r.
Proof.
  unfold performSemanticSearch_arrays. rewrite <- flat_map_app.
  intros H. apply in_flat_map in H. destruct H as [item [Hitem H]].
  unfold semanticMatch in H.
  destruct (semanticScoreOf (itemText item) (queryTermsOf query) >? 0);
    [|contradiction].
  destruct H as [<-|[]]. now apply resultOf_item.
Qed.

Lemma smart_fromCollections query groups sites r :
  In r (performSmartSearch_arrays query groups sites) ->
  fromCollections groups sites r.
Proof.
  unfold performSmartSearch_arrays. intros H.
  apply in_map_iff in H. destruct H as [[item score] [<- H]].
  apply In_firstn, sort_In, filter_In in H. destruct H as [H _].
  apply resultOf_item. simpl.
  apply in_app_or in H. apply in_or_app.
  destruct H as [H|H]; apply in_map_iff in H; destruct H as [x [[= <- _] Hx]];
    [left|right]; now apply in_map.
Qed.

Lemma smart_length query groups sites :
  (List.length (performSmartSearch_arrays query groups sites) <= 20)%nat.
Proof.
  unfold performSmartSearch_arrays. rewrite length_map. apply firstn_le_length.
Qed.

End CollectionsMore.

(** X16 (results come from the collections): every result of a search is
    the entry of a site or of a group of the collections given to that
    call, with its kind, id, name and url; so empty collections give an
    empty list, for a blank query too, which also never returns more than
    ten results, never a group, and records nothing. *)
Theorem results_come_from_the_collections :
  forall (query : string) (groups : list Group.t) (sites : list Site.t)
         (now : Z) (e : SmartSearchEngine.t),
    exists results,
      fst (SmartSearchEngine.search query (Some groups) (Some sites) now e)
      = Normal results
      /\ Forall (StatedMore.fromCollections groups sites) results
      /\ (if SmartSearchEngine.blank query
          then (List.length results <= 10)%nat
               /\ (List.length results <= List.length sites)%nat
               /\ Forall (fun r => SmartSearchEngine.type r = SmartSearchEngine.site
                                   /\ SmartSearchEngine.matchedFields r = ["name"])
                         results
               /\ snd (SmartSearchEngine.search query (Some groups) (Some sites) now e)
                  = e
          else True)
      /\ fst (SmartSearchEngine.search query (Some []) (Some []) now e) = Normal [].
Proof.
  intros query groups sites now e.
  destruct (SmartSearchEngine.blank query) eqn:Hb.
  - rewrite !search_blank by exact Hb. simpl.
    eexists. split; [reflexivity|]. split; [|split; [|reflexivity]].
    + apply Forall_forall. intros r Hr. apply in_map_iff in Hr.
      destruct Hr as [s [<- Hs]]. apply resultOf_site.
      apply In_firstn in Hs. now apply sort_In in Hs.
    + split; [|split; [|split]].
      * rewrite length_map. apply firstn_le_length.
      * rewrite length_map. etransitivity; [apply firstn_length_le_list|].
        now rewrite sort_length.
      * apply Forall_forall. intros r Hr. apply in_map_iff in Hr.
        destruct Hr as [s [<- Hs]]. split; reflexivity.
      * reflexivity.
  - rewrite !search_arrays by exact Hb. simpl.
    eexists. split; [reflexivity|]. split; [|split; [exact I|reflexivity]].
    apply Forall_forall. intros r Hr.
    change (In r (StatedSearch.finalResults (toLowerCase (trim query)) groups sites))
      in Hr.
    apply finalResults_In in Hr. apply unseen_first in Hr.
    destruct Hr as [l1 [l2 [Heq _]]].
    assert (Hin : In r (SmartSearchEngine.performBasicSearch_arrays
                          (toLowerCase (trim query)) groups sites
                        ++ SmartSearchEngine.performSmartSearch_arrays
                             (toLowerCase (trim query)) groups sites
                        ++ SmartSearchEngine.performSemanticSearch_arrays
                             (toLowerCase (trim query)) groups sites))
      by (rewrite Heq; apply in_or_app; right; now left).
    apply in_app_or in Hin. destruct Hin as [Hin|Hin].
    + eapply basic_fromCollections; eauto.
    + apply in_app_or in Hin. destruct Hin as [Hin|Hin].
      * eapply smart_fromCollections; eauto.
      * eapply semantic_fromCollections; eauto.
Qed.

(* ------------------------------------------------------------------ *)
(** *** Suggestions *)

Section CountsFacts.
Import SmartSearchEngine StatedSearch StatedMore.

Lemma counts_get_set_same k n m : counts_get k (counts_set k n m) = Some n.
Proof.
  induction m as [|[k' n'] m IH]; simpl.
  - now rewrite String.eqb_refl.
  - destruct (String.eqb_spec k' k) as [->|Hne]; simpl.
    + now rewrite String.eqb_refl.
    + destruct (String.eqb_spec k' k); [contradiction|exact IH].
Qed.

Lemma counts_get_set_other k k' n m :
  k' <> k -> counts_get k' (counts_set k n m) = counts_get k' m.
Proof.
  intros Hne. induction m as [|[k0 n0] m IH]; simpl.
  - destruct (String.eqb_spec k k'); congruence.
  - destruct (String.eqb_spec k0 k) as [->|Hk]; simpl.
    + destruct (String.eqb_spec k k'); congruence.
    + now rewrite IH.
Qed.

Lemma counts_set_keys k n m :
  forall k', In k' (map fst (counts_set k n m)) <-> k' = k \/ In k' (map fst m).
Proof.
  induction m as [|[k0 n0] m IH]; intros k'; simpl.
  - intuition.
  - destruct (String.eqb_spec k0 k) as [->|Hk]; simpl.
    + intuition.
    + rewrite IH. intuition.
Qed.

Lemma counts_set_NoDup k n m :
  NoDup (map fst m) -> NoDup (map fst (counts_set k n m)).
Proof.
  induction m as [|[k0 n0] m IH]; simpl; intros Hnd.
  - repeat constructor. simpl. tauto.
  - inversion Hnd as [|? ? Hk Hm]; subst.
    destruct (String.eqb_spec k0 k) as [->|Hne]; simpl.
    + now constructor.
    + constructor; auto. rewrite counts_set_keys. intros [->|H]; auto.
Qed.

Lemma counts_get_unique k n m :
  NoDup (map fst m) -> In (k, n) m -> counts_get k m = Some n.
Proof.
  induction m as [|[k0 n0] m IH]; simpl; [contradiction|].
  intros Hnd Hin. inversion Hnd as [|? ? Hk Hm]; subst.
  destruct Hin as [[= -> ->]|Hin].
  - now rewrite String.eqb_refl.
  - destruct (String.eqb_spec k0 k) as [->|Hne]; auto.
    exfalso. apply Hk. apply in_map_iff. now exists (k, n).
Qed.

Lemma countQuery_countOf m item q :
  countOf (countQuery m item) q
  = countOf m q + (if string_dec (query item) q then 1 else 0).
Proof.
  unfold countQuery, countOf.
  assert (Hn : match counts_get (query item) m with
               | Some n => if n =? 0 then 0 else n
               | None => 0
               end
               = match counts_get (query item) m with
                 | Some n => n
                 | None => 0
                 end).
  { destruct (counts_get (query item) m) as [n|]; auto.
    destruct (Z.eqb_spec n 0); auto. }
  rewrite Hn.
  destruct (string_dec (query item) q) as [->|Hne].
  - now rewrite counts_get_set_same.
  - rewrite counts_get_set_other by congruence. lia.
Qed.

Lemma fold_countQuery_countOf h :
  forall m q,
    countOf (fold_left countQuery h m) q
    = countOf m q + Z.of_nat (count_occ string_dec (map query h) q).
Proof.
  induction h as [|item h IH]; intros m q; simpl; [lia|].
  rewrite IH, countQuery_countOf.
  destruct (string_dec (query item) q); lia.
Qed.

Lemma fold_countQuery_NoDup h :
  forall m, NoDup (map fst m) -> NoDup (map fst (fold_left countQuery h m)).
Proof.
  induction h as [|item h IH]; intros m Hnd; simpl; auto.
  apply IH. unfold countQuery. now apply counts_set_NoDup.
Qed.

(** What [getPopularQueries] returns: distinct queries, each with the
    number of its occurrences in the history. *)
Lemma getPopularQueries_spec e :
  NoDup (map fst (getPopularQueries e))
  /\ (List.length (getPopularQueries e) <= 10)%nat
  /\ forall q n, In (q, n) (getPopularQueries e) ->
                 n = occurrences q (searchHistory e) /\ 1 <= n.
Proof.
  unfold getPopularQueries.
  set (counts := fold_left countQuery (searchHistory e) []).
  assert (Hnd : NoDup (map fst counts))
    by (apply fold_countQuery_NoDup; constructor).
  split; [|split].
  - rewrite <- firstn_map. apply NoDup_firstn.
    eapply Permutation_NoDup; [|exact Hnd].
    apply Permutation_map, sort_perm.
  - apply firstn_le_length.
  - intros q n Hin. apply In_firstn, sort_In in Hin.
    pose proof (counts_get_unique q n counts Hnd Hin) as Hg.
    pose proof (fold_countQuery_countOf (searchHistory e) [] q) as Hc.
    fold counts in Hc. unfold countOf in Hc. rewrite Hg in Hc. simpl in Hc.
    split; [exact Hc|].
    assert (Hocc : In q (map query (searchHistory e))).
    { clear Hg Hc. unfold counts in Hin. clear counts Hnd.
      assert (Hgen : forall h m, In (q, n) (fold_left countQuery h m) ->
                                 In q (map fst m) \/ In q (map query h)).
      { induction h as [|item h IH]; intros m H; simpl in *.
        - left. apply in_map_iff. now exists (q, n).
        - apply IH in H. destruct H as [H|H]; auto.
          unfold countQuery in H. apply counts_set_keys in H.
          destruct H as [->|H]; auto. }
      destruct (Hgen _ _ Hin) as [H|H]; [contradiction|exact H]. }
    rewrite (count_occ_In string_dec) in Hocc. lia.
Qed.

End CountsFacts.

Section SuggestionFacts.
Import SmartSearchEngine StatedSearch StatedMore.

Lemma findIndex_found {A} (p : A -> bool) pre :
  forall suf,
    existsb p pre = true ->
    findIndex p (pre ++ suf) = findIndex p pre
    /\ 0 <= findIndex p pre < Z.of_nat (List.length pre).
Proof.
  induction pre as [|a pre IH]; intros suf; simpl; [discriminate|].
  destruct (p a); simpl.
  - intros _. split; [reflexivity|lia].
  - intros H. destruct (IH suf H) as [Heq Hr]. rewrite Heq.
    destruct (Z.ltb_spec (findIndex p pre) 0); split; auto; lia.
Qed.

Lemma findIndex_after {A} (p : A -> bool) pre :
  forall x suf,
    existsb p pre = false -> p x = true ->
    findIndex p (pre ++ x :: suf) = Z.of_nat (List.length pre).
Proof.
  induction pre as [|a pre IH]; intros x suf Hnone Hx; simpl.
  - now rewrite Hx.
  - simpl in Hnone. apply orb_false_iff in Hnone. destruct Hnone as [Ha Hnone].
    rewrite Ha, (IH x suf Hnone Hx).
    destruct (Z.ltb_spec (Z.of_nat (List.length pre)) 0); lia.
Qed.

(** The index test of [getAutocompleteSuggestions] keeps the first
    suggestion of each text. *)
Lemma first_index_filter suf :
  forall pre,
    map fst
      (filter (fun xi =>
                 findIndex (fun t => (text t =? text (fst xi))%string) (pre ++ suf)
                 =? snd xi)
              (combine suf (map Z.of_nat (seq (List.length pre) (List.length suf)))))
    = firstByText pre suf.
Proof.
  induction suf as [|x suf IH]; intros pre; simpl; auto.
  specialize (IH (pre ++ [x])).
  rewrite <- app_assoc in IH. simpl in IH.
  rewrite length_app in IH. simpl in IH. rewrite Nat.add_1_r in IH.
  destruct (existsb (fun t => (text t =? text x)%string) pre) eqn:Hseen.
  - destruct (findIndex_found (fun t => (text t =? text x)%string) pre (x :: suf) Hseen)
      as [Heq Hr].
    rewrite Heq.
    destruct (Z.eqb_spec (findIndex (fun t => (text t =? text x)%string) pre)
                (Z.of_nat (List.length pre))); [lia|].
    exact IH.
  - rewrite (findIndex_after _ pre x suf Hseen (String.eqb_refl _)).
    rewrite Z.eqb_refl. simpl. now rewrite IH.
Qed.

Lemma getAutocompleteSuggestions_spec query groups sites :
  getAutocompleteSuggestions query groups sites
  = firstByText []
      (flat_map (fun s => autocompleteOf (toLowerCase query) query (Site.name s)) sites
       ++ flat_map (fun g => autocompleteOf (toLowerCase query) query (Group.name g))
            groups).
Proof.
  unfold getAutocompleteSuggestions, filter_indexed.
  apply (first_index_filter _ []).
Qed.

Lemma text_seen x seen :
  existsb (fun t => (text t =? text x)%string) seen = false
  <-> ~ In (text x) (map text seen).
Proof.
  split.
  - intros H Hin. apply in_map_iff in Hin. destruct Hin as [t [Ht Hin]].
    assert (Hex : existsb (fun t => (text t =? text x)%string) seen = true).
    { apply existsb_exists. exists t. split; auto. now apply String.eqb_eq. }
    congruence.
  - intros H. apply not_true_is_false. intros Hex.
    apply existsb_exists in Hex. destruct Hex as [t [Hin Ht]].
    apply String.eqb_eq in Ht. apply H. apply in_map_iff. now exists t.
Qed.

Lemma firstByText_In x l :
  forall seen,
    In x (firstByText seen l) -> In x l /\ ~ In (text x) (map text seen).
Proof.
  induction l as [|y l IH]; intros seen; simpl; [contradiction|].
  assert (Hrest : In x (firstByText (seen ++ [y]) l) ->
                  In x l /\ ~ In (text x) (map text seen)).
  { intros H. destruct (IH _ H) as [H1 H2]. split; auto.
    intros Hin. apply H2. rewrite map_app. apply in_or_app. now left. }
  destruct (existsb (fun t => (text t =? text y)%string) seen) eqn:E.
  - intros H. destruct (Hrest H). auto.
  - intros [->|H].
    + split; auto. now apply text_seen.
    + destruct (Hrest H). auto.
Qed.

Lemma firstByText_NoDup l :
  forall seen, NoDup (map text (firstByText seen l)).
Proof.
  induction l as [|y l IH]; intros seen; simpl; [constructor|].
  destruct (existsb (fun t => (text t =? text y)%string) seen); auto.
  simpl. constructor; auto.
  intros Hin. apply in_map_iff in Hin. destruct Hin as [x [Hx Hin]].
  apply firstByText_In in Hin. destruct Hin as [_ Hn].
  apply Hn. rewrite map_app. apply in_or_app. right. simpl. auto.
Qed.

Lemma merge_suggestions_In x extra :
  forall acc,
    In x (fold_left (fun acc suggestion =>
                       if existsb (fun s => (text s =? text suggestion)%string) acc
                       then acc else acc ++ [suggestion]) extra acc) ->
    In x acc \/ In x extra.
Proof.
  induction extra as [|y extra IH]; intros acc; simpl; auto.
  intros H. apply IH in H. destruct H as [H|H]; auto.
  destruct (existsb (fun s => (text s =? text y)%string) acc); auto.
  apply in_app_or in H. destruct H as [H|[<-|[]]]; auto.
Qed.

Lemma merge_suggestions_NoDup extra :
  forall acc,
    NoDup (map text acc) ->
    NoDup (map text
             (fold_left (fun acc suggestion =>
                           if existsb (fun s => (text s =? text suggestion)%string) acc
                           then acc else acc ++ [suggestion]) extra acc)).
Proof.
  induction extra as [|y extra IH]; intros acc Hnd; simpl; auto.
  apply IH.
  destruct (existsb (fun s => (text s =? text y)%string) acc) eqn:E; auto.
  rewrite map_app. simpl.
  apply text_seen in E.
  apply NoDup_app; auto.
  - repeat constructor. simpl. tauto.
  - intros a Ha [<-|[]]. contradiction.
Qed.

End SuggestionFacts.

(** X17 ([getSuggestions]): at most five suggestions are returned, no two
    with the same text and none with the text of the query itself. A
    suggestion of kind [popular] is a past query that contains the query,
    case-insensitively, and its count is the number of entries of the
    history with that query, at least one; a suggestion of kind [related]
    has no count and is the name of a site or of a group of the collections
    that starts with the query, case-insensitively. *)
Theorem suggestions_are_sound :
  forall (query : string) (groups : list Group.t) (sites : list Site.t)
         (e : SmartSearchEngine.t),
    let result := SmartSearchEngine.getSuggestions query groups sites e in
    (List.length result <= 5)%nat
    /\ NoDup (map SmartSearchEngine.text result)
    /\ Forall
         (fun s =>
            SmartSearchEngine.text s <> query
            /\ ((SmartSearchEngine.kind s = SmartSearchEngine.popular
                 /\ SmartSearchEngine.count s
                    = Some (StatedMore.occurrences (SmartSearchEngine.text s)
                              (SmartSearchEngine.searchHistory e))
                 /\ 1 <= StatedMore.occurrences (SmartSearchEngine.text s)
                           (SmartSearchEngine.searchHistory e)
                 /\ includes (toLowerCase (SmartSearchEngine.text s))
                             (toLowerCase query) = true)
                \/ (SmartSearchEngine.kind s = SmartSearchEngine.related
                    /\ SmartSearchEngine.count s = None
                    /\ startsWith (toLowerCase (SmartSearchEngine.text s))
                                  (toLowerCase query) = true
                    /\ (In (SmartSearchEngine.text s) (map Site.name sites)
                        \/ In (SmartSearchEngine.text s) (map Group.name groups)))))
         result.
Proof.
  intros query groups sites e result.
  destruct (getPopularQueries_spec e) as [Hnd [_ Hcount]].
  unfold result, SmartSearchEngine.getSuggestions.
  set (fromHistory :=
         flat_map (fun tc =>
                     if includes (toLowerCase (fst tc)) (toLowerCase query)
                        && negb (fst tc =? query)%string
                     then [{| SmartSearchEngine.text := fst tc;
                              SmartSearchEngine.kind := SmartSearchEngine.popular;
                              SmartSearchEngine.count := Some (snd tc) |}]
                     else [])
                  (SmartSearchEngine.getPopularQueries e)).
  assert (HP : NoDup (map SmartSearchEngine.text fromHistory)).
  { unfold fromHistory. clear Hcount.
    induction (SmartSearchEngine.getPopularQueries e) as [|[q n] l IH]; simpl;
      [constructor|].
    inversion Hnd as [|? ? Hq Hl]; subst.
    destruct (includes (toLowerCase q) (toLowerCase query)
              && negb (q =? query)%string); simpl; auto.
    constructor; auto.
    intros Hin. apply Hq. apply in_map_iff in Hin.
    destruct Hin as [s [Hs Hin]]. apply in_flat_map in Hin.
    destruct Hin as [[q' n'] [Hin' Hs']]. simpl in Hs'.
    destruct (includes (toLowerCase q') (toLowerCase query)
              && negb (q' =? query)%string); [|contradiction].
    destruct Hs' as [<-|[]]. simpl in Hs. subst q'.
    apply in_map_iff. now exists (q, n'). }
  split; [apply firstn_le_length|]. split.
  - rewrite <- firstn_map. apply NoDup_firstn.
    now apply merge_suggestions_NoDup.
  - apply Forall_forall. intros s Hs.
    apply In_firstn, merge_suggestions_In in Hs. destruct Hs as [Hs|Hs].
    + unfold fromHistory in Hs. apply in_flat_map in Hs.
      destruct Hs as [[q n] [Hin Hs]]. simpl in Hs.
      destruct (includes (toLowerCase q) (toLowerCase query)) eqn:Hinc;
        [|contradiction].
      destruct (String.eqb_spec q query) as [->|Hne]; [contradiction|].
      simpl in Hs. destruct Hs as [<-|[]]. simpl.
      destruct (Hcount q n Hin) as [Hn H1].
      split; auto. left. repeat split; auto; congruence.
    + rewrite getAutocompleteSuggestions_spec in Hs.
      apply firstByText_In in Hs. destruct Hs as [Hs _].
      assert (Hone : forall name,
                 In s (SmartSearchEngine.autocompleteOf (toLowerCase query) query name) ->
                 SmartSearchEngine.text s = name
                 /\ name <> query
                 /\ SmartSearchEngine.kind s = SmartSearchEngine.related
                 /\ SmartSearchEngine.count s = None
                 /\ startsWith (toLowerCase name) (toLowerCase query) = true).
      { intros name H. unfold SmartSearchEngine.autocompleteOf in H.
        destruct (startsWith (toLowerCase name) (toLowerCase query)) eqn:Hst;
          [|contradiction].
        destruct (String.eqb_spec name query); [contradiction|].
        simpl in H. destruct H as [<-|[]]. auto. }
      apply in_app_or in Hs.
      destruct Hs as [Hs|Hs]; apply in_flat_map in Hs;
        destruct Hs as [x [Hx Hs]]; apply Hone in Hs;
        destruct Hs as [Ht [Hne [Hk [Hc Hst]]]].
      * split; [congruence|]. right. rewrite Ht. repeat split; auto.
        left. now apply in_map.
      * split; [congruence|]. right. rewrite Ht. repeat split; auto.
        right. now apply in_map.
Qed.

(* ------------------------------------------------------------------ *)
(** *** The weighted score and the fuzzy match *)

Section FuzzyFacts.
Import SmartSearchEngine StatedSearch StatedMore.

Lemma prefix_refl s : prefix s s = true.
Proof.
  induction s as [|c s IH]; simpl; auto.
  destruct (ascii_dec c c); [exact IH|contradiction].
Qed.

Lemma prefix_app p :
  forall s t, prefix p s = true -> prefix p (s ++ t) = true.
Proof.
  induction p as [|c p IH]; intros [|a s] t; simpl;
    try (intros H; discriminate); try (destruct t; reflexivity); auto.
  destruct (ascii_dec c a); [apply IH|intros H; discriminate].
Qed.

Lemma includes_app_l s :
  forall t sub, includes s sub = true -> includes (s ++ t) sub = true.
Proof.
  induction s as [|a s IH]; intros t sub H.
  - assert (sub = EmptyString) as ->.
    { destruct sub; [reflexivity|simpl in H; discriminate]. }
    destruct t; reflexivity.
  - change (includes (String a s) sub)
      with (prefix sub (String a s) || includes s sub) in H.
    change (includes (String a s ++ t) sub)
      with (prefix sub (String a s ++ t) || includes (s ++ t) sub).
    apply orb_true_iff in H. destruct H as [H|H].
    + now rewrite (prefix_app sub (String a s) t H).
    + rewrite (IH t sub H). apply orb_true_r.
Qed.

(** Removing the first character of the pattern, or adding one in front of
    the text, keeps a match of the loop of [fuzzyMatch]. *)
Lemma fuzzy_loop_drop s :
  forall c p, fuzzy_loop s (String c p) = true -> fuzzy_loop s p = true.
Proof.
  induction s as [|a s IH]; intros c p; simpl; [intros H; discriminate|].
  assert (Hcons : forall q, fuzzy_loop s q = true -> fuzzy_loop (String a s) q = true).
  { intros [|c' q] H; simpl; auto.
    destruct (Ascii.eqb a c'); auto. now apply (IH c'). }
  destruct (Ascii.eqb a c); intros H.
  - now apply Hcons.
  - apply Hcons. now apply (IH c).
Qed.

Lemma fuzzy_loop_cons a s p :
  fuzzy_loop s p = true -> fuzzy_loop (String a s) p = true.
Proof.
  destruct p as [|c p]; simpl; auto.
  intros H. destruct (Ascii.eqb a c); auto. now apply (fuzzy_loop_drop s c).
Qed.

Lemma prefix_fuzzy p :
  forall s, prefix p s = true -> fuzzy_loop s p = true.
Proof.
  induction p as [|c p IH]; intros [|a s]; simpl; auto;
    try (intros H; discriminate).
  destruct (ascii_dec c a) as [->|]; [|intros H; discriminate].
  rewrite Ascii.eqb_refl. apply IH.
Qed.

Lemma includes_fuzzy s :
  forall p, includes s p = true -> fuzzy_loop s p = true.
Proof.
  induction s as [|a s IH]; intros p H.
  - assert (p = EmptyString) as ->.
    { destruct p; [reflexivity|simpl in H; discriminate]. }
    reflexivity.
  - change (includes (String a s) p)
      with (prefix p (String a s) || includes s p) in H.
    apply orb_true_iff in H. destruct H as [H|H].
    + now apply prefix_fuzzy.
    + apply fuzzy_loop_cons. now apply IH.
Qed.

Lemma fuzzy_loop_length s :
  forall p, fuzzy_loop s p = true -> (String.length p <= String.length s)%nat.
Proof.
  induction s as [|a s IH]; intros [|c p]; simpl; try lia;
    try (intros H; discriminate).
  destruct (Ascii.eqb a c); intros H; apply IH in H; simpl in H; lia.
Qed.

Lemma fuzzyMatch_loop s p : fuzzyMatch s p = fuzzy_loop s p.
Proof.
  unfold fuzzyMatch.
  destruct (Nat.eqb_spec (String.length p) 0) as [H0|H0].
  - destruct p; [destruct s; reflexivity|discriminate].
  - destruct (Nat.ltb_spec (String.length s) (String.length p)) as [Hlt|Hge]; auto.
    destruct (fuzzy_loop s p) eqn:E; auto.
    apply fuzzy_loop_length in E. lia.
Qed.

(** The four branches of the weighted score are nested: a term scores
    exactly when it matches fuzzily. *)
Lemma termScore_positive text term :
  Qden (termScore text term) = 1%positive
  /\ 0 <= Qnum (termScore text term)
  /\ (0 < Qnum (termScore text term) <-> fuzzyMatch text term = true).
Proof.
  unfold termScore. rewrite fuzzyMatch_loop.
  destruct (String.eqb_spec text term) as [->|Hne].
  - simpl. repeat split; try lia. intros _. apply prefix_fuzzy, prefix_refl.
  - destruct (startsWith text term) eqn:Hs.
    + simpl. repeat split; try lia. intros _. now apply prefix_fuzzy.
    + destruct (includes text term) eqn:Hi.
      * simpl. repeat split; try lia. intros _. now apply includes_fuzzy.
      * rewrite <- fuzzyMatch_loop.
        destruct (fuzzyMatch text term); simpl; repeat split; try lia;
          try discriminate; auto.
Qed.

Lemma score_fold text terms :
  forall acc : Z,
    fold_left (fun score term => (score + termScore text term)%Q) terms (inject_Z acc)
    = inject_Z
        (acc + fold_right Z.add 0 (map (fun term => Qnum (termScore text term)) terms)).
Proof.
  induction terms as [|term terms IH]; intros acc; simpl.
  - now rewrite Z.add_0_r.
  - destruct (termScore_positive text term) as [Hden _].
    assert (Hstep : (inject_Z acc + termScore text term)%Q
                    = inject_Z (acc + Qnum (termScore text term))).
    { destruct (termScore text term) as [n d]. simpl in *. subst d.
      unfold Qplus, inject_Z. simpl. f_equal. lia. }
    rewrite Hstep, IH. f_equal. lia.
Qed.

Lemma points_positive text terms :
  0 <= fold_right Z.add 0 (map (fun term => Qnum (termScore text term)) terms)
  /\ (0 < fold_right Z.add 0 (map (fun term => Qnum (termScore text term)) terms)
      <-> exists term, In term terms /\ fuzzyMatch text term = true).
Proof.
  induction terms as [|term terms [IH0 IH]]; simpl.
  - split; [lia|]. split; [lia|]. intros [t [[] _]].
  - destruct (termScore_positive text term) as [_ [H0 Hpos]].
    split; [lia|]. split.
    + intros H.
      destruct (Z.lt_ge_cases 0 (Qnum (termScore text term))) as [Ht|Ht].
      * exists term. split; auto. now apply Hpos.
      * assert (Hrest : 0 < fold_right Z.add 0
                              (map (fun t => Qnum (termScore text t)) terms)) by lia.
        apply IH in Hrest. destruct Hrest as [t [Hin Hm]]. exists t. auto.
    + intros [t [[<-|Hin] Hm]].
      * apply Hpos in Hm. lia.
      * assert (Hrest : 0 < fold_right Z.add 0
                              (map (fun t => Qnum (termScore text t)) terms))
          by (apply IH; eauto).
        lia.
Qed.

End FuzzyFacts.

(** X18 (who enters pass 2): the weighted score of an item is positive,
    which is what [performSmartSearch] filters on, exactly when one of the
    query terms matches the item's text fuzzily, that is when its
    characters occur in the text in order; an exact, prefix or substring
    match of a term is a fuzzy match too. Pass 2 never returns more than 20
    results. *)
Theorem positive_score_iff_fuzzy_match :
  forall (item : SmartSearchEngine.Item) (queryTerms : list string),
    ((0 <? SmartSearchEngine.Qsign
             (SmartSearchEngine.calculateRelevanceScore item queryTerms)) = true
     <-> exists term,
           In term queryTerms
           /\ SmartSearchEngine.fuzzyMatch
                (toLowerCase (SmartSearchEngine.getItemTextForScoring item)) term
              = true)
    /\ (forall text term,
          includes text term = true -> SmartSearchEngine.fuzzyMatch text term = true)
    /\ (forall query groups sites,
          (List.length (SmartSearchEngine.performSmartSearch_arrays query groups sites)
           <= 20)%nat).
Proof.
  intros item queryTerms. split; [|split].
  - unfold SmartSearchEngine.calculateRelevanceScore.
    set (text := toLowerCase (SmartSearchEngine.getItemTextForScoring item)).
    change 0%Q with (inject_Z 0). rewrite score_fold. rewrite Z.add_0_l.
    destruct (points_positive text queryTerms) as [H0 Hpos].
    set (points := fold_right Z.add 0
                     (map (fun term => Qnum (SmartSearchEngine.termScore text term))
                          queryTerms)) in *.
    rewrite <- Hpos.
    assert (Hsgn : forall z : Z, 0 < Z.sgn z <-> 0 < z)
      by (intros [|z|z]; simpl; lia).
    destruct (List.length (filter (fun term => includes text term) queryTerms)
              =? List.length queryTerms)%nat;
      unfold SmartSearchEngine.Qsign; simpl; rewrite Z.ltb_lt, Hsgn; lia.
  - intros text term H. rewrite fuzzyMatch_loop. now apply includes_fuzzy.
  - intros query groups sites. apply smart_length.
Qed.

Lemma positive_score_iff_fuzzy_match_witness :
  SmartSearchEngine.fuzzyMatch "github" "hub" = true.
Proof.
  destruct (positive_score_iff_fuzzy_match
              (SmartSearchEngine.IGroup {| Group.id := 1; Group.name := "x" |}) [])
    as [_ [H _]].
  apply H. reflexivity.
Defined.

Section SimilarityFacts.
Import SmartSearchEngine StatedSearch StatedMore.

Lemma commonChars_sym s1 :
  forall s2, commonChars s1 s2 = commonChars s2 s1.
Proof.
  induction s1 as [|a s1 IH]; intros [|b s2]; simpl; auto.
  rewrite IH. now rewrite (Ascii.eqb_sym a b).
Qed.

Lemma commonChars_le s1 :
  forall s2, (commonChars s1 s2 <= Nat.max (String.length s1) (String.length s2))%nat.
Proof.
  induction s1 as [|a s1 IH]; intros [|b s2]; simpl; try lia.
  specialize (IH s2). destruct (Ascii.eqb a b); lia.
Qed.

Lemma calculateSimilarity_sym a b :
  calculateSimilarity a b = calculateSimilarity b a.
Proof.
  unfold calculateSimilarity.
  rewrite (String.eqb_sym (toLowerCase a) (toLowerCase b)).
  rewrite (orb_comm (includes (toLowerCase a) (toLowerCase b))).
  rewrite (commonChars_sym (toLowerCase a) (toLowerCase b)).
  now rewrite (Nat.max_comm (String.length (toLowerCase a))).
Qed.

Lemma quotient_bounds (c m : nat) :
  (c <= m)%nat ->
  (0 <= inject_Z (Z.of_nat c) / inject_Z (Z.of_nat m))%Q
  /\ (inject_Z (Z.of_nat c) / inject_Z (Z.of_nat m) <= 1)%Q.
Proof.
  intros Hle. destruct m as [|m].
  - assert (c = 0)%nat by lia. subst c. split; discriminate.
  - assert (HT : (0 < inject_Z (Z.of_nat (S m)))%Q).
    { change 0%Q with (inject_Z 0). rewrite <- Zlt_Qlt. lia. }
    split.
    + apply Qle_shift_div_l; auto. rewrite Qmult_0_l.
      change 0%Q with (inject_Z 0). rewrite <- Zle_Qle. lia.
    + apply Qle_shift_div_r; auto. rewrite Qmult_1_l.
      rewrite <- Zle_Qle. lia.
Qed.

End SimilarityFacts.

(** X19 (the similarity measure): [calculateSimilarity] does not depend on
    the order of its two arguments nor on their case, its value lies
    between 0 and 1, and it is 1 for two strings that are equal up to
    case; so the test "similarity above 0.7" of the semantic pass is
    symmetric as well. *)
Theorem similarity_is_symmetric_and_bounded :
  forall a b : string,
    SmartSearchEngine.calculateSimilarity a b = SmartSearchEngine.calculateSimilarity b a
    /\ SmartSearchEngine.similar a b = SmartSearchEngine.similar b a
    /\ (0 <= SmartSearchEngine.calculateSimilarity a b)%Q
    /\ (SmartSearchEngine.calculateSimilarity a b <= 1)%Q
    /\ SmartSearchEngine.calculateSimilarity a a = 1%Q
    /\ SmartSearchEngine.calculateSimilarity (toLowerCase a) b
       = SmartSearchEngine.calculateSimilarity a b.
Proof.
  intros a b.
  assert (Hidem : forall s, toLowerCase (toLowerCase s) = toLowerCase s).
  { induction s as [|c s IH]; simpl; [reflexivity|]. rewrite IH. f_equal.
    unfold lower_ascii.
    destruct ((65 <=? nat_of_ascii c)%nat && (nat_of_ascii c <=? 90)%nat) eqn:E.
    - apply andb_true_iff in E. destruct E as [E1 E2].
      apply Nat.leb_le in E1. apply Nat.leb_le in E2.
      rewrite nat_ascii_embedding by lia.
      replace ((65 <=? nat_of_ascii c + 32)%nat
               && (nat_of_ascii c + 32 <=? 90)%nat) with false; auto.
      symmetry. apply andb_false_iff. right. apply Nat.leb_gt. lia.
    - now rewrite E. }
  split; [apply calculateSimilarity_sym|].
  split; [unfold SmartSearchEngine.similar; now rewrite calculateSimilarity_sym|].
  assert (Hb : (0 <= SmartSearchEngine.calculateSimilarity a b)%Q
               /\ (SmartSearchEngine.calculateSimilarity a b <= 1)%Q).
  { unfold SmartSearchEngine.calculateSimilarity.
    destruct (toLowerCase a =? toLowerCase b)%string; [split; discriminate|].
    destruct (includes (toLowerCase a) (toLowerCase b)
              || includes (toLowerCase b) (toLowerCase a)); [split; discriminate|].
    apply quotient_bounds, commonChars_le. }
  split; [apply Hb|]. split; [apply Hb|]. split.
  - unfold SmartSearchEngine.calculateSimilarity. now rewrite String.eqb_refl.
  - unfold SmartSearchEngine.calculateSimilarity. now rewrite Hidem.
Qed.

Section FieldFacts.
Import SmartSearchEngine StatedSearch StatedMore.

Lemma site_text_fields s :
  getItemTextForScoring (ISite s)
  = (toLowerCase (Site.name s) ++ " " ++ toLowerCase (Site.url s) ++ " "
     ++ toLowerCase (or_empty (Site.description s)) ++ " "
     ++ toLowerCase (or_empty (Site.notes s)))%string.
Proof.
  unfold getItemTextForScoring.
  rewrite !toLowerCase_app. reflexivity.
Qed.

Lemma field_matches_includes o query :
  field_matches o query = true -> includes (toLowerCase (or_empty o)) query = true.
Proof.
  destruct o as [s|]; simpl; [|intros H; discriminate].
  intros H. apply andb_true_iff in H. tauto.
Qed.

Lemma site_field_in_text s query :
  includes (toLowerCase (Site.name s)) query = true
  \/ includes (toLowerCase (Site.url s)) query = true
  \/ includes (toLowerCase (or_empty (Site.description s))) query = true
  \/ includes (toLowerCase (or_empty (Site.notes s))) query = true ->
  matchesQuery (ISite s) query = true.
Proof.
  unfold matchesQuery. rewrite site_text_fields.
  intros [H|[H|[H|H]]].
  - apply (includes_app_l (toLowerCase (Site.name s))). exact H.
  - apply (includes_app_r (toLowerCase (Site.name s))).
    apply (includes_app_r " ").
    apply (includes_app_l (toLowerCase (Site.url s))). exact H.
  - apply (includes_app_r (toLowerCase (Site.name s))).
    apply (includes_app_r " ").
    apply (includes_app_r (toLowerCase (Site.url s))).
    apply (includes_app_r " ").
    apply (includes_app_l (toLowerCase (or_empty (Site.description s)))). exact H.
  - apply (includes_app_r (toLowerCase (Site.name s))).
    apply (includes_app_r " ").
    apply (includes_app_r (toLowerCase (Site.url s))).
    apply (includes_app_r " ").
    apply (includes_app_r (toLowerCase (or_empty (Site.description s)))).
    apply (includes_app_r " ").
    exact H.
Qed.

End FieldFacts.

(** X20 (matched fields): whenever [getMatchingFields] names a field, the
    item matches the query in pass 1; for a group the two agree and the
    only field is ["name"]. The converse fails for sites: a query that
    runs over two fields matches the site with no field to show. *)
Theorem matched_field_implies_match :
  forall (item : SmartSearchEngine.Item) (query : string),
    SmartSearchEngine.getMatchingFields item query <> [] ->
    SmartSearchEngine.matchesQuery item query = true
    /\ (forall g q,
          SmartSearchEngine.getMatchingFields (SmartSearchEngine.IGroup g) q
          = if SmartSearchEngine.matchesQuery (SmartSearchEngine.IGroup g) q
            then ["name"] else [])
    /\ (let s := {| Site.id := 1; Site.group_id := 1; Site.name := "ab";
                    Site.url := "cd"; Site.description := None;
                    Site.notes := None; Site.created_at := None |} in
        SmartSearchEngine.matchesQuery (SmartSearchEngine.ISite s) "b c" = true
        /\ SmartSearchEngine.getMatchingFields (SmartSearchEngine.ISite s) "b c" = []).
Proof.
  intros item query Hfields. split; [|split].
  - destruct item as [s|g].
    + apply site_field_in_text.
      unfold SmartSearchEngine.getMatchingFields in Hfields.
      destruct (includes (toLowerCase (Site.name s)) query) eqn:Hn; auto.
      destruct (SmartSearchEngine.field_matches (Some (Site.url s)) query) eqn:Hu.
      { apply field_matches_includes in Hu. auto. }
      destruct (SmartSearchEngine.field_matches (Site.description s) query) eqn:Hd.
      { apply field_matches_includes in Hd. auto. }
      destruct (SmartSearchEngine.field_matches (Site.notes s) query) eqn:Ho.
      { apply field_matches_includes in Ho. auto. }
      simpl in Hfields. contradiction.
    + unfold SmartSearchEngine.matchesQuery. simpl in *.
      destruct (includes (toLowerCase (Group.name g)) query);
        [reflexivity|now contradiction Hfields].
  - intros g q. reflexivity.
  - split; reflexivity.
Qed.

Lemma matched_field_implies_match_witness :
  SmartSearchEngine.matchesQuery
    (SmartSearchEngine.ISite
       {| Site.id := 7; Site.group_id := 1; Site.name := "Mail";
          Site.url := "https://example.org"; Site.description := Some "Inbox";
          Site.notes := None; Site.created_at := None |})
    "inbox" = true.
Proof.
  apply matched_field_implies_match. simpl. discriminate.
Defined.

Section RecommendationFacts.
Import SmartSearchEngine StatedSearch StatedMore.

Lemma map_snd_combine_seq {A B} (f : A -> B) (g : nat * A -> B) (l : list A) :
  (forall i x, g (i, x) = f x) ->
  forall start, map g (combine (seq start (List.length l)) l) = map f l.
Proof.
  intros Hg. induction l as [|x l IH]; intros start; simpl; auto.
  now rewrite Hg, IH.
Qed.

Lemma firstn_firstn_min {A} (n m : nat) (l : list A) :
  firstn n (firstn m l) = firstn (Nat.min n m) l.
Proof. apply firstn_firstn. Qed.

Lemma sorted_newest_first (l : list SearchHistoryItem) :
  StronglySorted (fun a b => timestamp b - timestamp a <= 0) l ->
  StronglySorted (fun a b => timestamp b <= timestamp a) l.
Proof.
  induction 1 as [|a l Hs IH Hall]; constructor; auto.
  eapply Forall_impl; [|exact Hall].
  intros b. cbv beta. lia.
Qed.

End RecommendationFacts.

(** X21 (recommendations): [getRecommendations] sorts the engine's own
    history array: afterwards the stored history is a rearrangement of the
    one before with the newest entry first, so a later [recordSelection] or
    [getSuggestions] meets the entries in that order. For a count that is
    not negative the recommendations are named after the queries of the
    newest entries, one each, at most ten and at most [count] of them. *)
Theorem recommendations_sort_the_history :
  forall (count : option Z) (now : nat -> Z) (random : nat -> Q)
         (e : SmartSearchEngine.t),
    0 <= match count with Some c => c | None => 5 end ->
    let n := Z.to_nat (match count with Some c => c | None => 5 end) in
    let out := SmartSearchEngine.getRecommendations count now random e in
    Permutation (SmartSearchEngine.searchHistory e)
                (SmartSearchEngine.searchHistory (snd out))
    /\ StronglySorted
         (fun a b => SmartSearchEngine.timestamp b <= SmartSearchEngine.timestamp a)
         (SmartSearchEngine.searchHistory (snd out))
    /\ SmartSearchEngine.maxHistoryItems (snd out) = SmartSearchEngine.maxHistoryItems e
    /\ map SmartSearchEngine.recName (fst out)
       = map (fun h => ("推荐项目: " ++ SmartSearchEngine.query h)%string)
             (firstn (Nat.min n 10) (SmartSearchEngine.searchHistory (snd out)))
    /\ (List.length (fst out) <= n)%nat
    /\ (List.length (fst out) <= 10)%nat.
Proof.
  intros count now random e Hc n out.
  set (cmp := fun a b : SmartSearchEngine.SearchHistoryItem =>
                SmartSearchEngine.timestamp b - SmartSearchEngine.timestamp a).
  set (sorted := sort cmp (SmartSearchEngine.searchHistory e)).
  assert (Hnames :
            map SmartSearchEngine.recName (fst out)
            = map (fun h => ("推荐项目: " ++ SmartSearchEngine.query h)%string)
                  (firstn (Nat.min n 10) sorted)).
  { unfold out, SmartSearchEngine.getRecommendations. cbv zeta. cbn [fst].
    fold cmp. fold sorted. unfold SmartSearchEngine.slice0.
    destruct (Z.ltb_spec (match count with Some c => c | None => 5 end) 0) as [Hlt|_];
      [lia|].
    fold n. rewrite <- firstn_map, map_map.
    rewrite (map_snd_combine_seq
               (fun h => ("推荐项目: " ++ SmartSearchEngine.query h)%string)).
    - now rewrite firstn_map, firstn_firstn_min.
    - intros i x. reflexivity. }
  assert (Hlen : List.length (fst out)
                 = List.length (firstn (Nat.min n 10) sorted)).
  { transitivity (List.length (map SmartSearchEngine.recName (fst out)));
      [symmetry; apply length_map|].
    rewrite Hnames. apply length_map. }
  split; [apply sort_perm|].
  split.
  { assert (Hcmp : StatedSearch.consistent cmp)
      by (constructor; unfold cmp; intros; lia).
    assert (Hs := sort_sorted cmp Hcmp (SmartSearchEngine.searchHistory e)).
    unfold out, SmartSearchEngine.getRecommendations. cbv zeta. cbn [snd].
    cbn [SmartSearchEngine.searchHistory]. fold cmp.
    apply sorted_newest_first. exact Hs. }
  split; [reflexivity|].
  split; [exact Hnames|].
  rewrite Hlen. split.
  - etransitivity; [apply firstn_le_length|]. apply Nat.le_min_l.
  - etransitivity; [apply firstn_le_length|]. apply Nat.le_min_r.
Qed.

Lemma recommendations_sort_the_history_witness :
  map SmartSearchEngine.recName
      (fst (SmartSearchEngine.getRecommendations (Some 1) (fun _ => 50) (fun _ => 0%Q)
              {| SmartSearchEngine.searchHistory :=
                   [ {| SmartSearchEngine.query := "old";
                        SmartSearchEngine.timestamp := 10;
                        SmartSearchEngine.resultsCount := 0;
                        SmartSearchEngine.selectedId := None |};
                     {| SmartSearchEngine.query := "new";
                        SmartSearchEngine.timestamp := 20;
                        SmartSearchEngine.resultsCount := 0;
                        SmartSearchEngine.selectedId := None |} ];
                 SmartSearchEngine.maxHistoryItems := 100 |}))
  = ["推荐项目: new"].
Proof.
  match goal with
  | |- map _ (fst (SmartSearchEngine.getRecommendations _ _ _ ?e)) = _ =>
      assert (H := recommendations_sort_the_history (Some 1) (fun _ => 50)
                     (fun _ => 0%Q) e)
  end.
  cbv zeta in H. destruct H as [_ [_ [_ [H _]]]]; [simpl; lia|]. exact H.
Defined.

(* ================================================================== *)
(** ** Properties of the error handling *)
(* ================================================================== *)

Section RetryFacts.
Import ErrorHandler StatedErrors.
Context {A : Type} (fn : nat -> Outcome A) (errs : nat -> Thrown).
Variables (retries delay now : Z).

Lemma fails_from_head i j :
  fails_from fn errs i (S j) ->
  fn i = Raised (errs i) /\ readMessage (errs i) = None /\ fails_from fn errs (S i) j.
Proof.
  intros H. destruct (H 0%nat ltac:(lia)) as [H1 H2].
  rewrite Nat.add_0_r in H1, H2. repeat split; auto.
  - specialize (H (S m) ltac:(lia)).
    replace (S i + m)%nat with (i + S m)%nat by lia. apply H.
  - specialize (H (S m) ltac:(lia)).
    replace (S i + m)%nat with (i + S m)%nat by lia. apply H.
Qed.

Lemma pow2_succ (i : nat) : 2 ^ Z.of_nat (S i) = 2 * 2 ^ Z.of_nat i.
Proof. rewrite Nat2Z.inj_succ. apply Z.pow_succ_r. lia. Qed.

(** The loop stops at the first attempt that returns, or whose error
    cannot be logged; the earlier attempts were each followed by a wait. *)
Lemma retryLoop_stops (res : Outcome A) :
  forall j i left lastError w,
    fails_from fn errs i j ->
    (exists a, fn (i + j)%nat = Returned a /\ res = Returned a)
    \/ (exists err typeError,
          fn (i + j)%nat = Raised err /\ readMessage err = Some typeError
          /\ res = Raised (ThrownError typeError)) ->
    (j < left)%nat ->
    Z.of_nat (i + j) < retries ->
    retryLoop fn retries delay now i left lastError w
    = {| outcome := res; calls := S (i + j);
         waited := w + delay * (2 ^ Z.of_nat (i + j) - 2 ^ Z.of_nat i) |}.
Proof.
  induction j as [|j IH]; intros i left lastError w Hfail Hend Hleft Hlt.
  - destruct left as [|left]; [lia|]. rewrite Nat.add_0_r in *. simpl.
    destruct Hend as [[a [Hfn ->]]|[err [te [Hfn [Hread ->]]]]];
      rewrite Hfn; [|rewrite Hread]; f_equal; lia.
  - destruct left as [|left]; [lia|].
    apply fails_from_head in Hfail. destruct Hfail as [Hfn [Hread Hrest]].
    simpl. rewrite Hfn, Hread.
    replace (Z.of_nat i <? retries - 1) with true
      by (symmetry; apply Z.ltb_lt; lia).
    replace (i + S j)%nat with (S i + j)%nat in * by lia.
    rewrite (IH (S i) left (errs i) (w + delay * 2 ^ Z.of_nat i));
      auto; try lia.
    f_equal. rewrite (pow2_succ i). lia.
Qed.

(** When every attempt fails the loop runs out: the last error is handled
    and no wait follows the last attempt. *)
Lemma retryLoop_exhausted :
  forall l i lastError w,
    fails_from fn errs i (S l) ->
    Z.of_nat (i + S l) = retries ->
    retryLoop fn retries delay now i (S l) lastError w
    = {| outcome := Raised (ThrownAppError (handle (errs (i + l)%nat) now));
         calls := S (i + l);
         waited := w + delay * (2 ^ Z.of_nat (i + l) - 2 ^ Z.of_nat i) |}.
Proof.
  induction l as [|l IH]; intros i lastError w Hfail Hret;
    apply fails_from_head in Hfail; destruct Hfail as [Hfn [Hread Hrest]].
  - rewrite Nat.add_0_r. simpl. rewrite Hfn, Hread.
    replace (Z.of_nat i <? retries - 1) with false
      by (symmetry; apply Z.ltb_ge; lia).
    f_equal. lia.
  - change (retryLoop fn retries delay now i (S (S l)) lastError w)
      with (match fn i with
            | Returned a => {| outcome := Returned a; calls := S i; waited := w |}
            | Raised error =>
                match readMessage error with
                | Some typeError =>
                    {| outcome := Raised (ThrownError typeError);
                       calls := S i; waited := w |}
                | None =>
                    retryLoop fn retries delay now (S i) (S l) error
                      (if Z.of_nat i <? retries - 1
                       then w + delay * 2 ^ Z.of_nat i
                       else w)
                end
            end).
    rewrite Hfn, Hread.
    replace (Z.of_nat i <? retries - 1) with true
      by (symmetry; apply Z.ltb_lt; lia).
    rewrite (IH (S i) (errs i) (w + delay * 2 ^ Z.of_nat i)); auto; try lia.
    replace (S i + l)%nat with (i + S l)%nat by lia.
    f_equal. rewrite (pow2_succ i). lia.
Qed.

End RetryFacts.

(** X22 (retry, success): when the attempts before number [k] fail with
    errors that can be logged and attempt [k], one of the [retries]
    allowed, returns, [retryAsync] returns that value after exactly
    [k + 1] calls of [fn], having waited [delay * (2^k - 1)] in all: the
    delays double from [delay] on. *)
Theorem retry_returns_first_success :
  forall (A : Type) (fn : nat -> ErrorHandler.Outcome A)
         (errs : nat -> ErrorHandler.Thrown) (retries delay now : Z)
         (k : nat) (a : A),
    Z.of_nat k < retries ->
    (forall m, (m < k)%nat ->
       fn m = ErrorHandler.Raised (errs m)
       /\ ErrorHandler.readMessage (errs m) = None) ->
    fn k = ErrorHandler.Returned a ->
    ErrorHandler.retryAsync fn (Some retries) (Some delay) now
    = {| ErrorHandler.outcome := ErrorHandler.Returned a;
         ErrorHandler.calls := S k;
         ErrorHandler.waited := delay * (2 ^ Z.of_nat k - 1) |}.
Proof.
  intros A fn errs retries delay now k a Hk Hfail Hfn.
  unfold ErrorHandler.retryAsync.
  rewrite (retryLoop_stops fn errs retries delay now (ErrorHandler.Returned a)
             k 0%nat (Z.to_nat retries) (ErrorHandler.ThrownValue JUndefined) 0).
  - simpl. f_equal.
  - intros m Hm. apply Hfail. exact Hm.
  - left. exists a. auto.
  - lia.
  - simpl. lia.
Qed.

Lemma retry_returns_first_success_witness :
  ErrorHandler.retryAsync
    (fun i => if (i <? 2)%nat
              then ErrorHandler.Raised (ErrorHandler.ThrownValue (JStr "busy"))
              else ErrorHandler.Returned 7)
    (Some 3) (Some 1000) 0
  = {| ErrorHandler.outcome := ErrorHandler.Returned 7;
       ErrorHandler.calls := 3;
       ErrorHandler.waited := 3000 |}.
Proof.
  apply (retry_returns_first_success Z _
           (fun _ => ErrorHandler.ThrownValue (JStr "busy")) 3 1000 0 2%nat 7).
  - lia.
  - intros m Hm. destruct m as [|[|m]]; [split; reflexivity..|lia].
  - reflexivity.
Defined.

(** X23 (retry, exhaustion): when all [retries] attempts fail with errors
    that can be logged, [retryAsync] has called [fn] exactly [retries]
    times, throws the last error as [ErrorHandler.handle] turns it into an
    [AppError], and has waited [delay * (2^(retries-1) - 1)]: there is no
    wait after the last attempt. *)
Theorem retry_gives_up_with_the_last_error :
  forall (A : Type) (fn : nat -> ErrorHandler.Outcome A)
         (errs : nat -> ErrorHandler.Thrown) (delay now : Z) (l : nat),
    (forall m, (m <= l)%nat ->
       fn m = ErrorHandler.Raised (errs m)
       /\ ErrorHandler.readMessage (errs m) = None) ->
    ErrorHandler.retryAsync fn (Some (Z.of_nat (S l))) (Some delay) now
    = {| ErrorHandler.outcome :=
           ErrorHandler.Raised
             (ErrorHandler.ThrownAppError (ErrorHandler.handle (errs l) now));
         ErrorHandler.calls := S l;
         ErrorHandler.waited := delay * (2 ^ Z.of_nat l - 1) |}.
Proof.
  intros A fn errs delay now l Hfail.
  unfold ErrorHandler.retryAsync. rewrite Nat2Z.id.
  rewrite (retryLoop_exhausted fn errs (Z.of_nat (S l)) delay now l 0%nat).
  - simpl. f_equal.
  - intros m Hm. apply Hfail. lia.
  - reflexivity.
Qed.

Lemma retry_gives_up_with_the_last_error_witness :
  ErrorHandler.calls
    (ErrorHandler.retryAsync
       (fun i => @ErrorHandler.Raised Z
                   (ErrorHandler.ThrownError
                      {| ErrorHandler.errorName := "Error";
                         ErrorHandler.errorMessage := number_toString (Z.of_nat i) |}))
       (Some 3) (Some 1000) 0)
  = 3%nat.
Proof.
  rewrite (retry_gives_up_with_the_last_error Z _
             (fun i => ErrorHandler.ThrownError
                         {| ErrorHandler.errorName := "Error";
                            ErrorHandler.errorMessage :=
                              number_toString (Z.of_nat i) |})
             1000 0 2%nat).
  - reflexivity.
  - intros m Hm. split; reflexivity.
Defined.

(** X24 (retry, nothing to try): with [retries] zero or negative [fn] is
    never called; [retryAsync] throws at once the [AppError] made from
    [undefined], whose message is the text for an unknown error and which
    is not shown to the user. *)
Theorem no_attempt_without_retries :
  forall (A : Type) (fn : nat -> ErrorHandler.Outcome A) (retries : Z)
         (delay : option Z) (now : Z),
    retries <= 0 ->
    ErrorHandler.retryAsync fn (Some retries) delay now
    = {| ErrorHandler.outcome :=
           ErrorHandler.Raised
             (ErrorHandler.ThrownAppError
                {| ErrorHandler.name := "AppError";
                   ErrorHandler.message := "未知错误";
                   ErrorHandler.cause := None;
                   ErrorHandler.context := Some [("originalError", JUndefined)];
                   ErrorHandler.showToUser := false;
                   ErrorHandler.timestamp := now |});
         ErrorHandler.calls := 0;
         ErrorHandler.waited := 0 |}.
Proof.
  intros A fn retries delay now Hle.
  unfold ErrorHandler.retryAsync.
  replace (Z.to_nat retries) with 0%nat by lia.
  reflexivity.
Qed.

Lemma no_attempt_without_retries_witness :
  ErrorHandler.calls
    (ErrorHandler.retryAsync (fun _ => ErrorHandler.Returned 1) (Some (-2)) None 5)
  = 0%nat.
Proof.
  rewrite (no_attempt_without_retries Z (fun _ => ErrorHandler.Returned 1) (-2) None 5).
  - reflexivity.
  - lia.
Defined.

(** X25 (retry, rejection with null): when an attempt rejects with [null]
    or [undefined], building the log line throws a [TypeError] inside the
    [catch] block; [retryAsync] then ends at once with that raw
    [TypeError], which is no [AppError], never calls [fn] again and never
    waits again, whatever number of retries is left. *)
Theorem null_rejection_aborts_the_retries :
  forall (A : Type) (fn : nat -> ErrorHandler.Outcome A)
         (errs : nat -> ErrorHandler.Thrown) (retries delay now : Z)
         (k : nat) (v : JsVal),
    Z.of_nat k < retries ->
    (forall m, (m < k)%nat ->
       fn m = ErrorHandler.Raised (errs m)
       /\ ErrorHandler.readMessage (errs m) = None) ->
    fn k = ErrorHandler.Raised (ErrorHandler.ThrownValue v) ->
    v = JNull \/ v = JUndefined ->
    exists typeError,
      ErrorHandler.retryAsync fn (Some retries) (Some delay) now
      = {| ErrorHandler.outcome :=
             ErrorHandler.Raised (ErrorHandler.ThrownError typeError);
           ErrorHandler.calls := S k;
           ErrorHandler.waited := delay * (2 ^ Z.of_nat k - 1) |}
      /\ ErrorHandler.errorName typeError = "TypeError"
      /\ ErrorHandler.shouldShowToUser (ErrorHandler.ThrownError typeError) = false.
Proof.
  intros A fn errs retries delay now k v Hk Hfail Hfn Hv.
  assert (Hread : exists typeError,
             ErrorHandler.readMessage (ErrorHandler.ThrownValue v) = Some typeError
             /\ ErrorHandler.errorName typeError = "TypeError").
  { destruct Hv as [->| ->]; eexists; split; reflexivity. }
  destruct Hread as [typeError [Hread Hname]].
  exists typeError. split; [|split; [exact Hname|reflexivity]].
  unfold ErrorHandler.retryAsync.
  rewrite (retryLoop_stops fn errs retries delay now
             (ErrorHandler.Raised (ErrorHandler.ThrownError typeError))
             k 0%nat (Z.to_nat retries) (ErrorHandler.ThrownValue JUndefined) 0).
  - simpl. f_equal.
  - intros m Hm. apply Hfail. exact Hm.
  - right. exists (ErrorHandler.ThrownValue v), typeError. auto.
  - lia.
  - simpl. lia.
Qed.

Lemma null_rejection_aborts_the_retries_witness :
  exists typeError,
    ErrorHandler.retryAsync
      (fun _ => @ErrorHandler.Raised Z (ErrorHandler.ThrownValue JNull))
      (Some 3) (Some 1000) 0
    = {| ErrorHandler.outcome :=
           ErrorHandler.Raised (ErrorHandler.ThrownError typeError);
         ErrorHandler.calls := 1;
         ErrorHandler.waited := 1000 * (2 ^ Z.of_nat 0 - 1) |}
    /\ ErrorHandler.errorName typeError = "TypeError"
    /\ ErrorHandler.shouldShowToUser (ErrorHandler.ThrownError typeError) = false.
Proof.
  apply (null_rejection_aborts_the_retries Z _
           (fun _ => ErrorHandler.ThrownValue JNull) 3 1000 0 0%nat JNull).
  - lia.
  - intros m Hm. lia.
  - reflexivity.
  - left. reflexivity.
Defined.

(** X26 (handling): [ErrorHandler.handle] leaves an error it has produced
    unchanged, so wrapping a function twice with [handleAsyncError] raises
    what wrapping it once raises. The result is shown to the user only when
    the error was an [AppError] that is shown or a thrown string; the
    message of any other [Error] or value is replaced by the general text,
    although [getUserMessage] applied to the same [Error] returns its
    message. *)
Theorem handle_is_idempotent_and_hides_foreign_errors :
  forall (error : ErrorHandler.Thrown) (now later : Z),
    ErrorHandler.handle
      (ErrorHandler.ThrownAppError (ErrorHandler.handle error now)) later
    = ErrorHandler.handle error now
    /\ (forall (A : Type) (call : ErrorHandler.Outcome A),
          ErrorHandler.handleAsyncError (ErrorHandler.handleAsyncError call now) later
          = ErrorHandler.handleAsyncError call now)
    /\ (ErrorHandler.showToUser (ErrorHandler.handle error now) = true
        <-> (exists e, error = ErrorHandler.ThrownAppError e
                       /\ ErrorHandler.showToUser e = true)
            \/ (exists s, error = ErrorHandler.ThrownValue (JStr s)))
    /\ (forall e : ErrorHandler.PlainError,
          ErrorHandler.formatUserMessage
            (ErrorHandler.handle (ErrorHandler.ThrownError e) now)
          = "发生了一个错误，请稍后重试"
          /\ (ErrorHandler.errorMessage e <> EmptyString ->
              ErrorHandler.getUserMessage (ErrorHandler.ThrownError e)
              = ErrorHandler.errorMessage e)).
Proof.
  intros error now later. split; [reflexivity|]. split; [|split].
  - intros A [a|err]; reflexivity.
  - split.
    + destruct error as [e|e|v]; simpl.
      * intros H. left. exists e. auto.
      * intros H. discriminate.
      * destruct v; simpl; intros H; try discriminate.
        right. eexists. reflexivity.
    + intros [[e [-> H]]|[s ->]]; [exact H|reflexivity].
  - intros e. split; [reflexivity|].
    intros Hne. simpl. unfold truthy_string.
    destruct (String.eqb_spec (ErrorHandler.errorMessage e) EmptyString);
      [contradiction|reflexivity].
Qed.

Lemma handle_is_idempotent_and_hides_foreign_errors_witness :
  ErrorHandler.getUserMessage
    (ErrorHandler.ThrownError
       {| ErrorHandler.errorName := "Error"; ErrorHandler.errorMessage := "boom" |})
  = "boom"
  /\ ErrorHandler.formatUserMessage
       (ErrorHandler.handle
          (ErrorHandler.ThrownError
             {| ErrorHandler.errorName := "Error";
                ErrorHandler.errorMessage := "boom" |}) 0)
     = "发生了一个错误，请稍后重试".
Proof.
  destruct (handle_is_idempotent_and_hides_foreign_errors
              (ErrorHandler.ThrownValue JNull) 0 1) as [_ [_ [_ H]]].
  destruct (H {| ErrorHandler.errorName := "Error";
                 ErrorHandler.errorMessage := "boom" |}) as [Hhidden Hraw].
  split; [apply Hraw; discriminate|exact Hhidden].
Defined.

Section MessageFacts.
Import ErrorHandler.

Lemma truthy_string_nonempty s : truthy_string s = true -> s <> EmptyString.
Proof.
  unfold truthy_string. destruct (String.eqb_spec s EmptyString); [discriminate|auto].
Qed.

Lemma formatUserMessage_nonempty (e : AppError) : formatUserMessage e <> EmptyString.
Proof.
  unfold formatUserMessage.
  destruct (negb (showToUser e)); [discriminate|].
  destruct (name e =? "ValidationError")%string; [discriminate|].
  destruct (name e =? "NetworkError")%string; [discriminate|].
  destruct (name e =? "AuthError")%string; [discriminate|].
  destruct (name e =? "DataError")%string; [discriminate|].
  destruct (truthy_string (message e)) eqn:E; [|discriminate].
  now apply truthy_string_nonempty.
Qed.

End MessageFacts.

(** X27 (user messages): [formatUserMessage] never returns the empty
    string, whatever the error holds; [getUserMessage] returns the empty
    string for one input only, a thrown empty string. An error of one of
    the four subclasses is always shown to the user, also when its options
    ask for the contrary: a network error then shows its fixed text and a
    validation error its message after the fixed prefix. *)
Theorem user_message_is_never_empty :
  forall (e : ErrorHandler.AppError) (error : ErrorHandler.Thrown)
         (className message : string) (options : ErrorHandler.AppErrorOptions)
         (now : Z),
    ErrorHandler.formatUserMessage e <> EmptyString
    /\ (ErrorHandler.getUserMessage error = EmptyString
        <-> error = ErrorHandler.ThrownValue (JStr EmptyString))
    /\ ErrorHandler.showToUser
         (ErrorHandler.newSubclassError className message options now) = true
    /\ ErrorHandler.formatUserMessage
         (ErrorHandler.newNetworkError message options now)
       = "网络连接失败，请检查网络后重试"
    /\ ErrorHandler.formatUserMessage
         (ErrorHandler.newValidationError message options now)
       = ("输入验证失败: " ++ message)%string.
Proof.
  intros e error className message options now.
  split; [apply formatUserMessage_nonempty|].
  split; [|repeat split]. split.
  - destruct error as [a|p|v]; simpl.
    + intros H. now apply formatUserMessage_nonempty in H.
    + destruct (truthy_string (ErrorHandler.errorMessage p)) eqn:E.
      * intros H. now apply truthy_string_nonempty in E.
      * intros H. discriminate.
    + destruct v; intros H; try discriminate. now subst.
  - intros ->. reflexivity.
Qed.

(* ================================================================== *)
(** ** Properties of the security helpers *)
(* ================================================================== *)

Section SecurityFacts.
Import Security.

Lemma chars_toLowerCase s :
  list_ascii_of_string (toLowerCase s) = map lower_ascii (list_ascii_of_string s).
Proof. induction s as [|c s IH]; simpl; congruence. Qed.

Lemma prefix_chars lit :
  forall s c,
    prefix lit s = true ->
    In c (list_ascii_of_string lit) -> In c (list_ascii_of_string s).
Proof.
  induction lit as [|a lit IH]; intros [|b s] c H Hin; simpl in *;
    try contradiction; try discriminate.
  destruct (ascii_dec a b) as [->|]; [|discriminate].
  destruct Hin as [->|Hin]; [now left|right]. now apply (IH s).
Qed.

Lemma includes_chars s :
  forall lit c,
    includes s lit = true ->
    In c (list_ascii_of_string lit) -> In c (list_ascii_of_string s).
Proof.
  induction s as [|a s IH]; intros lit c H Hin.
  - destruct lit; simpl in *; [contradiction|discriminate].
  - change (includes (String a s) lit)
      with (prefix lit (String a s) || includes s lit) in H.
    apply orb_true_iff in H. destruct H as [H|H].
    + now apply (prefix_chars lit).
    + right. now apply (IH lit).
Qed.

Lemma skip_chars class s c :
  In c (list_ascii_of_string (skip class s)) -> In c (list_ascii_of_string s).
Proof.
  induction s as [|a s IH]; simpl; auto.
  destruct (class a); simpl; auto.
Qed.

Lemma on_handler_at_chars s :
  on_handler_at s = true -> In "="%char (list_ascii_of_string s).
Proof.
  destruct s as [|o [|n [|w rest]]]; simpl; try discriminate.
  intros H. apply andb_true_iff in H. destruct H as [_ H].
  right. right. right.
  apply (skip_chars is_word), (skip_chars is_space).
  destruct (skip is_space (skip is_word rest)) as [|e t]; [discriminate|].
  apply Ascii.eqb_eq in H. subst e. now left.
Qed.

Lemma test_anywhere_chars s :
  test_anywhere on_handler_at s = true -> In "="%char (list_ascii_of_string s).
Proof.
  induction s as [|a s IH]; simpl.
  - discriminate.
  - intros H. apply orb_true_iff in H. destruct H as [H|H].
    + apply (on_handler_at_chars (String a s)) in H. exact H.
    + right. now apply IH.
Qed.

(** What a character of a user name is not. *)
Lemma username_char_plain c :
  is_username_char c = true ->
  is_special c = false
  /\ lower_ascii c <> "<"%char /\ lower_ascii c <> ":"%char /\ c <> "="%char.
Proof.
  destruct c as [[] [] [] [] [] [] [] []]; vm_compute; intros H;
    try discriminate H; repeat split; discriminate.
Qed.

Lemma test_ci_needs literal content c :
  In c (list_ascii_of_string literal) ->
  (forall x, In x (list_ascii_of_string content) -> lower_ascii x <> c) ->
  test_ci literal content = false.
Proof.
  intros Hin Hno. unfold test_ci.
  destruct (includes (toLowerCase content) literal) eqn:E; auto.
  apply (includes_chars _ _ c) in E; auto.
  rewrite chars_toLowerCase in E. apply in_map_iff in E.
  destruct E as [x [Hx Hin']]. now apply Hno in Hin'.
Qed.

Lemma plain_content_is_safe s :
  forallb is_username_char (list_ascii_of_string s) = true ->
  checkForMaliciousContent s = true.
Proof.
  intros Hall. rewrite forallb_forall in Hall.
  assert (Hlt : forall x, In x (list_ascii_of_string s) -> lower_ascii x <> "<"%char)
    by (intros x Hx; now apply username_char_plain, Hall).
  assert (Hcolon : forall x, In x (list_ascii_of_string s) -> lower_ascii x <> ":"%char)
    by (intros x Hx; now apply username_char_plain, Hall).
  assert (Hon : test_anywhere on_handler_at s = false).
  { destruct (test_anywhere on_handler_at s) eqn:E; auto.
    apply test_anywhere_chars in E.
    now apply Hall, username_char_plain in E. }
  unfold checkForMaliciousContent, maliciousPatterns. cbn [existsb].
  rewrite Hon.
  rewrite (test_ci_needs "<script" s "<"%char), (test_ci_needs "javascript:" s ":"%char),
    (test_ci_needs "vbscript:" s ":"%char), (test_ci_needs "<iframe" s "<"%char),
    (test_ci_needs "<embed" s "<"%char), (test_ci_needs "<object" s "<"%char),
    (test_ci_needs "<link" s "<"%char); auto; simpl; tauto.
Qed.

Lemma append_nil_r (s : string) : (s ++ EmptyString)%string = s.
Proof. induction s as [|c s IH]; simpl; congruence. Qed.

Lemma join_cons x xs : join (x :: xs) = (x ++ join xs)%string.
Proof.
  unfold join. destruct xs as [|y ys]; simpl.
  - now rewrite append_nil_r.
  - reflexivity.
Qed.

Lemma hexDigit_class d :
  (d < 16)%nat ->
  is_digit (hexDigit d) || in_range 97 102 (hexDigit d) = true.
Proof.
  intros H. do 16 (destruct d as [|d]; [reflexivity|]). lia.
Qed.

Lemma hexDigit_inj d d' :
  (d < 16)%nat -> (d' < 16)%nat -> hexDigit d = hexDigit d' -> d = d'.
Proof.
  intros H H'.
  do 16 (destruct d as [|d];
         [do 16 (destruct d' as [|d']; [vm_compute; congruence|]); lia|]).
  lia.
Qed.

(** Every byte is written as its two hexadecimal digits. *)
Lemma two_digits byte :
  padStart 2 "0" (toString16 byte)
  = String (hexDigit (Byte.to_nat byte / 16))
           (String (hexDigit (Byte.to_nat byte mod 16)) EmptyString).
Proof.
  unfold toString16.
  destruct (Nat.ltb_spec (Byte.to_nat byte) 16) as [Hlt|Hge].
  - rewrite Nat.div_small, Nat.mod_small by exact Hlt. reflexivity.
  - reflexivity.
Qed.

Lemma two_chars_inj (a b c d : ascii) (s t : string) :
  String a (String b s) = String c (String d t) -> a = c /\ b = d /\ s = t.
Proof. intros H. injection H. auto. Qed.

Lemma two_digits_inj b b' :
  padStart 2 "0" (toString16 b) = padStart 2 "0" (toString16 b') -> b = b'.
Proof.
  rewrite !two_digits. intros H.
  apply two_chars_inj in H. destruct H as [Hhi [Hlo _]].
  assert (Hb := Byte.to_nat_bounded b). assert (Hb' := Byte.to_nat_bounded b').
  apply hexDigit_inj in Hlo; [|apply Nat.mod_upper_bound; lia..].
  apply hexDigit_inj in Hhi;
    [|apply Nat.Div0.div_lt_upper_bound; lia..].
  assert (Hn : Byte.to_nat b = Byte.to_nat b').
  { rewrite (Nat.div_mod_eq (Byte.to_nat b) 16),
            (Nat.div_mod_eq (Byte.to_nat b') 16). congruence. }
  assert (Hs : Some b = Some b') by (rewrite <- !Byte.of_to_nat; now rewrite Hn).
  now injection Hs.
Qed.

Lemma token_of_bytes (l : list Byte.byte) :
  String.length (join (map (fun byte => padStart 2 "0" (toString16 byte)) l))
  = (2 * List.length l)%nat
  /\ forallb (fun c => is_digit c || in_range 97 102 c)
       (list_ascii_of_string
          (join (map (fun byte => padStart 2 "0" (toString16 byte)) l))) = true.
Proof.
  induction l as [|b l [IHlen IHall]]; [split; reflexivity|].
  cbn [map]. rewrite join_cons, two_digits.
  assert (Hb := Byte.to_nat_bounded b).
  split.
  - simpl. rewrite IHlen. lia.
  - cbn [append list_ascii_of_string forallb].
    rewrite !hexDigit_class, IHall; auto.
    + apply Nat.mod_upper_bound. lia.
    + apply Nat.Div0.div_lt_upper_bound. lia.
Qed.

Lemma token_inj (l : list Byte.byte) :
  forall l',
    List.length l = List.length l' ->
    join (map (fun byte => padStart 2 "0" (toString16 byte)) l)
    = join (map (fun byte => padStart 2 "0" (toString16 byte)) l') ->
    l = l'.
Proof.
  induction l as [|b l IH]; intros [|b' l'] Hlen H; simpl in Hlen;
    try discriminate; auto.
  cbn [map] in H. rewrite !join_cons in H.
  assert (Hboth : padStart 2 "0" (toString16 b) = padStart 2 "0" (toString16 b')
                  /\ join (map (fun byte => padStart 2 "0" (toString16 byte)) l)
                     = join (map (fun byte => padStart 2 "0" (toString16 byte)) l')).
  { rewrite !two_digits in *. cbn [append] in H.
    apply two_chars_inj in H. destruct H as [H1 [H2 H3]].
    split; [congruence|exact H3]. }
  destruct Hboth as [Hhead Htail].
  f_equal; [now apply two_digits_inj | apply IH; [lia | exact Htail]].
Qed.

Lemma map_seq_eq {B} (f g : nat -> B) n :
  forall start,
    map f (seq start n) = map g (seq start n) ->
    forall i, (start <= i < start + n)%nat -> f i = g i.
Proof.
  induction n as [|n IH]; intros start H i Hi; [lia|].
  simpl in H. injection H as Hhead Htail.
  destruct (Nat.eq_dec i start) as [->|Hne]; [exact Hhead|].
  apply (IH (S start) Htail). lia.
Qed.

Lemma randomBytes_ext n random random' :
  randomBytes n random = randomBytes n random'
  <-> forall i, (i < n)%nat -> random i = random' i.
Proof.
  unfold randomBytes. split.
  - intros H i Hi. apply (map_seq_eq random random' n 0%nat H). lia.
  - intros H. apply map_ext_in. intros i Hi. apply H.
    apply in_seq in Hi. lia.
Qed.

Lemma charAt_class :
  forall i, (i < 62)%nat ->
    exists c, charAt i = String c EmptyString
              /\ is_upper c || is_lower c || is_digit c = true.
Proof.
  assert (H : forallb (fun i => match charAt i with
                                | String c EmptyString =>
                                    is_upper c || is_lower c || is_digit c
                                | _ => false
                                end) (seq 0 62) = true) by reflexivity.
  rewrite forallb_forall in H. intros i Hi.
  specialize (H i ltac:(apply in_seq; lia)).
  destruct (charAt i) as [|c [|c' t]]; try discriminate.
  exists c. auto.
Qed.

Lemma random_string_of_bytes (l : list Byte.byte) :
  let s := join (map (fun byte => charAt (Byte.to_nat byte mod String.length chars)) l) in
  String.length s = List.length l
  /\ forallb (fun c => is_upper c || is_lower c || is_digit c)
       (list_ascii_of_string s) = true.
Proof.
  induction l as [|b l [IHlen IHall]]; [split; reflexivity|].
  cbv zeta in *. cbn [map]. rewrite join_cons.
  destruct (charAt_class (Byte.to_nat b mod String.length chars)) as [c [Hc Hclass]].
  { apply Nat.mod_upper_bound. discriminate. }
  rewrite Hc. split.
  - cbn [append String.length List.length]. now rewrite IHlen.
  - cbn [append list_ascii_of_string forallb]. now rewrite Hclass, IHall.
Qed.

Lemma alnum_is_username_char l :
  forallb (fun c => is_upper c || is_lower c || is_digit c) l = true ->
  forallb is_username_char l = true.
Proof.
  rewrite !forallb_forall. intros H c Hc. specialize (H c Hc).
  unfold is_username_char.
  destruct (is_upper c), (is_lower c), (is_digit c); simpl in *; auto; discriminate.
Qed.

End SecurityFacts.

(** X28 (user names): a string that [validateUsername] accepts passes
    [checkForMaliciousContent], and is never a strong password:
    [validatePasswordStrength] rejects it for want of a special character,
    the hyphen and the underscore of a user name being none. *)
Theorem username_is_safe_but_no_password :
  forall username : string,
    Security.validateUsername username = true ->
    Security.checkForMaliciousContent username = true
    /\ Security.isValid (Security.validatePasswordStrength username) = false
    /\ In "密码必须包含特殊字符"
          (Security.errors (Security.validatePasswordStrength username)).
Proof.
  intros username H. unfold Security.validateUsername in H.
  apply andb_true_iff in H. destruct H as [_ Hall].
  split; [now apply plain_content_is_safe|].
  assert (Hspecial : Security.test_class Security.is_special username = false).
  { unfold Security.test_class.
    destruct (existsb Security.is_special (list_ascii_of_string username)) eqn:E; auto.
    apply existsb_exists in E. destruct E as [c [Hc Hs]].
    rewrite forallb_forall in Hall.
    destruct (username_char_plain c (Hall c Hc)) as [Hno _]. congruence. }
  assert (Hin : In "密码必须包含特殊字符"
                   (Security.errors (Security.validatePasswordStrength username))).
  { unfold Security.validatePasswordStrength. cbn [Security.errors].
    rewrite Hspecial. rewrite !in_app_iff. right. right. right. right.
    now left. }
  split; [|exact Hin].
  unfold Security.validatePasswordStrength in *. cbn [Security.isValid Security.errors] in *.
  destruct ((if (String.length username <? 8)%nat then ["密码长度至少8位"] else [])
            ++ (if negb (Security.test_class Security.is_upper username)
                then ["密码必须包含大写字母"] else [])
            ++ (if negb (Security.test_class Security.is_lower username)
                then ["密码必须包含小写字母"] else [])
            ++ (if negb (Security.test_class Security.is_digit username)
                then ["密码必须包含数字"] else [])
            ++ (if negb (Security.test_class Security.is_special username)
                then ["密码必须包含特殊字符"] else [])); [contradiction|reflexivity].
Qed.

Lemma username_is_safe_but_no_password_witness :
  Security.checkForMaliciousContent "Admin_2024" = true
  /\ Security.isValid (Security.validatePasswordStrength "Admin_2024") = false
  /\ In "密码必须包含特殊字符"
        (Security.errors (Security.validatePasswordStrength "Admin_2024")).
Proof.
  apply (username_is_safe_but_no_password "Admin_2024"). reflexivity.
Defined.

(** X29 (CSRF token): whatever bytes the platform draws,
    [generateCsrfToken] returns 64 characters, all of them lower-case
    hexadecimal digits, and loses nothing: two tokens are equal, which is
    what [validateCsrfToken] tests, exactly when the 32 bytes drawn are the
    same. *)
Theorem csrf_token_is_64_hex_digits :
  forall random random' : nat -> Byte.byte,
    String.length (Security.generateCsrfToken random) = 64%nat
    /\ forallb (fun c => Security.is_digit c || Security.in_range 97 102 c)
         (list_ascii_of_string (Security.generateCsrfToken random)) = true
    /\ (Security.validateCsrfToken (Security.generateCsrfToken random)
                                   (Security.generateCsrfToken random') = true
        <-> forall i, (i < 32)%nat -> random i = random' i).
Proof.
  intros random random'. unfold Security.generateCsrfToken.
  destruct (token_of_bytes (Security.randomBytes 32 random)) as [Hlen Hall].
  split; [|split; [exact Hall|]].
  - rewrite Hlen. unfold Security.randomBytes. now rewrite length_map, length_seq.
  - unfold Security.validateCsrfToken. rewrite String.eqb_eq.
    rewrite <- randomBytes_ext. split.
    + apply token_inj. unfold Security.randomBytes.
      now rewrite !length_map, !length_seq.
    + now intros ->.
Qed.

Lemma csrf_token_is_64_hex_digits_witness :
  Security.validateCsrfToken (Security.generateCsrfToken (fun _ => Byte.x1f))
                             (Security.generateCsrfToken (fun _ => Byte.x1f)) = true.
Proof.
  destruct (csrf_token_is_64_hex_digits (fun _ => Byte.x1f) (fun _ => Byte.x1f))
    as [_ [_ H]].
  apply H. intros i Hi. reflexivity.
Defined.

(** X30 (random strings): for a length between 0 and 65536
    [generateSecureRandomString] returns a string of that length made of
    letters and digits only; the string passes [checkForMaliciousContent],
    and it is a valid user name exactly when the length is between 3 and
    20. The characters are not equally likely: of the 256 values of a
    byte, five select each of the first eight characters of the alphabet
    and four select each of the other 54. *)
Theorem random_string_is_alphanumeric :
  forall (length : Z) (random : nat -> Byte.byte),
    0 <= length <= 65536 ->
    exists s,
      Security.generateSecureRandomString length random = Some s
      /\ Z.of_nat (String.length s) = length
      /\ forallb (fun c => Security.is_upper c || Security.is_lower c
                           || Security.is_digit c)
           (list_ascii_of_string s) = true
      /\ Security.checkForMaliciousContent s = true
      /\ Security.validateUsername s = (3 <=? length) && (length <=? 20)
      /\ (forall i, (i < 62)%nat ->
            List.length
              (filter (fun n => (Security.charAt (n mod String.length Security.chars)
                                 =? Security.charAt i)%string)
                      (seq 0 256))
            = if (i <? 8)%nat then 5%nat else 4%nat).
Proof.
  intros length random Hrange.
  unfold Security.generateSecureRandomString.
  replace ((length <? 0) || (65536 <? length)) with false
    by (symmetry; apply orb_false_iff; split; apply Z.ltb_ge; lia).
  destruct (random_string_of_bytes
              (Security.randomBytes (Z.to_nat length) random)) as [Hlen Hall].
  cbv zeta in Hlen, Hall.
  eexists. split; [reflexivity|].
  assert (Hlength :
            String.length
              (Security.join
                 (map (fun byte =>
                         Security.charAt
                           (Byte.to_nat byte mod String.length Security.chars))
                      (Security.randomBytes (Z.to_nat length) random)))
            = Z.to_nat length).
  { rewrite Hlen. unfold Security.randomBytes. now rewrite length_map, length_seq. }
  split; [rewrite Hlength; lia|].
  split; [exact Hall|].
  split; [now apply plain_content_is_safe, alnum_is_username_char|].
  split.
  - unfold Security.validateUsername.
    rewrite (alnum_is_username_char _ Hall), andb_true_r, Hlength.
    destruct (Z.leb_spec 3 length), (Z.leb_spec length 20);
      destruct (Nat.leb_spec 3 (Z.to_nat length)),
               (Nat.leb_spec (Z.to_nat length) 20); simpl; auto; lia.
  - assert (H : forallb
                  (fun i =>
                     (List.length
                        (filter (fun n =>
                                   (Security.charAt (n mod String.length Security.chars)
                                    =? Security.charAt i)%string)
                                (seq 0 256))
                      =? (if (i <? 8)%nat then 5 else 4))%nat)
                  (seq 0 62) = true) by (vm_compute; reflexivity).
    rewrite forallb_forall in H. intros i Hi.
    apply Nat.eqb_eq, H, in_seq. lia.
Qed.

Lemma random_string_is_alphanumeric_witness :
  exists s,
    Security.generateSecureRandomString 4 (fun _ => Byte.x41) = Some s
    /\ Z.of_nat (String.length s) = 4
    /\ forallb (fun c => Security.is_upper c || Security.is_lower c
                         || Security.is_digit c)
         (list_ascii_of_string s) = true
    /\ Security.checkForMaliciousContent s = true
    /\ Security.validateUsername s = (3 <=? 4) && (4 <=? 20)
    /\ (forall i, (i < 62)%nat ->
          List.length
            (filter (fun n => (Security.charAt (n mod String.length Security.chars)
                               =? Security.charAt i)%string)
                    (seq 0 256))
          = if (i <? 8)%nat then 5%nat else 4%nat).
Proof.
  apply (random_string_is_alphanumeric 4 (fun _ => Byte.x41)). lia.
Defined.
